(** * GuruShots auto voter: the voting engine and the per-cycle orchestrator

    A shallow embedding of [src/fetch.js]: [makePostRequest],
    [getActiveChallenges], [getVoteImages], [submitVotes], [applyBoost],
    [getRandomDelay] and [fetchChallengesAndVote], and the content that
    [login] saves to the .env file.

    Conventions of the embedding.
    - JavaScript numbers (exposure factor, contribution ratio, epoch
      seconds) are integers of [Z]; a value returned by [Math.random] is a
      rational of [Q], and the delay computed from it is rounded as
      binary64 arithmetic rounds.
    - Identifiers and titles are strings; the [Set] of chosen identifiers
      is a [gset string].
    - A request body is kept as the ordered list of its [key=value]
      fields; [wire] is the string sent for it, with the values of the
      image-identifier fields passed through [encodeURIComponent].
    - Every [async] function is a computation of the monad [M]: it reads
      the values [Math.random] will return from a finite list, emits the
      console lines, requests and pauses it performs, and ends normally,
      with a thrown error, with the process stopped by [process.exit], or
      still looping when the random values supplied are used up.
    - The program is given twice.  First on records that give the data of
      the platform the shape the program expects, every part in its
      place; then, in the module [Received], on data of which any part
      may be absent, where reading a property of an absent part throws as
      it does in the source. *)

From Stdlib Require Import ZArith QArith Qround Lqa List String Ascii.
From stdpp Require Import base gmap sets list strings pretty.

Open Scope Z_scope.

(** ** Data received from the platform

    The records give the data the shape the program expects: every part
    is in its place.  The module [Received] below drops that. *)

(** One element of [response.images]. *)
Record image := Image { img_id : string; img_ratio : Z }.

(** [member.ranking.entries[i]]. *)
Record entry := Entry { entry_id : string; entry_turbo : bool }.

(** [member.boost]: [timeout] is absent ([None]) or a number. *)
Record boost := Boost { boost_state : string; boost_timeout : option Z }.

(** [member.ranking]: [exposure.exposure_factor] and [entries]. *)
Record ranking := Ranking { rk_exposure_factor : Z; rk_entries : list entry }.

Record member := Member { mb_boost : boost; mb_ranking : ranking }.

Record challenge := Challenge {
  ch_id : string;
  ch_title : string;
  ch_url : string;
  ch_start_time : Z;
  ch_member : member
}.

(** The answer of [get_vote_images]: [challenge], [voting.exposure] and
    [images].  An absent [images] is the empty list: both take the same
    branch of [getVoteImages] and of [submitVotes]. *)
Record voteImages := VoteImages {
  vi_challenge : challenge;
  vi_exposure_factor : Z;
  vi_images : list image
}.

(** What [response.data] can hold. *)
Inductive json :=
| JChallenges (cs : list challenge)
| JVoteImages (v : voteImages)
| JOther.

(** ** Requests, console lines and the world *)

Inductive endpoint := GetMyActiveChallenges | GetVoteImages | SubmitVote | BoostPhoto.

Definition endpoint_url (u : endpoint) : string :=
  match u with
  | GetMyActiveChallenges => "https://api.gurushots.com/rest_mobile/get_my_active_challenges"
  | GetVoteImages => "https://api.gurushots.com/rest_mobile/get_vote_images"
  | SubmitVote => "https://api.gurushots.com/rest_mobile/submit_vote"
  | BoostPhoto => "https://api.gurushots.com/rest_mobile/boost_photo"
  end.

Definition field := (string * string)%type.
Definition body := list field.

(** The values of the fields named [k], in order. *)
Definition field_values (k : string) (b : body) : list string :=
  map snd (List.filter (fun f => String.eqb (fst f) k) b).

Inductive level := LLog | LWarn | LError.

(** The console lines of [fetch.js], one constructor per template. *)
Inductive message :=
| MsgTokenMustBeSet
| MsgPostError (url : endpoint) (e : string)
| MsgGettingChallenges
| MsgFailedChallenges
| MsgFetchingVoteImages (title : string)
| MsgNoImagesAvailable (title : string)
| MsgFetchedImages (n : nat) (title : string)
| MsgNoImagesToVote (title : string)
| MsgNotEnoughImages (title : string)
| MsgFailedSubmit (title : string)
| MsgVotesSubmitted (title : string)
| MsgNoNonTurbo
| MsgFailedBoost (id : string)
| MsgBoostApplied (imageId : string)
| MsgBoostAvailable (title : string)
| MsgExecutingBoost (minutes : Z)
| MsgBoostError (e : string)
| MsgErrorVoting (title : string)
| MsgThrown (e : string)
| MsgCompleted (time : string).

Definition render (m : message) : string :=
  match m with
  | MsgTokenMustBeSet => "TOKEN must be set"
  | MsgPostError u e => "Error during POST request to " +:+ endpoint_url u +:+ ": " +:+ e
  | MsgGettingChallenges => "Getting active challenges"
  | MsgFailedChallenges => "Failed to fetch active challenges."
  | MsgFetchingVoteImages t => "Fetching vote images for challenge: " +:+ t
  | MsgNoImagesAvailable t =>
      "No images available or invalid response for challenge: " +:+ t +:+ ". Skipping."
  | MsgFetchedImages n t =>
      "Fetched " +:+ pretty n +:+ " images for challenge: " +:+ t
  | MsgNoImagesToVote t => "No images to vote on for challenge: " +:+ t
  | MsgNotEnoughImages t =>
      "Not enough images to reach exposure factor 100 for challenge: " +:+ t
  | MsgFailedSubmit t => "Failed to submit votes for challenge: " +:+ t
  | MsgVotesSubmitted t => "Votes submitted successfully for challenge: " +:+ t
  | MsgNoNonTurbo => "No non-turboed entries found for boosting."
  | MsgFailedBoost i => "Failed to apply boost for challenge ID: " +:+ i
  | MsgBoostApplied i => "Boost applied successfully to image ID: " +:+ i
  | MsgBoostAvailable t => "Boost available for challenge: " +:+ t
  | MsgExecutingBoost m =>
      "Boost deadline is within timeout (" +:+ pretty m +:+ " minutes). Executing boost."
  | MsgBoostError e => "Error during boost process: " +:+ e
  | MsgErrorVoting t =>
      "Error voting on challenge: " +:+ t +:+ ". Skipping to next challenge."
  | MsgThrown e => e
  | MsgCompleted t => "Voting process completed for all challenges at " +:+ t
  end.

Inductive event :=
| Console (l : level) (m : message)
| Request (url : endpoint) (data : body)
| Sleep (ms : Z).

(** What [axios] does with a request: a response carrying [data] (which
    may be empty), or a rejection with a message. *)
Inductive reply :=
| Responded (data : option json)
| Rejected (e : string).

(** Everything outside the program: the credential of [process.env], the
    network and the clock. *)
Record world := World {
  TOKEN : option string;
  axios : endpoint -> body -> reply;
  date_now : Z;
  locale_time : string
}.

(** ** The monad of the asynchronous functions *)

Inductive outcome (A : Type) :=
| Ok (a : A)
| Throw (e : string)
| Exit (code : Z)
| Pending.
Arguments Ok {A} a.
Arguments Throw {A} e.
Arguments Exit {A} code.
Arguments Pending {A}.

Record run (A : Type) := Run {
  out : outcome A;
  rest : list Q;
  emitted : list event
}.
Arguments Run {A} out rest emitted.
Arguments out {A} r.
Arguments rest {A} r.
Arguments emitted {A} r.

Definition M (A : Type) : Type := list Q -> run A.

Definition ret {A} (a : A) : M A := fun rs => Run (Ok a) rs [].

Definition bind {A B} (m : M A) (f : A -> M B) : M B := fun rs =>
  let r := m rs in
  match out r with
  | Ok a => let r' := f a (rest r) in
            Run (out r') (rest r') (emitted r ++ emitted r')
  | Throw e => Run (Throw e) (rest r) (emitted r)
  | Exit c => Run (Exit c) (rest r) (emitted r)
  | Pending => Run Pending (rest r) (emitted r)
  end.

Declare Scope js_scope.
Delimit Scope js_scope with js.
Notation "x <- m ;; k" := (bind m (fun x => k))
  (at level 100, m at next level, right associativity) : js_scope.
Notation "m ;;; k" := (bind m (fun _ => k))
  (at level 100, right associativity) : js_scope.
Open Scope js_scope.

Definition emit (e : event) : M unit := fun rs => Run (Ok tt) rs [e].
Definition console (l : level) (m : message) : M unit := emit (Console l m).
Definition throw {A} (e : string) : M A := fun rs => Run (Throw e) rs [].
Definition process_exit {A} (code : Z) : M A := fun rs => Run (Exit code) rs [].

(** [try { m } catch (error) { h error }]: only a thrown error is caught. *)
Definition try_catch {A} (m : M A) (h : string -> M A) : M A := fun rs =>
  let r := m rs in
  match out r with
  | Throw e => let r' := h e (rest r) in
               Run (out r') (rest r') (emitted r ++ emitted r')
  | _ => r
  end.

(** [Math.random()]: the next value of the supply. *)
Definition Math_random : M Q := fun rs =>
  match rs with
  | [] => Run Pending [] []
  | r :: rs' => Run (Ok r) rs' []
  end.

(** [Math.random] returns a value of the half-open unit interval. *)
Definition unit_draw (r : Q) : Prop := (0 <= r)%Q /\ (r < 1)%Q.

(** ** makePostRequest *)

Definition token_set (w : world) : bool :=
  match TOKEN w with
  | Some t => negb (String.eqb t "")
  | None => false
  end.

Definition makePostRequest (w : world) (url : endpoint) (data : body) : M (option json) :=
  if token_set w then
    emit (Request url data) ;;;
    match axios w url data with
    | Responded d => ret d
    | Rejected e => console LError (MsgPostError url e) ;;; ret None
    end
  else
    console LError MsgTokenMustBeSet ;;; process_exit 1.

(** ** getActiveChallenges and getVoteImages *)

(** The result is the response object; [None] stands for a response
    without a [challenges] array. *)
Definition getActiveChallenges (w : world) : M (option (list challenge)) :=
  console LLog MsgGettingChallenges ;;;
  response <- makePostRequest w GetMyActiveChallenges [] ;;
  match response with
  | None => console LError MsgFailedChallenges ;;; ret (Some [])
  | Some (JChallenges cs) => ret (Some cs)
  | Some _ => ret None
  end.

Definition getVoteImages (w : world) (c : challenge) : M (option voteImages) :=
  console LLog (MsgFetchingVoteImages (ch_title c)) ;;;
  response <- makePostRequest w GetVoteImages [("limit", "100"); ("url", ch_url c)] ;;
  match response with
  | Some (JVoteImages v) =>
      match vi_images v with
      | [] => console LWarn (MsgNoImagesAvailable (ch_title c)) ;;; ret None
      | _ :: _ =>
          console LLog (MsgFetchedImages (length (vi_images v)) (ch_title c)) ;;;
          ret (Some v)
      end
  | _ => console LWarn (MsgNoImagesAvailable (ch_title c)) ;;; ret None
  end.

(** ** submitVotes *)

(** The variables of the selection loop: [exposure_factor],
    [uniqueImageIds] and [votedImages] (the [image_ids[]] fields appended
    so far). *)
Record selection := Selection {
  exposure_factor : Z;
  uniqueImageIds : gset string;
  votedImages : body
}.

Definition voted_field (id : string) : field := ("image_ids[]", id).
Definition viewed_field (img : image) : field := ("viewed_image_ids[]", img_id img).

(** [images[i]] for a number [i]: [undefined] outside the array. *)
Definition js_index {A} (l : list A) (i : Z) : option A :=
  if i <? 0 then None else l !! Z.to_nat i.

(** [Math.floor(r * n)]. *)
Definition randomIndex (r : Q) (n : nat) : Z :=
  Qfloor (r * inject_Z (Z.of_nat n)).

(** One pass through the body of the [while] loop, entered with
    [exposure_factor < 100], for the random value [r]. *)
Inductive iteration :=
| Undefined                     (* [randomImage] is [undefined]: reading [.id] throws *)
| Duplicate                     (* [continue] *)
| Chosen (st : selection)       (* back to the loop test *)
| Exhausted (st : selection).   (* the warning, then [break] *)

(** The three updates that follow an accepted draw. *)
Definition accept (st : selection) (randomImage : image) : selection :=
  {| exposure_factor := exposure_factor st + img_ratio randomImage;
     uniqueImageIds := {[ img_id randomImage ]} ∪ uniqueImageIds st;
     votedImages := votedImages st ++ [voted_field (img_id randomImage)] |}.

Definition loop_body (images : list image) (st : selection) (r : Q) : iteration :=
  match js_index images (randomIndex r (length images)) with
  | None => Undefined
  | Some randomImage =>
      if decide (img_id randomImage ∈ uniqueImageIds st) then Duplicate
      else
        let st' := accept st randomImage in
        if (size (uniqueImageIds st') =? length images)%nat then Exhausted st'
        else Chosen st'
  end.

Definition undefined_id : string :=
  "Cannot read properties of undefined (reading 'id')".

(** [while (exposure_factor < 100) { ... }]. *)
Fixpoint selectLoop (title : string) (images : list image) (st : selection)
    (rs : list Q) : run selection :=
  if exposure_factor st <? 100 then
    match rs with
    | [] => Run Pending [] []
    | r :: rs' =>
        match loop_body images st r with
        | Undefined => Run (Throw undefined_id) rs' []
        | Duplicate => selectLoop title images st rs'
        | Chosen st' => selectLoop title images st' rs'
        | Exhausted st' =>
            Run (Ok st') rs' [Console LWarn (MsgNotEnoughImages title)]
        end
    end
  else Run (Ok st) rs [].

Definition initial (e : Z) : selection :=
  {| exposure_factor := e; uniqueImageIds := ∅; votedImages := [] |}.

(** The fields of the submission; [wire] below gives the string sent. *)
Definition submit_data (c : challenge) (voted viewed : body) : body :=
  [("c_id", ch_id c)] ++ voted ++ [("layout", "scroll")] ++ viewed.

(** [submitVotes] for an answer that has its [challenge] and its
    [voting.exposure], and identifiers that can be encoded. *)
Definition submitVotes (w : world) (voteImages : voteImages) : M (option json) :=
  let challenge := vi_challenge voteImages in
  let images := vi_images voteImages in
  match images with
  | [] => console LWarn (MsgNoImagesToVote (ch_title challenge)) ;;; ret None
  | _ :: _ =>
      let viewedImages := map viewed_field images in
      st <- selectLoop (ch_title challenge) images
              (initial (vi_exposure_factor voteImages)) ;;
      let data := submit_data challenge (votedImages st) viewedImages in
      response <- makePostRequest w SubmitVote data ;;
      match response with
      | None => console LError (MsgFailedSubmit (ch_title challenge)) ;;; ret None
      | Some r => console LLog (MsgVotesSubmitted (ch_title challenge)) ;;; ret (Some r)
      end
  end.

(** ** The body as it is sent

    A request body is the string its fields make: [key=value] joined by
    [&].  The values of the image-identifier fields go through
    [encodeURIComponent]; the challenge identifier, the url and the entry
    identifier are put in as they are. *)

(** The characters [encodeURIComponent] leaves as they are. *)
Definition unreserved (a : ascii) : bool :=
  let n := Ascii.N_of_ascii a in
  ((48 <=? n) && (n <=? 57))%N || ((65 <=? n) && (n <=? 90))%N
  || ((97 <=? n) && (n <=? 122))%N
  || existsb (Ascii.eqb a) (list_ascii_of_string "-_.!~*'()").

Definition hex_digit (n : N) : ascii :=
  nth (N.to_nat n) (list_ascii_of_string "0123456789ABCDEF") "0"%char.

Definition percent_encoded (a : ascii) : string :=
  let n := Ascii.N_of_ascii a in
  String "%" (String (hex_digit (n / 16)) (String (hex_digit (n mod 16)) EmptyString)).

(** [encodeURIComponent(s)] for a string it accepts, byte by byte of the
    UTF-8 encoding. *)
Fixpoint encodeURIComponent (s : string) : string :=
  match s with
  | EmptyString => EmptyString
  | String a s' =>
      (if unreserved a then String a EmptyString else percent_encoded a)
      +:+ encodeURIComponent s'
  end.

Definition encoded_key (k : string) : bool :=
  String.eqb k "image_ids[]" || String.eqb k "viewed_image_ids[]".

(** A field as the platform gets it. *)
Definition sent_field (f : field) : field :=
  (fst f, if encoded_key (fst f) then encodeURIComponent (snd f) else snd f).

Definition wire_field (f : field) : string :=
  fst (sent_field f) +:+ "=" +:+ snd (sent_field f).

(** The string passed to [makePostRequest] as [data]. *)
Fixpoint wire (b : body) : string :=
  match b with
  | [] => ""
  | [f] => wire_field f
  | f :: b' => wire_field f +:+ "&" +:+ wire b'
  end.

(** ** applyBoost *)

Fixpoint getFirstNonTurboKey (entries : list entry) : option string :=
  match entries with
  | [] => None
  | e :: entries' =>
      if entry_turbo e then getFirstNonTurboKey entries' else Some (entry_id e)
  end.

(** [applyBoost] for a challenge that has its [member.ranking.entries],
    none of them absent. *)
Definition applyBoost (w : world) (c : challenge) : M (option json) :=
  match getFirstNonTurboKey (rk_entries (mb_ranking (ch_member c))) with
  | Some boostImageId =>
      if String.eqb boostImageId "" then
        console LError MsgNoNonTurbo ;;; ret None
      else
        response <- makePostRequest w BoostPhoto
                      [("c_id", ch_id c); ("image_id", boostImageId)] ;;
        match response with
        | None => console LError (MsgFailedBoost (ch_id c)) ;;; ret None
        | Some r => console LLog (MsgBoostApplied boostImageId) ;;; ret (Some r)
        end
  | None => console LError MsgNoNonTurbo ;;; ret None
  end.

(** ** Pacing *)

Definition sleep (ms : Z) : M unit := emit (Sleep ms).

(** The arithmetic of [getRandomDelay] is that of binary64 numbers: every
    operation returns the number nearest to the exact result, the one with
    an even significand when two are as near.  [binary64 x] is that number
    for a rational [x] below the largest double in size: a multiple of
    [2 ^ e] with a significand below [2 ^ 53], where [e] is the exponent
    of [x] less 52 and at least -1074. *)

Definition pow2 (k : Z) : Q :=
  if k <? 0 then 1 # Z.to_pos (2 ^ (- k)) else inject_Z (2 ^ k).

(** [n / d] rounded to the nearest integer, to the even one on a tie. *)
Definition nearest_even (n d : Z) : Z :=
  let q := n / d in
  let r := n mod d in
  if 2 * r <? d then q
  else if d <? 2 * r then q + 1
  else if Z.even q then q else q + 1.

(** The exponent [k] of [n / d]: [2 ^ k <= n / d < 2 ^ (k + 1)]. *)
Definition ilog2 (n d : Z) : Z :=
  let k := Z.log2 n - Z.log2 d in
  if (if k <? 0 then n * 2 ^ (- k) <? d else n <? d * 2 ^ k) then k - 1 else k.

Definition binary64 (x : Q) : Q :=
  let n := Z.abs (Qnum x) in
  let d := Zpos (Qden x) in
  if n =? 0 then 0%Q
  else
    let e := Z.max (ilog2 n d - 52) (-1074) in
    let m := if e <? 0 then nearest_even (n * 2 ^ (- e)) d
             else nearest_even n (d * 2 ^ e) in
    (inject_Z (Z.sgn (Qnum x) * m) * pow2 e)%Q.

(** [Math.floor(Math.random() * (max - min + 1) + min)], for integers
    [min] and [max]. *)
Definition getRandomDelay (min max : Z) : M Z :=
  r <- Math_random ;;
  let span := binary64 (binary64 (inject_Z max - inject_Z min) + 1) in
  ret (Qfloor (binary64 (binary64 (r * span) + inject_Z min))).

(** ** fetchChallengesAndVote *)

Section Orchestrator.

(** The functions the loop calls. *)
Variable applyBoost_ : challenge -> M (option json).
Variable getVoteImages_ : challenge -> M (option voteImages).
Variable submitVotes_ : voteImages -> M (option json).

(** [boost.state === 'AVAILABLE' && boost.timeout]: a timeout that is
    absent or zero is falsy. *)
Definition boost_available (b : boost) : bool :=
  String.eqb (boost_state b) "AVAILABLE" &&
  match boost_timeout b with
  | Some t => negb (t =? 0)
  | None => false
  end.

Definition boostTimeout : Z := 10 * 60.

(** The boost part of the loop body, for a challenge that has its
    [member.boost].  Past the first test [boost.timeout] is a number. *)
Definition boostStep (now : Z) (c : challenge) : M unit :=
  let boost := mb_boost (ch_member c) in
  if boost_available boost then
    console LLog (MsgBoostAvailable (ch_title c)) ;;;
    let timeUntilDeadline := default 0 (boost_timeout boost) - now in
    if (timeUntilDeadline <=? boostTimeout) && (timeUntilDeadline >? 0) then
      console LLog (MsgExecutingBoost (timeUntilDeadline / 60)) ;;;
      try_catch (applyBoost_ c ;;; ret tt)
                (fun error => console LError (MsgBoostError error))
    else ret tt
  else ret tt.

(** The voting part of the loop body, for a challenge that has its
    [member.ranking.exposure]. *)
Definition voteStep (now : Z) (c : challenge) : M unit :=
  if (rk_exposure_factor (mb_ranking (ch_member c)) <? 100)
     && (ch_start_time c <? now) then
    try_catch
      (voteImages <- getVoteImages_ c ;;
       match voteImages with
       | Some v =>
           submitVotes_ v ;;;
           ms <- getRandomDelay 2000 5000 ;;
           sleep ms
       | None => ret tt
       end)
      (fun error =>
         console LError (MsgErrorVoting (ch_title c)) ;;;
         console LError (MsgThrown error))
  else ret tt.

(** The body of [for (const challenge of challenges)]. *)
Definition processChallenge (now : Z) (c : challenge) : M unit :=
  boostStep now c ;;; voteStep now c.

Fixpoint forOf (now : Z) (challenges : list challenge) : M unit :=
  match challenges with
  | [] => ret tt
  | c :: challenges' => processChallenge now c ;;; forOf now challenges'
  end.

End Orchestrator.

Definition not_iterable : string := "challenges is not iterable".

Definition fetchChallengesAndVote (w : world) : M unit :=
  response <- getActiveChallenges w ;;
  let now := date_now w / 1000 in
  match response with
  | None => throw not_iterable
  | Some challenges =>
      forOf (applyBoost w) (getVoteImages w) (submitVotes w) now challenges ;;;
      console LLog (MsgCompleted (locale_time w))
  end.

(** * The program on data as received

    The records above give the data of the platform the shape the program
    expects of it: every part is there.  The program itself checks none of
    it, and reading a property of a part that is absent throws a
    [TypeError].  The module [Received] is the program on data of which
    any property may be absent ([undefined], written [None]); a part that
    is there has the type the records above give it.  A part that is
    [null] behaves as an absent one wherever a property of it is read, up
    to the wording of the error; so does a challenge that is itself
    [null].  As the result of a function, [None] stands for [null] and for
    [undefined] alike.  The functions carry the names they have above; the
    lemmas named [received_...] show that on data of the expected shape
    the two agree. *)

(** [TypeError: Cannot read properties of undefined (reading '...')]. *)
Definition cannot_read (property : string) : string :=
  "Cannot read properties of undefined (reading '" +:+ property +:+ "')".

(** The error of [const {property} = source] for an absent [source]. *)
Definition cannot_destructure (property source : string) : string :=
  "Cannot destructure property '" +:+ property +:+ "' of '" +:+ source +:+
  "' as it is undefined.".

(** A value inside a template literal: an absent one prints as
    [undefined]. *)
Definition shown (s : option string) : string := default "undefined" s.

(** [x < n] for a number [x] that may be absent: [undefined < n] is
    false. *)
Definition below (x : option Z) (n : Z) : bool :=
  match x with
  | Some v => v <? n
  | None => false
  end.

(** [encodeURIComponent] throws [URIError: URI malformed] for a string
    that holds a surrogate without its pair.  A string is the sequence of
    the bytes of its UTF-8 encoding; a lone surrogate, encoded as any other
    code point, is the byte 237 followed by a byte from 160 to 191. *)
Fixpoint lone_surrogate (s : string) : bool :=
  match s with
  | String a (String b _ as s') =>
      (Ascii.eqb a "237"
       && (160 <=? Ascii.N_of_ascii b)%N && (Ascii.N_of_ascii b <=? 191)%N)
      || lone_surrogate s'
  | _ => false
  end.

Definition uri_malformed : string := "URI malformed".

(** [images.map(img => ... encodeURIComponent(img.id) ...)] reads the
    images in turn: the error of the first that is absent or has an
    identifier that cannot be encoded, or else the images. *)
Fixpoint viewable (l : list (option image)) : string + list image :=
  match l with
  | [] => inr []
  | None :: _ => inl (cannot_read "id")
  | Some img :: l' =>
      if lone_surrogate (img_id img) then inl uri_malformed
      else
        match viewable l' with
        | inr images => inr (img :: images)
        | inl e => inl e
        end
  end.

Module Received.

Record entry := Entry { entry_id : option string; entry_turbo : option bool }.

Record boost := Boost { boost_state : option string; boost_timeout : option Z }.

(** [ranking.exposure] and [voting.exposure]. *)
Record exposure := Exposure { ex_exposure_factor : option Z }.

Record ranking := Ranking {
  rk_exposure : option exposure;
  rk_entries : option (list (option entry))
}.

Record member := Member { mb_boost : option boost; mb_ranking : option ranking }.

Record challenge := Challenge {
  ch_id : option string;
  ch_title : option string;
  ch_url : option string;
  ch_start_time : option Z;
  ch_member : option member
}.

Record voting := Voting { vt_exposure : option exposure }.

(** The answer of [get_vote_images].  An image that is there has an
    identifier, a string, and a ratio, an integer. *)
Record voteImages := VoteImages {
  vi_challenge : option challenge;
  vi_voting : option voting;
  vi_images : option (list (option image))
}.

Inductive json :=
| JChallenges (cs : list challenge)
| JVoteImages (v : voteImages)
| JOther.

Inductive reply :=
| Responded (data : option json)
| Rejected (e : string).

Record world := World {
  TOKEN : option string;
  axios : endpoint -> body -> reply;
  date_now : Z;
  locale_time : string
}.

Definition token_set (w : world) : bool :=
  match TOKEN w with
  | Some t => negb (String.eqb t "")
  | None => false
  end.

Definition makePostRequest (w : world) (url : endpoint) (data : body) : M (option json) :=
  if token_set w then
    emit (Request url data) ;;;
    match axios w url data with
    | Responded d => ret d
    | Rejected e => console LError (MsgPostError url e) ;;; ret None
    end
  else
    console LError MsgTokenMustBeSet ;;; process_exit 1.

Definition getActiveChallenges (w : world) : M (option (list challenge)) :=
  console LLog MsgGettingChallenges ;;;
  response <- makePostRequest w GetMyActiveChallenges [] ;;
  match response with
  | None => console LError MsgFailedChallenges ;;; ret (Some [])
  | Some (JChallenges cs) => ret (Some cs)
  | Some _ => ret None
  end.

Definition getVoteImages (w : world) (c : challenge) : M (option voteImages) :=
  console LLog (MsgFetchingVoteImages (shown (ch_title c))) ;;;
  response <- makePostRequest w GetVoteImages
                [("limit", "100"); ("url", shown (ch_url c))] ;;
  match response with
  | Some (JVoteImages v) =>
      match vi_images v with
      | Some (img :: images) =>
          console LLog (MsgFetchedImages (length (img :: images)) (shown (ch_title c))) ;;;
          ret (Some v)
      | _ => console LWarn (MsgNoImagesAvailable (shown (ch_title c))) ;;; ret None
      end
  | _ => console LWarn (MsgNoImagesAvailable (shown (ch_title c))) ;;; ret None
  end.

(** [challenge.title] inside [submitVotes], where [challenge] is a
    property of the answer. *)
Definition title_of (challenge : option challenge) : M string :=
  match challenge with
  | Some c => ret (shown (ch_title c))
  | None => throw (cannot_read "title")
  end.

(** The [while] loop of [submitVotes].  Its warning reads
    [challenge.title]: without a [challenge] that throws in place of the
    warning. *)
Definition selectLoop (challenge : option challenge) (images : list image)
    (st : selection) : M selection :=
  match challenge with
  | Some c => selectLoop (shown (ch_title c)) images st
  | None => fun rs =>
      let r := selectLoop "" images st rs in
      match emitted r with
      | [] => r
      | _ :: _ => Run (Throw (cannot_read "title")) (rest r) []
      end
  end.

Definition submit_data (c : challenge) (voted viewed : body) : body :=
  [("c_id", shown (ch_id c))] ++ voted ++ [("layout", "scroll")] ++ viewed.

Definition submitVotes (w : world) (voteImages : voteImages) : M (option json) :=
  let challenge := vi_challenge voteImages in
  match vi_images voteImages with
  | Some (img :: images') =>
      match viewable (img :: images') with
      | inl error => throw error
      | inr images =>
          let viewedImages := map viewed_field images in
          match vi_voting voteImages with
          | None => throw (cannot_read "exposure")
          | Some voting =>
              match vt_exposure voting with
              | None => throw (cannot_destructure "exposure_factor" "voting.exposure")
              | Some exposure =>
                  st <- match ex_exposure_factor exposure with
                        | Some e => selectLoop challenge images (initial e)
                        | None => ret (initial 0)   (* the loop is not entered *)
                        end ;;
                  match challenge with
                  | None => throw (cannot_read "id")
                  | Some c =>
                      let data := submit_data c (votedImages st) viewedImages in
                      response <- makePostRequest w SubmitVote data ;;
                      match response with
                      | None =>
                          console LError (MsgFailedSubmit (shown (ch_title c))) ;;; ret None
                      | Some r =>
                          console LLog (MsgVotesSubmitted (shown (ch_title c))) ;;;
                          ret (Some r)
                      end
                  end
              end
          end
      end
  | _ =>
      title <- title_of challenge ;;
      console LWarn (MsgNoImagesToVote title) ;;; ret None
  end.

(** The result is the identifier of the first entry whose [turbo] is
    false or absent; reading [turbo] of an absent entry throws. *)
Fixpoint getFirstNonTurboKey (entries : list (option entry)) : M (option string) :=
  match entries with
  | [] => ret None
  | None :: _ => throw (cannot_read "turbo")
  | Some e :: entries' =>
      if default false (entry_turbo e) then getFirstNonTurboKey entries'
      else ret (entry_id e)
  end.

Definition applyBoost (w : world) (c : challenge) : M (option json) :=
  match ch_member c with
  | None => throw (cannot_read "ranking")
  | Some member =>
      match mb_ranking member with
      | None => throw (cannot_read "entries")
      | Some ranking =>
          match rk_entries ranking with
          | None => throw (cannot_read "length")
          | Some entries =>
              boostImageId <- getFirstNonTurboKey entries ;;
              if String.eqb (default "" boostImageId) "" then
                console LError MsgNoNonTurbo ;;; ret None
              else
                response <- makePostRequest w BoostPhoto
                              [("c_id", shown (ch_id c));
                               ("image_id", default "" boostImageId)] ;;
                match response with
                | None =>
                    console LError (MsgFailedBoost (shown (ch_id c))) ;;; ret None
                | Some r =>
                    console LLog (MsgBoostApplied (default "" boostImageId)) ;;;
                    ret (Some r)
                end
          end
      end
  end.

Section Orchestrator.

Variable applyBoost_ : challenge -> M (option json).
Variable getVoteImages_ : challenge -> M (option voteImages).
Variable submitVotes_ : voteImages -> M (option json).

(** [boost.state === 'AVAILABLE' && boost.timeout]. *)
Definition boost_available (b : boost) : bool :=
  match boost_state b with
  | Some s => String.eqb s "AVAILABLE"
  | None => false
  end &&
  match boost_timeout b with
  | Some t => negb (t =? 0)
  | None => false
  end.

(** The boost part of the loop body: [const {boost} = challenge.member]
    and [boost.state] are read before the [try]. *)
Definition boostStep (now : Z) (c : challenge) : M unit :=
  match ch_member c with
  | None => throw (cannot_destructure "boost" "challenge.member")
  | Some member =>
      match mb_boost member with
      | None => throw (cannot_read "state")
      | Some boost =>
          if boost_available boost then
            console LLog (MsgBoostAvailable (shown (ch_title c))) ;;;
            let timeUntilDeadline := default 0 (boost_timeout boost) - now in
            if (timeUntilDeadline <=? boostTimeout) && (timeUntilDeadline >? 0) then
              console LLog (MsgExecutingBoost (timeUntilDeadline / 60)) ;;;
              try_catch (applyBoost_ c ;;; ret tt)
                        (fun error => console LError (MsgBoostError error))
            else ret tt
          else ret tt
      end
  end.

(** The voting part of the loop body:
    [challenge.member.ranking.exposure.exposure_factor] is read before the
    [try]. *)
Definition voteStep (now : Z) (c : challenge) : M unit :=
  match ch_member c with
  | None => throw (cannot_read "ranking")
  | Some member =>
      match mb_ranking member with
      | None => throw (cannot_read "exposure")
      | Some ranking =>
          match rk_exposure ranking with
          | None => throw (cannot_read "exposure_factor")
          | Some exposure =>
              if below (ex_exposure_factor exposure) 100
                 && below (ch_start_time c) now then
                try_catch
                  (voteImages <- getVoteImages_ c ;;
                   match voteImages with
                   | Some v =>
                       submitVotes_ v ;;;
                       ms <- getRandomDelay 2000 5000 ;;
                       sleep ms
                   | None => ret tt
                   end)
                  (fun error =>
                     console LError (MsgErrorVoting (shown (ch_title c))) ;;;
                     console LError (MsgThrown error))
              else ret tt
          end
      end
  end.

Definition processChallenge (now : Z) (c : challenge) : M unit :=
  boostStep now c ;;; voteStep now c.

Fixpoint forOf (now : Z) (challenges : list challenge) : M unit :=
  match challenges with
  | [] => ret tt
  | c :: challenges' => processChallenge now c ;;; forOf now challenges'
  end.

End Orchestrator.

Definition fetchChallengesAndVote (w : world) : M unit :=
  response <- getActiveChallenges w ;;
  let now := date_now w / 1000 in
  match response with
  | None => throw not_iterable
  | Some challenges =>
      forOf (applyBoost w) (getVoteImages w) (submitVotes w) now challenges ;;;
      console LLog (MsgCompleted (locale_time w))
  end.

(** ** Vocabulary of the statements about received data *)

(** What [fetchChallengesAndVote] does for one challenge. *)
Definition processOne (w : world) (now : Z) (c : challenge) : M unit :=
  processChallenge (applyBoost w) (getVoteImages w) (submitVotes w) now c.

(** [challenge.member.boost] and [challenge.member.ranking.exposure]:
    the parts the loop reads outside its [try] blocks. *)
Definition boost_of (c : challenge) : option boost :=
  match ch_member c with
  | Some m => mb_boost m
  | None => None
  end.

Definition exposure_of (c : challenge) : option exposure :=
  match ch_member c with
  | Some m =>
      match mb_ranking m with
      | Some r => rk_exposure r
      | None => None
      end
  | None => None
  end.

(** The loop can read the challenge: both parts are there. *)
Definition readable (c : challenge) : Prop :=
  is_Some (boost_of c) /\ is_Some (exposure_of c).

(** [challenge.member.ranking.entries], which [applyBoost] reads. *)
Definition entries_of (c : challenge) : option (list (option entry)) :=
  match ch_member c with
  | Some m =>
      match mb_ranking m with
      | Some r => rk_entries r
      | None => None
      end
  | None => None
  end.

(** The search of [getFirstNonTurboKey] meets no absent entry. *)
Fixpoint searchable (entries : list (option entry)) : bool :=
  match entries with
  | [] => true
  | None :: _ => false
  | Some e :: entries' =>
      if default false (entry_turbo e) then searchable entries' else true
  end.

(** The identifier it returns then: that of the first entry whose
    [turbo] is false or absent. *)
Fixpoint first_key (entries : list (option entry)) : option string :=
  match entries with
  | [] => None
  | None :: _ => None
  | Some e :: entries' =>
      if default false (entry_turbo e) then first_key entries' else entry_id e
  end.

(** [applyBoost] can read the entries of the challenge and search them. *)
Definition boostable (c : challenge) : Prop :=
  exists entries, entries_of c = Some entries /\ searchable entries = true.

(** The entry [applyBoost] picks: the first that is not boosted, when it
    has an identifier other than the empty string. *)
Definition boost_target (c : challenge) : option string :=
  match entries_of c with
  | Some entries =>
      if searchable entries then
        match first_key entries with
        | Some k => if String.eqb k "" then None else Some k
        | None => None
        end
      else None
  | None => None
  end.

(** The body of the boost request for the entry [k] of the challenge [c]. *)
Definition boost_data (c : challenge) (k : string) : body :=
  [("c_id", shown (ch_id c)); ("image_id", k)].

(** The images of an answer when [images] is there and all of them can be
    read, and [voting.exposure]. *)
Definition pool_of (v : voteImages) : option (list image) :=
  match vi_images v with
  | Some l =>
      match viewable l with
      | inr images => Some images
      | inl _ => None
      end
  | None => None
  end.

Definition start_of (v : voteImages) : option exposure :=
  match vi_voting v with
  | Some vt => vt_exposure vt
  | None => None
  end.

(** The loop of [submitVotes] for the exposure read: it is not entered
    when [exposure_factor] is absent. *)
Definition selection_of (challenge : option challenge) (images : list image)
    (x : exposure) : M selection :=
  match ex_exposure_factor x with
  | Some e => selectLoop challenge images (initial e)
  | None => ret (initial 0)
  end.

(** The two tests that guard the call of [applyBoost], taken together. *)
Definition boost_tests (now : Z) (b : boost) : bool :=
  boost_available b &&
  ((default 0 (boost_timeout b) - now <=? boostTimeout)
   && (default 0 (boost_timeout b) - now >? 0)).

(** The test that guards the voting step, on an exposure that is there. *)
Definition vote_due (now : Z) (c : challenge) : Prop :=
  exists x, exposure_of c = Some x /\
    below (ex_exposure_factor x) 100 = true /\ below (ch_start_time c) now = true.


End Received.

(** ** Data of the expected shape, as received *)

Definition received_entry (e : entry) : Received.entry :=
  {| Received.entry_id := Some (entry_id e);
     Received.entry_turbo := Some (entry_turbo e) |}.

Definition received_boost (b : boost) : Received.boost :=
  {| Received.boost_state := Some (boost_state b);
     Received.boost_timeout := boost_timeout b |}.

Definition received_exposure (e : Z) : Received.exposure :=
  {| Received.ex_exposure_factor := Some e |}.

Definition received_ranking (r : ranking) : Received.ranking :=
  {| Received.rk_exposure := Some (received_exposure (rk_exposure_factor r));
     Received.rk_entries := Some (map (fun e => Some (received_entry e)) (rk_entries r)) |}.

Definition received_member (m : member) : Received.member :=
  {| Received.mb_boost := Some (received_boost (mb_boost m));
     Received.mb_ranking := Some (received_ranking (mb_ranking m)) |}.

Definition received_challenge (c : challenge) : Received.challenge :=
  {| Received.ch_id := Some (ch_id c);
     Received.ch_title := Some (ch_title c);
     Received.ch_url := Some (ch_url c);
     Received.ch_start_time := Some (ch_start_time c);
     Received.ch_member := Some (received_member (ch_member c)) |}.

Definition received_voteImages (v : voteImages) : Received.voteImages :=
  {| Received.vi_challenge := Some (received_challenge (vi_challenge v));
     Received.vi_voting :=
       Some {| Received.vt_exposure := Some (received_exposure (vi_exposure_factor v)) |};
     Received.vi_images := Some (map Some (vi_images v)) |}.

Definition received_json (j : json) : Received.json :=
  match j with
  | JChallenges cs => Received.JChallenges (map received_challenge cs)
  | JVoteImages v => Received.JVoteImages (received_voteImages v)
  | JOther => Received.JOther
  end.

Definition received_reply (r : reply) : Received.reply :=
  match r with
  | Responded d => Received.Responded (option_map received_json d)
  | Rejected e => Received.Rejected e
  end.

Definition received_world (w : world) : Received.world :=
  {| Received.TOKEN := TOKEN w;
     Received.axios := fun url data => received_reply (axios w url data);
     Received.date_now := date_now w;
     Received.locale_time := locale_time w |}.

(** The run [r] with its result seen through [f]. *)
Definition map_run {A B} (f : A -> B) (r : run A) : run B :=
  Run (match out r with
       | Ok a => Ok (f a)
       | Throw e => Throw e
       | Exit c => Exit c
       | Pending => Pending
       end) (rest r) (emitted r).

(** * Vocabulary of the statements *)

Definition sum_ratios (chosen : list image) : Z :=
  foldr (fun img acc => img_ratio img + acc) 0 chosen.

(** [chosen] lists, in the order they were accepted, the images behind the
    state [st] of a loop started with exposure [e]. *)
Record chosen_by (images : list image) (e : Z) (st : selection)
    (chosen : list image) : Prop := {
  cb_pool : Forall (fun img => img ∈ images) chosen;
  cb_voted : votedImages st = map (fun img => voted_field (img_id img)) chosen;
  cb_nodup : NoDup (map img_id chosen);
  cb_unique : uniqueImageIds st = list_to_set (map img_id chosen);
  cb_total : exposure_factor st = e + sum_ratios chosen
}.

(** Every position of a pool of [n] images is drawn by some value of [rs]. *)
Definition draws_cover (n : nat) (rs : list Q) : Prop :=
  forall i, (i < n)%nat -> exists r, r ∈ rs /\ randomIndex r n = Z.of_nat i.

(** The states the loop passes through: [reaches images st st'] when some
    sequence of iterations leads from [st] to [st']. *)
Inductive reaches (images : list image) : selection -> selection -> Prop :=
| reaches_here st : reaches images st st
| reaches_chosen st r st1 st2 :
    exposure_factor st < 100 ->
    loop_body images st r = Chosen st1 ->
    reaches images st1 st2 ->
    reaches images st st2
| reaches_exhausted st r st1 :
    exposure_factor st < 100 ->
    loop_body images st r = Exhausted st1 ->
    reaches images st st1.

(** The state in which an iteration leaves the loop variables; none when
    the iteration throws. *)
Definition after_iteration (st : selection) (it : iteration) : option selection :=
  match it with
  | Undefined => None
  | Duplicate => Some st
  | Chosen st' => Some st'
  | Exhausted st' => Some st'
  end.

(** The identifiers a request body votes for, and those it reports as
    viewed. *)
Definition voted_ids (data : body) : list string := field_values "image_ids[]" data.
Definition viewed_ids (data : body) : list string := field_values "viewed_image_ids[]" data.

(** The test that guards the voting step of [fetchChallengesAndVote]. *)
Definition vote_due (now : Z) (c : challenge) : Prop :=
  rk_exposure_factor (mb_ranking (ch_member c)) < 100 /\ ch_start_time c < now.

(** The run [r2] taken up where the run [r1] ended: the events of both,
    the outcome and the remaining random values of the second. *)
Definition then_run {A B} (r1 : run A) (r2 : run B) : run B :=
  Run (out r2) (rest r2) (emitted r1 ++ emitted r2).

(** What [fetchChallengesAndVote] does for one challenge. *)
Definition processOne (w : world) (now : Z) (c : challenge) : M unit :=
  processChallenge (applyBoost w) (getVoteImages w) (submitVotes w) now c.

(** The orchestrator prints this line immediately before it calls
    [applyBoost], and nowhere else: it marks the attempt. *)
Definition boost_attempted (evs : list event) : Prop :=
  exists minutes, Console LLog (MsgExecutingBoost minutes) ∈ evs.

Definition is_announcement (ev : event) : bool :=
  match ev with
  | Console LLog (MsgExecutingBoost _) => true
  | _ => false
  end.

(** The events of the voting step: the requests for the pool and for the
    submission. *)
Definition is_vote_request (ev : event) : bool :=
  match ev with
  | Request GetVoteImages _ | Request SubmitVote _ => true
  | _ => false
  end.

(** The body of the request for the pool of a challenge. *)
Definition fetch_data (c : challenge) : body := [("limit", "100"); ("url", ch_url c)].

(** The pool [v] is what the platform answers for the challenge [c], and
    it has images. *)
Definition usable_pool (w : world) (c : challenge) (v : voteImages) : Prop :=
  axios w GetVoteImages (fetch_data c) = Responded (Some (JVoteImages v)) /\
  vi_images v <> [].

(** Computations that leave the supply of random values untouched. *)
Definition drawless {A} (m : M A) : Prop := forall rs, rest (m rs) = rs.

(** The condition of the boost policy: the state is AVAILABLE, a deadline
    is present, and it lies ahead by at most ten minutes. *)
Definition boost_due (now : Z) (b : boost) : Prop :=
  boost_state b = "AVAILABLE" /\
  exists t, boost_timeout b = Some t /\ 0 < t - now <= 600.

(** The two tests that guard the call of [applyBoost], taken together. *)
Definition boost_tests (now : Z) (b : boost) : bool :=
  boost_available b &&
  ((default 0 (boost_timeout b) - now <=? boostTimeout)
   && (default 0 (boost_timeout b) - now >? 0)).



(** * Sample data *)

(** The pool of the specification's example and a pool that lists one
    identifier twice. *)
Definition example_pool : list image :=
  [Image "a" 40; Image "b" 30; Image "c" 50].

Definition twin_pool : list image := [Image "a" 10; Image "a" 10].

(** A world whose credential is set and whose network acknowledges every
    request. *)
Definition friendly_world : world :=
  {| TOKEN := Some "secret";
     axios := fun _ _ => Responded (Some JOther);
     date_now := 1700000000000;
     locale_time := "12:00:00" |}.

Definition quiet_member (exposure : Z) : member :=
  {| mb_boost := {| boost_state := "UNAVAILABLE"; boost_timeout := None |};
     mb_ranking := {| rk_exposure_factor := exposure; rk_entries := [] |} |}.

Definition example_challenge : challenge :=
  {| ch_id := "7"; ch_title := "Street"; ch_url := "street";
     ch_start_time := 1600000000; ch_member := quiet_member 60 |}.

Definition example_vote (exposure : Z) (images : list image) : voteImages :=
  {| vi_challenge := example_challenge;
     vi_exposure_factor := exposure;
     vi_images := images |}.

(** A world that answers [get_vote_images] with the example pool at
    exposure 60. *)
Definition voting_world : world :=
  {| TOKEN := Some "secret";
     axios := fun url _ =>
       match url with
       | GetVoteImages => Responded (Some (JVoteImages (example_vote 60 example_pool)))
       | _ => Responded (Some JOther)
       end;
     date_now := 1700000000000;
     locale_time := "12:00:00" |}.

Definition titled (title : string) : challenge :=
  {| ch_id := "7"; ch_title := title; ch_url := "street";
     ch_start_time := 1600000000; ch_member := quiet_member 60 |}.

(** A challenge whose boost is AVAILABLE with a deadline five minutes
    ahead of 1700000000, and which has two entries, the first boosted
    already. *)
Definition boostable_challenge : challenge :=
  {| ch_id := "9"; ch_title := "Harbour"; ch_url := "harbour";
     ch_start_time := 1600000000;
     ch_member :=
       {| mb_boost := {| boost_state := "AVAILABLE"; boost_timeout := Some 1700000300 |};
          mb_ranking := {| rk_exposure_factor := 100;
                           rk_entries := [Entry "p1" true; Entry "p2" false] |} |} |}.

(** A challenge below the target that starts at 1700000000. *)
Definition starting_challenge : challenge :=
  {| ch_id := "8"; ch_title := "Dawn"; ch_url := "dawn";
     ch_start_time := 1700000000; ch_member := quiet_member 60 |}.

(** The value [1 - 2 ^ -52] of [Math.random]. *)
Definition last_draw : Q := 4503599627370495 # 4503599627370496.

(** A challenge received without its [member], and one whose [member]
    has a [boost] and no [ranking]. *)
Definition headless : Received.challenge :=
  {| Received.ch_id := Some "5"; Received.ch_title := Some "Headless";
     Received.ch_url := Some "headless"; Received.ch_start_time := Some 1600000000;
     Received.ch_member := None |}.

Definition unranked : Received.challenge :=
  {| Received.ch_id := Some "6"; Received.ch_title := Some "Unranked";
     Received.ch_url := Some "unranked"; Received.ch_start_time := Some 1600000000;
     Received.ch_member :=
       Some {| Received.mb_boost :=
                 Some {| Received.boost_state := Some "AVAILABLE";
                         Received.boost_timeout := Some 1700000300 |};
               Received.mb_ranking := None |} |}.


(** A world whose platform answers the first request of a cycle with the
    challenge that has no [member]. *)
Definition headless_world : Received.world :=
  {| Received.TOKEN := Some "secret";
     Received.axios := fun url _ =>
       match url with
       | GetMyActiveChallenges =>
           Received.Responded (Some (Received.JChallenges [headless]))
       | _ => Received.Responded (Some Received.JOther)
       end;
     Received.date_now := 1700000000000;
     Received.locale_time := "12:00:00" |}.

(** An answer of [get_vote_images] that has images and no [voting]. *)
Definition unrated : Received.voteImages :=
  {| Received.vi_challenge := Some (received_challenge example_challenge);
     Received.vi_voting := None;
     Received.vi_images := Some (map Some example_pool) |}.

(** An answer of [get_vote_images] at the target whose challenge has an
    identifier with an ampersand in it. *)
Definition forged_vote : voteImages :=
  {| vi_challenge :=
       {| ch_id := "7&layout=grid"; ch_title := "Street"; ch_url := "street";
          ch_start_time := 1600000000; ch_member := quiet_member 100 |};
     vi_exposure_factor := 100;
     vi_images := [Image "a" 40] |}.


(** * Further vocabulary *)

Definition is_request (ev : event) : bool :=
  match ev with
  | Request _ _ => true
  | _ => false
  end.

Definition endpoint_eqb (u v : endpoint) : bool :=
  match u, v with
  | GetMyActiveChallenges, GetMyActiveChallenges
  | GetVoteImages, GetVoteImages
  | SubmitVote, SubmitVote
  | BoostPhoto, BoostPhoto => true
  | _, _ => false
  end.

(** The number of requests sent to the endpoint [u] among the events. *)
Definition requests_to (u : endpoint) (evs : list event) : nat :=
  length (List.filter
            (fun ev => match ev with
                       | Request v _ => endpoint_eqb u v
                       | _ => false
                       end) evs).

(** The body of the boost request for the entry [k] of the challenge [c]. *)
Definition boost_data (c : challenge) (k : string) : body :=
  [("c_id", ch_id c); ("image_id", k)].

(** The entry [applyBoost] picks: the first that is not boosted, when its
    identifier is not the empty string. *)
Definition boost_target (c : challenge) : option string :=
  match getFirstNonTurboKey (rk_entries (mb_ranking (ch_member c))) with
  | Some k => if String.eqb k "" then None else Some k
  | None => None
  end.

(** The run of a cycle whose challenge request was answered with the
    challenges [cs]: the loop over them, then the line of completion when
    the loop ended normally. *)
Definition cycle_over (w : world) (cs : list challenge) (rs : list Q) : run unit :=
  let l := forOf (applyBoost w) (getVoteImages w) (submitVotes w) (date_now w / 1000) cs rs in
  let opening :=
    [Console LLog MsgGettingChallenges; Request GetMyActiveChallenges []] in
  match out l with
  | Ok _ => Run (Ok tt) (rest l)
              (opening ++ emitted l ++ [Console LLog (MsgCompleted (locale_time w))])
  | _ => Run (out l) (rest l) (opening ++ emitted l)
  end.

(** The line printed for a challenge whose boost is available. *)
Definition is_boost_available_line (ev : event) : bool :=
  match ev with
  | Console LLog (MsgBoostAvailable _) => true
  | _ => false
  end.

(** A challenge for which a cycle has nothing to do: the boost tests fail,
    and the exposure is at the target or the challenge has not started. *)
Definition at_rest (now : Z) (c : challenge) : Prop :=
  boost_tests now (mb_boost (ch_member c)) = false /\ ~ vote_due now c.

(** A computation sends at most [n] requests to the endpoint [u]. *)
Definition sends {A} (u : endpoint) (n : nat) (m : M A) : Prop :=
  forall rs, (requests_to u (emitted (m rs)) <= n)%nat.

(** The most requests one challenge causes at an endpoint. *)
Definition per_challenge (u : endpoint) : nat :=
  match u with
  | GetMyActiveChallenges => 0
  | _ => 1
  end.

(** One when the endpoints are the same, zero otherwise. *)
Definition cap (u url : endpoint) : nat := if endpoint_eqb u url then 1 else 0.

(** The challenges the platform answers the first request of a cycle with;
    none when the request fails. *)
Definition answered_challenges (w : world) : list challenge :=
  match axios w GetMyActiveChallenges [] with
  | Responded (Some (JChallenges cs)) => cs
  | _ => []
  end.

(** The number [getRandomDelay min max] computes from the value [r] of
    [Math.random]. *)
Definition delay_of (min max : Z) (r : Q) : Z :=
  Qfloor (binary64 (binary64 (r * binary64 (binary64 (inject_Z max - inject_Z min) + 1))
                    + inject_Z min)).

(** The identifiers of the pools the platform serves can be encoded. *)
Definition encodable_pools (w : world) : Prop :=
  forall data v,
    axios w GetVoteImages data = Responded (Some (JVoteImages v)) ->
    Forall (fun img => lone_surrogate (img_id img) = false) (vi_images v).

(** ** The body as the platform reads it *)

Fixpoint occurs (a : ascii) (s : string) : bool :=
  match s with
  | EmptyString => false
  | String b s' => Ascii.eqb b a || occurs a s'
  end.

(** [s.split(sep)]. *)
Fixpoint split_on (sep : ascii) (s : string) : list string :=
  match s with
  | EmptyString => [EmptyString]
  | String a s' =>
      if Ascii.eqb a sep then EmptyString :: split_on sep s'
      else
        match split_on sep s' with
        | piece :: pieces => String a piece :: pieces
        | [] => [String a EmptyString]
        end
  end.

(** The name and the value of one piece: what stands before and after its
    first [=]. *)
Fixpoint form_field (piece : string) : field :=
  match piece with
  | EmptyString => (EmptyString, EmptyString)
  | String a s' =>
      if Ascii.eqb a "=" then (EmptyString, s')
      else let (k, v) := form_field s' in (String a k, v)
  end.

(** The fields a decoder of [application/x-www-form-urlencoded] finds in
    a body, before it decodes the percent escapes: the pieces between the
    [&], the empty ones left out, each cut at its first [=]. *)
Definition form_fields (s : string) : body :=
  map form_field (List.filter (fun piece => negb (String.eqb piece "")) (split_on "&" s)).

(** A field whose name holds neither [&] nor [=] and whose value, as it
    is sent, holds no [&]. *)
Definition clean_field (f : field) : Prop :=
  occurs "&" (fst f) = false /\ occurs "=" (fst f) = false /\
  occurs "&" (snd (sent_field f)) = false.


(** * login: the content saved to the .env file

    The part of [login] that computes [envContent] from the file found (if
    any) and the token obtained.  A text is the list of its characters,
    each standing for one code unit below 256; of the line terminators of
    JavaScript only the line feed and the carriage return are such
    characters. *)

Definition text := list ascii.

Definition LF : ascii := "010"%char.
Definition CR : ascii := "013"%char.

(** ['TOKEN='] *)
Definition TOKEN_key : text := list_ascii_of_string "TOKEN=".

(** [s.startsWith(p)] *)
Fixpoint starts_with (p s : text) : bool :=
  match p, s with
  | [], _ => true
  | _ :: _, [] => false
  | a :: p', b :: s' => Ascii.eqb a b && starts_with p' s'
  end.

(** [s.includes(p)] *)
Fixpoint includes (p s : text) : bool :=
  starts_with p s ||
  match s with
  | [] => false
  | _ :: s' => includes p s'
  end.

(** What [.] matches: any character but a line terminator. *)
Definition dot (c : ascii) : bool := negb (Ascii.eqb c LF || Ascii.eqb c CR).

(** [.*] at the head of [s]: the longest run of [.], and what follows. *)
Fixpoint dot_star (s : text) : text * text :=
  match s with
  | [] => ([], [])
  | c :: s' =>
      if dot c then let (run, after) := dot_star s' in (c :: run, after)
      else ([], s)
  end.

(** [(\r?\n|$)] at the head of [s]: the text of the group when it matches.
    A shorter [.*] never helps, since every character of the run is
    neither a line break nor the end of the input. *)
Definition line_end (s : text) : option text :=
  match s with
  | [] => Some []
  | c :: s' =>
      if Ascii.eqb c LF then Some [LF]
      else if Ascii.eqb c CR then
        match s' with
        | d :: _ => if Ascii.eqb d LF then Some [CR; LF] else None
        | [] => None
        end
      else None
  end.

(** [/TOKEN=.*(\r?\n|$)/] at the head of [s]: the text matched and the
    text of its group. *)
Definition match_here (s : text) : option (text * text) :=
  if starts_with TOKEN_key s then
    let (run, after) := dot_star (drop (length TOKEN_key) s) in
    match line_end after with
    | Some group => Some (TOKEN_key ++ run ++ group, group)
    | None => None
    end
  else None.

(** The replacement text for one match (GetSubstitution of ECMAScript, for
    a pattern with one group and no named group): [$$] is a dollar, [$&]
    the match, [$`] the text before it, [$'] the text after it, [$1] and
    [$01] the group; any other [$] stays as it is. *)
Fixpoint substitution (matched before after group template : text) : text :=
  match template with
  | [] => []
  | c :: t =>
      if Ascii.eqb c "$" then
        match t with
        | [] => [c]
        | d :: t' =>
            if Ascii.eqb d "$" then d :: substitution matched before after group t'
            else if Ascii.eqb d "&" then
              matched ++ substitution matched before after group t'
            else if Ascii.eqb d "`" then
              before ++ substitution matched before after group t'
            else if Ascii.eqb d "'" then
              after ++ substitution matched before after group t'
            else if Ascii.eqb d "1" then
              group ++ substitution matched before after group t'
            else if Ascii.eqb d "0" then
              match t' with
              | e :: t'' =>
                  if Ascii.eqb e "1" then
                    group ++ substitution matched before after group t''
                  else c :: substitution matched before after group t
              | [] => c :: substitution matched before after group t
              end
            else c :: substitution matched before after group t
        end
      else c :: substitution matched before after group t
  end.

(** [str.replace(/TOKEN=.*(\r?\n|$)/g, template)], reading [s] from the
    left: [before_rev] holds, reversed, what was read already, and [skip]
    counts the characters of the last match still to pass. *)
Fixpoint replace_from (template : text) (before_rev : text) (skip : nat)
    (s : text) : text :=
  match s with
  | [] => []
  | c :: s' =>
      match skip with
      | S k => replace_from template (c :: before_rev) k s'
      | O =>
          match match_here s with
          | Some (matched, group) =>
              substitution matched (rev before_rev) (drop (length matched) s)
                group template
              ++ replace_from template (c :: before_rev) (length matched - 1) s'
          | None => c :: replace_from template (c :: before_rev) 0 s'
          end
      end
  end.

Definition replace_token_lines (template s : text) : text :=
  replace_from template [] 0 s.

(** The content [login] writes to the .env file: [existing] is the content
    read when the file exists. *)
Definition envContent (existing : option text) (token : text) : text :=
  match existing with
  | Some content =>
      if includes TOKEN_key content then
        replace_token_lines (TOKEN_key ++ token ++ list_ascii_of_string "$1") content
      else content ++ [LF] ++ TOKEN_key ++ token
  | None => TOKEN_key ++ token ++ [LF]
  end.

(** A token without a dollar sign, and a value that stays on its line. *)
Definition no_dollar (t : text) : Prop := Forall (fun c => c <> "$"%char) t.
Definition one_line (v : text) : Prop := Forall (fun c => dot c = true) v.

(** [eol] ends a line that [after] follows: a line feed, a carriage return
    with a line feed, or the end of the text. *)
Definition line_break (eol after : text) : Prop :=
  eol = [LF] \/ eol = [CR; LF] \/ (eol = [] /\ after = []).

(** [x] begins with a character of the key other than its first: only
    such a text can complete a match of the key begun before it. *)
Definition closes_key (x : text) : Prop :=
  exists h t, x = h :: t /\ In h (list_ascii_of_string "OKEN=").

(** No match of ['TOKEN='] starts inside [pre] when [x] follows it. *)
Fixpoint clean (pre x : text) : Prop :=
  match pre with
  | [] => True
  | c :: pre' => starts_with TOKEN_key (c :: pre' ++ x) = false /\ clean pre' x
  end.

(** The content [login] finds: no file, or the text of the file. *)
Definition fresh (existing : option text) : Prop :=
  match existing with
  | None => True
  | Some old => includes TOKEN_key old = false
  end.

(** * Runs of composed computations *)

Lemma bind_Ok {A B} (m : M A) (f : A -> M B) rs a :
  out (m rs) = Ok a ->
  bind m f rs =
    Run (out (f a (rest (m rs)))) (rest (f a (rest (m rs))))
        (emitted (m rs) ++ emitted (f a (rest (m rs)))).
Proof. unfold bind. by intros ->. Qed.

Lemma bind_emitted {A B} (m : M A) (f : A -> M B) rs ev :
  ev ∈ emitted (bind m f rs) ->
  ev ∈ emitted (m rs) \/
  exists a, out (m rs) = Ok a /\ ev ∈ emitted (f a (rest (m rs))).
Proof.
  unfold bind. destruct (out (m rs)) as [a|e|c|] eqn:Ho; cbn; auto.
  intros H. apply elem_of_app in H as [H|H]; eauto.
Qed.

Lemma try_catch_emitted {A} (m : M A) (h : string -> M A) rs ev :
  ev ∈ emitted (try_catch m h rs) ->
  ev ∈ emitted (m rs) \/
  exists e, out (m rs) = Throw e /\ ev ∈ emitted (h e (rest (m rs))).
Proof.
  unfold try_catch. destruct (out (m rs)) as [a|e|c|] eqn:Ho; cbn; auto.
  intros H. apply elem_of_app in H as [H|H]; eauto.
Qed.

(** A handler that does not throw leaves nothing thrown. *)
Lemma try_catch_no_throw {A} (m : M A) (h : string -> M A) rs :
  (forall e rs' e', out (h e rs') <> Throw e') ->
  forall e', out (try_catch m h rs) <> Throw e'.
Proof.
  intros Hh e'. unfold try_catch.
  destruct (out (m rs)) as [a|e|c|] eqn:Ho; cbn; try congruence. apply Hh.
Qed.

Lemma console_emitted l m rs ev :
  ev ∈ emitted (console l m rs) -> ev = Console l m.
Proof.
  cbn. intros H. apply elem_of_cons in H as [H|H]; [done|]. by apply elem_of_nil in H.
Qed.

Lemma ret_emitted {A} (a : A) rs ev : ev ∈ emitted (ret a rs) -> False.
Proof. cbn. apply elem_of_nil. Qed.

Lemma console_bind {B} l m (k : M B) rs :
  (console l m ;;; k) rs =
    Run (out (k rs)) (rest (k rs)) (Console l m :: emitted (k rs)).
Proof. reflexivity. Qed.

Lemma ret_bind {A B} (a : A) (f : A -> M B) rs : (x <- ret a ;; f x) rs = f a rs.
Proof. unfold bind, ret. cbn. by destruct (f a rs). Qed.

Lemma bind_Throw {A B} (m : M A) (f : A -> M B) rs e :
  out (m rs) = Throw e ->
  bind m f rs = Run (Throw e) (rest (m rs)) (emitted (m rs)).
Proof. unfold bind. by intros ->. Qed.

Lemma try_catch_Throw {A} (m : M A) (h : string -> M A) rs e :
  out (m rs) = Throw e ->
  try_catch m h rs =
    Run (out (h e (rest (m rs)))) (rest (h e (rest (m rs))))
        (emitted (m rs) ++ emitted (h e (rest (m rs)))).
Proof. unfold try_catch. by intros ->. Qed.

Lemma try_catch_Ok {A} (m : M A) (h : string -> M A) rs a :
  out (m rs) = Ok a -> try_catch m h rs = m rs.
Proof. unfold try_catch. by intros ->. Qed.

Lemma bind_emitted_l {A B} (m : M A) (f : A -> M B) rs ev :
  ev ∈ emitted (m rs) -> ev ∈ emitted (bind m f rs).
Proof.
  unfold bind. destruct (out (m rs)); cbn; try done.
  intros H. apply elem_of_app. by left.
Qed.

Lemma bind_emitted_r {A B} (m : M A) (f : A -> M B) rs a ev :
  out (m rs) = Ok a -> ev ∈ emitted (f a (rest (m rs))) -> ev ∈ emitted (bind m f rs).
Proof.
  intros Ho H. rewrite (bind_Ok _ _ _ _ Ho). cbn. apply elem_of_app. by right.
Qed.

Lemma bind_emitted_prefix {A B} (m : M A) (f : A -> M B) rs :
  exists tail, emitted (bind m f rs) = emitted (m rs) ++ tail.
Proof.
  unfold bind. destruct (out (m rs)); cbn; eauto; exists []; by rewrite app_nil_r.
Qed.

Lemma try_catch_emitted_prefix {A} (m : M A) (h : string -> M A) rs :
  exists tail, emitted (try_catch m h rs) = emitted (m rs) ++ tail.
Proof.
  unfold try_catch. destruct (out (m rs)); cbn; eauto; exists []; by rewrite app_nil_r.
Qed.

(** Membership in the events of a composed computation, taken apart. *)
Ltac emitted_cases H :=
  repeat match type of H with
  | _ ∈ emitted (bind _ _ _) => apply bind_emitted in H as [H|(? & _ & H)]
  | _ ∈ emitted (try_catch _ _ _) => apply try_catch_emitted in H as [H|(? & _ & H)]
  | _ ∈ emitted (console _ _ _) => apply console_emitted in H
  | _ ∈ emitted (ret _ _) => apply ret_emitted in H; contradiction
  | _ ∈ emitted (match ?x with _ => _ end _) => destruct x
  end.

Lemma drawless_bind {A B} (m : M A) (f : A -> M B) :
  drawless m -> (forall a, drawless (f a)) -> drawless (bind m f).
Proof.
  intros Hm Hf rs. unfold bind. specialize (Hm rs).
  destruct (out (m rs)); cbn; try done. by rewrite Hf.
Qed.

Lemma drawless_try_catch {A} (m : M A) (h : string -> M A) :
  drawless m -> (forall e, drawless (h e)) -> drawless (try_catch m h).
Proof.
  intros Hm Hh rs. unfold try_catch. specialize (Hm rs).
  destruct (out (m rs)); cbn; try done. by rewrite Hh.
Qed.

Lemma drawless_ret {A} (a : A) : drawless (ret a).
Proof. done. Qed.

Lemma drawless_console l m : drawless (console l m).
Proof. done. Qed.

Lemma drawless_emit ev : drawless (emit ev).
Proof. done. Qed.

Lemma drawless_exit {A} c : drawless (process_exit (A := A) c).
Proof. done. Qed.

Ltac solve_drawless :=
  repeat first
    [ apply drawless_ret | apply drawless_console | apply drawless_emit
    | apply drawless_exit
    | apply drawless_bind; [|intros ?]
    | apply drawless_try_catch; [|intros ?]
    | match goal with |- drawless (match ?x with _ => _ end) => destruct x end
    | match goal with |- drawless (if ?x then _ else _) => destruct x end ].

Lemma bind_out_Ok {A B} (m : M A) (f : A -> M B) rs b :
  out (bind m f rs) = Ok b ->
  exists a, out (m rs) = Ok a /\ out (f a (rest (m rs))) = Ok b.
Proof. unfold bind. destruct (out (m rs)) eqn:Ho; cbn; try done. eauto. Qed.

(** * The selection loop *)

Lemma sum_ratios_app l1 l2 : sum_ratios (l1 ++ l2) = sum_ratios l1 + sum_ratios l2.
Proof. induction l1 as [|x l1 IH]; simpl; lia. Qed.

Lemma chosen_by_initial images e : chosen_by images e (initial e) [].
Proof. split; simpl; try done. - constructor. - lia. Qed.

Lemma js_index_elem_of {A} (l : list A) i x : js_index l i = Some x -> x ∈ l.
Proof.
  unfold js_index. destruct (i <? 0); [done|].
  intros H. eapply list_elem_of_lookup_2, H.
Qed.

Lemma js_index_Some {A} (l : list A) i :
  0 <= i < Z.of_nat (length l) -> exists x, js_index l i = Some x /\ l !! Z.to_nat i = Some x.
Proof.
  intros [H0 H1]. unfold js_index.
  destruct (Z.ltb_spec i 0); [lia|].
  destruct (lookup_lt_is_Some_2 l (Z.to_nat i)) as [x Hx]; [lia|]. eauto.
Qed.

(** The body of the loop, once the image drawn is known. *)
Lemma loop_body_drawn images st r img :
  js_index images (randomIndex r (length images)) = Some img ->
  loop_body images st r =
    if decide (img_id img ∈ uniqueImageIds st) then Duplicate
    else if (size (uniqueImageIds (accept st img)) =? length images)%nat
         then Exhausted (accept st img) else Chosen (accept st img).
Proof. unfold loop_body. by intros ->. Qed.

(** An accepted draw adds an image of the pool that was not chosen before. *)
Lemma loop_body_accept images st r st' :
  loop_body images st r = Chosen st' \/ loop_body images st r = Exhausted st' ->
  exists img, img ∈ images /\ (img_id img ∉ uniqueImageIds st) /\ st' = accept st img.
Proof.
  unfold loop_body.
  destruct (js_index images _) as [img|] eqn:Hi; [|intros [|]; discriminate].
  apply js_index_elem_of in Hi.
  destruct (decide _) as [|Hn]; [intros [|]; discriminate|].
  destruct (_ =? _)%nat; intros [H|H]; try discriminate;
    injection H as <-; exists img; auto.
Qed.

Lemma chosen_by_accept images e st chosen img :
  chosen_by images e st chosen ->
  img ∈ images -> img_id img ∉ uniqueImageIds st ->
  chosen_by images e (accept st img) (chosen ++ [img]).
Proof.
  intros [Hp Hv Hn Hu Ht] Hin Hfresh. split; simpl.
  - apply Forall_app; split; [done|]. by constructor.
  - by rewrite Hv, map_app.
  - rewrite map_app. apply NoDup_app. split; [done|]. split.
    + intros x Hx Hx'. apply list_elem_of_singleton in Hx' as ->.
      apply Hfresh. rewrite Hu. by apply elem_of_list_to_set.
    + apply NoDup_singleton.
  - rewrite Hu, map_app, list_to_set_app_L. simpl.
    by rewrite (right_id_L ∅ (∪)), (comm_L (∪)).
  - rewrite Ht, sum_ratios_app. simpl. lia.
Qed.

Lemma chosen_by_step images e st chosen r st' :
  chosen_by images e st chosen ->
  loop_body images st r = Chosen st' \/ loop_body images st r = Exhausted st' ->
  exists img, chosen_by images e st' (chosen ++ [img]).
Proof.
  intros Hc H. apply loop_body_accept in H as (img & ? & ? & ->).
  exists img. by eapply chosen_by_accept.
Qed.

Lemma chosen_by_size images e st chosen :
  chosen_by images e st chosen ->
  size (uniqueImageIds st) = length chosen /\
  length (votedImages st) = length chosen.
Proof.
  intros [Hp Hv Hn Hu Ht]. split.
  - rewrite Hu, size_list_to_set by done. by rewrite length_map.
  - by rewrite Hv, length_map.
Qed.

Lemma chosen_by_bound images e st chosen :
  chosen_by images e st chosen -> (length chosen <= length images)%nat.
Proof.
  intros [Hp Hv Hn Hu Ht].
  rewrite <- (length_map img_id chosen), <- (length_map img_id images).
  apply NoDup_incl_length.
  - by apply NoDup_ListNoDup.
  - intros x Hx. apply list_elem_of_In in Hx. apply list_elem_of_In.
    apply list_elem_of_fmap in Hx as (img & -> & Himg).
    apply list_elem_of_fmap. exists img. split; [done|].
    rewrite Forall_forall in Hp. auto.
Qed.

Lemma loop_body_exhausted images st r st' :
  loop_body images st r = Exhausted st' ->
  size (uniqueImageIds st') = length images.
Proof.
  unfold loop_body. destruct (js_index images _) as [img|]; [|done].
  destruct (decide _); [done|].
  match goal with |- context [(?a =? ?b)%nat] => destruct (Nat.eqb_spec a b) end;
    [|done].
  by intros [= <-].
Qed.

(** The loop leaves only once the target is reached or the pool is used up. *)
Lemma selectLoop_exit title images e rs : forall st chosen st',
  chosen_by images e st chosen ->
  out (selectLoop title images st rs) = Ok st' ->
  exists chosen', chosen_by images e st' chosen' /\
    (100 <= exposure_factor st' \/ size (uniqueImageIds st') = length images).
Proof.
  induction rs as [|r rs IH]; intros st chosen st' Hc; simpl.
  - destruct (Z.ltb_spec (exposure_factor st) 100); simpl; [done|].
    intros [= <-]. eauto.
  - destruct (Z.ltb_spec (exposure_factor st) 100); simpl.
    + destruct (loop_body images st r) as [| |st1|st1] eqn:Hb; simpl; try done.
      * by eapply IH.
      * destruct (chosen_by_step _ _ _ _ _ _ Hc (or_introl Hb)) as [img Hc1].
        by eapply IH.
      * intros [= <-].
        destruct (chosen_by_step _ _ _ _ _ _ Hc (or_intror Hb)) as [img Hc1].
        exists (chosen ++ [img]). split; [done|]. right.
        by eapply loop_body_exhausted.
    + intros [= <-]. eauto.
Qed.

(** ** Draws and termination *)

Lemma randomIndex_range r n :
  unit_draw r -> (0 < n)%nat -> 0 <= randomIndex r n < Z.of_nat n.
Proof.
  destruct r as [a b]. unfold unit_draw, randomIndex, Qle, Qlt, Qfloor. simpl.
  intros [H0 H1] Hn. rewrite Z.mul_1_r in *. rewrite Z.mul_1_l in H1.
  rewrite Pos.mul_1_r. split.
  - apply Z.div_pos; nia.
  - apply Z.div_lt_upper_bound; nia.
Qed.

Lemma selectLoop_reaches title images rs : forall st st',
  out (selectLoop title images st rs) = Ok st' -> reaches images st st'.
Proof.
  induction rs as [|r rs IH]; intros st st'; simpl;
    destruct (Z.ltb_spec (exposure_factor st) 100); simpl; try done.
  - intros [= <-]. constructor.
  - destruct (loop_body images st r) as [| |st1|st1] eqn:Hb; simpl; try done.
    + apply IH.
    + intros H1. eapply reaches_chosen; eauto.
    + intros [= <-]. eapply reaches_exhausted; eauto.
  - intros [= <-]. constructor.
Qed.

Lemma reaches_chosen_by images e st st' :
  reaches images st st' ->
  forall chosen, chosen_by images e st chosen ->
  exists more, chosen_by images e st' (chosen ++ more).
Proof.
  induction 1 as [st|st r st1 st2 Hlt Hb _ IH|st r st1 Hlt Hb]; intros chosen Hc.
  - exists []. by rewrite app_nil_r.
  - destruct (chosen_by_step _ _ _ _ _ _ Hc (or_introl Hb)) as [img Hc1].
    destruct (IH _ Hc1) as [more Hm]. exists (img :: more).
    by rewrite <- app_assoc in Hm.
  - destruct (chosen_by_step _ _ _ _ _ _ Hc (or_intror Hb)) as [img Hc1].
    by exists [img].
Qed.

Lemma covered_all images e st chosen :
  NoDup (map img_id images) ->
  chosen_by images e st chosen ->
  (forall i img, images !! i = Some img -> img_id img ∈ uniqueImageIds st) ->
  length chosen = length images.
Proof.
  intros Hnd Hc Hall. apply Nat.le_antisymm; [by eapply chosen_by_bound|].
  destruct Hc as [Hp Hv Hn Hu Ht].
  rewrite <- (length_map img_id chosen), <- (length_map img_id images).
  apply NoDup_incl_length; [by apply NoDup_ListNoDup|].
  intros x Hx. apply list_elem_of_In in Hx. apply list_elem_of_In.
  apply list_elem_of_fmap in Hx as (img & -> & Himg).
  apply list_elem_of_lookup in Himg as [i Hi].
  specialize (Hall _ _ Hi). rewrite Hu in Hall. by apply elem_of_list_to_set in Hall.
Qed.

(** With pairwise distinct identifiers the loop has left by the time every
    position of the pool has been drawn. *)
Lemma selectLoop_terminates title images e rs :
  NoDup (map img_id images) ->
  Forall unit_draw rs ->
  forall st chosen,
  chosen_by images e st chosen ->
  (length chosen < length images)%nat ->
  (forall i img, images !! i = Some img ->
     img_id img ∈ uniqueImageIds st \/
     exists r, r ∈ rs /\ randomIndex r (length images) = Z.of_nat i) ->
  exists st', out (selectLoop title images st rs) = Ok st'.
Proof.
  intros Hnd. induction 1 as [|r rs Hr Hrs IH]; intros st chosen Hc Hlive Hcov; simpl.
  - destruct (Z.ltb_spec (exposure_factor st) 100); simpl; [|eauto].
    exfalso. assert (length chosen = length images); [|lia].
    eapply covered_all; eauto. intros i img Hi.
    destruct (Hcov _ _ Hi) as [|(r & Hr & _)]; [done|]. by apply elem_of_nil in Hr.
  - destruct (Z.ltb_spec (exposure_factor st) 100); simpl; [|eauto].
    assert (Hrange : 0 <= randomIndex r (length images) < Z.of_nat (length images))
      by (apply randomIndex_range; [done|lia]).
    destruct (js_index_Some images _ Hrange) as (img & Hjs & Hlk).
    rewrite (loop_body_drawn _ _ _ _ Hjs).
    destruct (decide (img_id img ∈ uniqueImageIds st)) as [Hdup|Hfresh].
    + eapply IH; eauto. intros i img' Hi.
      destruct (Hcov _ _ Hi) as [|(r' & Hr' & Hidx)]; [by left|].
      apply elem_of_cons in Hr' as [->|Hr']; [|right; eauto].
      left. rewrite Hidx, Nat2Z.id in Hlk. by assert (img' = img) as -> by congruence.
    + pose proof (chosen_by_accept _ _ _ _ _ Hc (js_index_elem_of _ _ _ Hjs) Hfresh)
        as Hc1.
      destruct (Nat.eqb_spec (size (uniqueImageIds (accept st img))) (length images))
        as [|Hne]; simpl; [eauto|].
      eapply IH; [exact Hc1| |].
      * pose proof (chosen_by_bound _ _ _ _ Hc1).
        destruct (chosen_by_size _ _ _ _ Hc1) as [Hsz _]. lia.
      * intros i img' Hi.
        destruct (Hcov _ _ Hi) as [Hin|(r' & Hr' & Hidx)].
        { left. simpl. apply elem_of_union. by right. }
        apply elem_of_cons in Hr' as [->|Hr']; [|right; eauto].
        left. rewrite Hidx, Nat2Z.id in Hlk. assert (img' = img) as -> by congruence.
        simpl. apply elem_of_union. left. by apply elem_of_singleton.
Qed.

(** ** Unfolding the loop *)

Lemma selectLoop_cons title images st r rs :
  exposure_factor st < 100 ->
  selectLoop title images st (r :: rs) =
    match loop_body images st r with
    | Undefined => Run (Throw undefined_id) rs []
    | Duplicate => selectLoop title images st rs
    | Chosen st' => selectLoop title images st' rs
    | Exhausted st' => Run (Ok st') rs [Console LWarn (MsgNotEnoughImages title)]
    end.
Proof. intros H. simpl. by destruct (Z.ltb_spec (exposure_factor st) 100); [|lia]. Qed.

Lemma selectLoop_nil title images st :
  exposure_factor st < 100 -> selectLoop title images st [] = Run Pending [] [].
Proof. intros H. simpl. by destruct (Z.ltb_spec (exposure_factor st) 100); [|lia]. Qed.

Lemma selectLoop_done title images st rs :
  100 <= exposure_factor st -> selectLoop title images st rs = Run (Ok st) rs [].
Proof.
  intros H. destruct rs; simpl;
    by destruct (Z.ltb_spec (exposure_factor st) 100); [lia|].
Qed.

Lemma selectLoop_total title images e rs :
  images <> [] ->
  NoDup (map img_id images) ->
  Forall unit_draw rs ->
  draws_cover (length images) rs ->
  exists st, out (selectLoop title images (initial e) rs) = Ok st.
Proof.
  intros Hne Hnd Hrs Hcov.
  eapply selectLoop_terminates; eauto using chosen_by_initial.
  - destruct images; [done|]. simpl. lia.
  - intros i img Hi. right. apply Hcov. by eapply lookup_lt_Some.
Qed.

(** ** The example pool *)

Lemma example_pool_first r :
  loop_body example_pool (initial 60) r = Undefined \/
  exists img, img ∈ example_pool /\
    loop_body example_pool (initial 60) r = Chosen (accept (initial 60) img).
Proof.
  destruct (js_index example_pool (randomIndex r (length example_pool))) as [img|] eqn:Hjs.
  - right. exists img. pose proof (js_index_elem_of _ _ _ Hjs) as Hin.
    split; [done|]. rewrite (loop_body_drawn _ _ _ _ Hjs).
    unfold example_pool in Hin.
    repeat (apply elem_of_cons in Hin as [->|Hin]; [vm_compute; reflexivity|]).
    by apply elem_of_nil in Hin.
  - left. unfold loop_body. by rewrite Hjs.
Qed.

Lemma example_pool_second r :
  let st := accept (initial 60) (Image "b" 30) in
  loop_body example_pool st r = Undefined \/
  loop_body example_pool st r = Duplicate \/
  loop_body example_pool st r = Chosen (accept st (Image "a" 40)) \/
  loop_body example_pool st r = Chosen (accept st (Image "c" 50)).
Proof.
  intros st.
  destruct (js_index example_pool (randomIndex r (length example_pool))) as [img|] eqn:Hjs.
  - right. pose proof (js_index_elem_of _ _ _ Hjs) as Hin.
    rewrite (loop_body_drawn _ _ _ _ Hjs). unfold example_pool in Hin.
    apply elem_of_cons in Hin as [->|Hin]; [right; left; vm_compute; reflexivity|].
    apply elem_of_cons in Hin as [->|Hin]; [left; vm_compute; reflexivity|].
    apply elem_of_cons in Hin as [->|Hin]; [right; right; vm_compute; reflexivity|].
    by apply elem_of_nil in Hin.
  - left. unfold loop_body. by rewrite Hjs.
Qed.

Lemma example_pool_runs title rs : forall st,
  (out (selectLoop title example_pool (initial 60) rs) = Ok st \/
   out (selectLoop title example_pool (accept (initial 60) (Image "b" 30)) rs) = Ok st) ->
  100 <= exposure_factor st /\
  (length (votedImages st) = 1%nat \/ length (votedImages st) = 2%nat).
Proof.
  induction rs as [|r rs IH]; intros st.
  - rewrite !selectLoop_nil by (simpl; lia). by intros [|].
  - rewrite !selectLoop_cons by (simpl; lia). intros [H|H].
    + destruct (example_pool_first r) as [E|(img & Hin & E)];
        rewrite E in H; [done|].
      unfold example_pool in Hin.
      apply elem_of_cons in Hin as [->|Hin].
      { rewrite selectLoop_done in H by (simpl; lia).
        injection H as <-. simpl. split; [lia|by left]. }
      apply elem_of_cons in Hin as [->|Hin]; [by apply IH; right|].
      apply elem_of_cons in Hin as [->|Hin]; [|by apply elem_of_nil in Hin].
      rewrite selectLoop_done in H by (simpl; lia).
      injection H as <-. simpl. split; [lia|by left].
    + destruct (example_pool_second r) as [E|[E|[E|E]]]; rewrite E in H; try done.
      * apply IH. by right.
      * rewrite selectLoop_done in H by (simpl; lia).
        injection H as <-. simpl. split; [lia|by right].
      * rewrite selectLoop_done in H by (simpl; lia).
        injection H as <-. simpl. split; [lia|by right].
Qed.

(** C1. Target or exhaustion: a selection the loop returns brings the
    exposure to 100 or more, or holds as many identifiers as the pool has
    images.  For the pool a:40, b:30, c:50 entered at 60, a run returns as
    soon as every position has been drawn, and every run that returns has
    a total of at least 100 with one or two identifiers chosen. *)
Theorem C1_target_or_exhaustion :
  (forall title images e rs st,
     images <> [] -> 0 <= e < 100 ->
     out (selectLoop title images (initial e) rs) = Ok st ->
     exists chosen, chosen_by images e st chosen /\
       (100 <= e + sum_ratios chosen \/ length chosen = length images)) /\
  (forall title rs,
     Forall unit_draw rs -> draws_cover 3 rs ->
     exists st, out (selectLoop title example_pool (initial 60) rs) = Ok st) /\
  (forall title rs st,
     out (selectLoop title example_pool (initial 60) rs) = Ok st ->
     100 <= exposure_factor st /\
     (length (votedImages st) = 1%nat \/ length (votedImages st) = 2%nat)).
Proof.
  split; [|split].
  - intros title images e rs st _ _ H.
    destruct (selectLoop_exit _ _ _ _ _ _ _ (chosen_by_initial images e) H)
      as (chosen & Hc & Hex).
    exists chosen. split; [done|].
    destruct (chosen_by_size _ _ _ _ Hc) as [Hsz _].
    destruct Hex as [Hex|Hex]; [left|right].
    + by rewrite <- (cb_total _ _ _ _ Hc).
    + by rewrite <- Hsz.
  - intros title rs Hrs Hcov. apply selectLoop_total; try done.
    apply (bool_decide_unpack _). by vm_compute.
  - intros title rs st H. eapply example_pool_runs. left. exact H.
Qed.

(** Witness of C1: the example pool entered at 60 with the draws 1/3 and 0. *)
Lemma C1_witness :
  exists chosen,
    chosen_by example_pool 60
      {| exposure_factor := 130; uniqueImageIds := {[ "a" ]} ∪ ({[ "b" ]} ∪ ∅);
         votedImages := [voted_field "b"; voted_field "a"] |} chosen /\
    (100 <= 60 + sum_ratios chosen \/ length chosen = length example_pool).
Proof.
  apply (proj1 C1_target_or_exhaustion "t" example_pool 60 [1#3; 0]%Q).
  - discriminate.
  - lia.
  - reflexivity.
Defined.

(** ** Termination *)

Lemma twin_pool_first r :
  loop_body twin_pool (initial 0) r = Undefined \/
  loop_body twin_pool (initial 0) r = Chosen (accept (initial 0) (Image "a" 10)).
Proof.
  destruct (js_index twin_pool (randomIndex r (length twin_pool))) as [img|] eqn:Hjs.
  - right. pose proof (js_index_elem_of _ _ _ Hjs) as Hin.
    rewrite (loop_body_drawn _ _ _ _ Hjs). unfold twin_pool in Hin.
    repeat (apply elem_of_cons in Hin as [->|Hin]; [vm_compute; reflexivity|]).
    by apply elem_of_nil in Hin.
  - left. unfold loop_body. by rewrite Hjs.
Qed.

Lemma twin_pool_second r :
  let st := accept (initial 0) (Image "a" 10) in
  loop_body twin_pool st r = Undefined \/ loop_body twin_pool st r = Duplicate.
Proof.
  intros st.
  destruct (js_index twin_pool (randomIndex r (length twin_pool))) as [img|] eqn:Hjs.
  - right. pose proof (js_index_elem_of _ _ _ Hjs) as Hin.
    rewrite (loop_body_drawn _ _ _ _ Hjs). unfold twin_pool in Hin.
    repeat (apply elem_of_cons in Hin as [->|Hin]; [vm_compute; reflexivity|]).
    by apply elem_of_nil in Hin.
  - left. unfold loop_body. by rewrite Hjs.
Qed.

Lemma twin_pool_loops title rs :
  let stuck r := out r = Pending \/ out r = Throw undefined_id in
  stuck (selectLoop title twin_pool (initial 0) rs) /\
  stuck (selectLoop title twin_pool (accept (initial 0) (Image "a" 10)) rs).
Proof.
  intros stuck. induction rs as [|r rs IH].
  - rewrite !selectLoop_nil by (simpl; lia). by split; left.
  - rewrite !selectLoop_cons by (simpl; lia). split.
    + destruct (twin_pool_first r) as [E|E]; rewrite E; [by right|]. apply IH.
    + destruct (twin_pool_second r) as [E|E]; rewrite E; [by right|]. apply IH.
Qed.

(** C2. The loop on a pool that holds one identifier twice, entered below
    the target with too little exposure in the pool: two images [a] of
    ratio 10 at exposure 0.  Whatever values [Math.random] returns, and
    however many, the loop does not return: it is still running when they
    are used up, or it has thrown on an index outside the pool. *)
Theorem C2_duplicate_identifiers_hang title rs :
  out (selectLoop title twin_pool (initial 0) rs) = Pending \/
  out (selectLoop title twin_pool (initial 0) rs) = Throw undefined_id.
Proof. apply (twin_pool_loops title rs). Qed.

(** Distinct identifiers do not suffice on their own: a run that draws the
    same image again and again does not return. *)
Lemma example_pool_starved title n :
  out (selectLoop title example_pool (accept (initial 60) (Image "b" 30))
         (repeat (1#3)%Q n)) = Pending.
Proof.
  induction n as [|n IH]; [done|].
  change (repeat (1#3)%Q (S n)) with ((1#3)%Q :: repeat (1#3)%Q n).
  rewrite selectLoop_cons by (simpl; lia).
  replace (loop_body example_pool (accept (initial 60) (Image "b" 30)) (1#3)%Q)
    with Duplicate by (vm_compute; reflexivity).
  exact IH.
Qed.

Lemma reaches_length images e st :
  reaches images (initial e) st ->
  (length (votedImages st) <= length images)%nat.
Proof.
  intros H.
  destruct (reaches_chosen_by _ e _ _ H [] (chosen_by_initial images e)) as [more Hc].
  destruct (chosen_by_size _ _ _ _ Hc) as [_ ->]. by eapply chosen_by_bound.
Qed.

(** X19. At no point of any run, for any pool, have more identifiers been
    accepted than the pool has images.  And for a non-empty pool of
    pairwise distinct identifiers and a starting exposure in [0,100), the
    loop has returned by the time every position of the pool has been
    drawn. *)
Theorem X19_distinct_identifiers_return title images e :
  (forall st, reaches images (initial e) st ->
     (length (votedImages st) <= length images)%nat) /\
  (images <> [] ->
   NoDup (map img_id images) ->
   0 <= e < 100 ->
   forall rs, Forall unit_draw rs -> draws_cover (length images) rs ->
     exists st, out (selectLoop title images (initial e) rs) = Ok st /\
       (length (votedImages st) <= length images)%nat).
Proof.
  split; [apply reaches_length|].
  intros Hne Hnd He rs Hrs Hcov.
  destruct (selectLoop_total title images e rs) as [st Hst]; try done.
  exists st. split; [done|].
  eapply reaches_length, selectLoop_reaches, Hst.
Qed.

Lemma example_pool_nodup : NoDup (map img_id example_pool).
Proof. apply (bool_decide_unpack _). by vm_compute. Defined.

Lemma thirds_unit : Forall unit_draw [0; 1#3; 2#3]%Q.
Proof. repeat constructor; try (vm_compute; congruence). Defined.

Lemma thirds_cover : draws_cover 3 [0; 1#3; 2#3]%Q.
Proof.
  intros i Hi. destruct i as [|[|[|i]]]; [| | |lia].
  - exists 0%Q. split; [repeat constructor|reflexivity].
  - exists (1#3)%Q. split; [repeat constructor|reflexivity].
  - exists (2#3)%Q. split; [repeat constructor|reflexivity].
Defined.

(** Witness of X19: the example pool with the draws 0, 1/3, 2/3. *)
Lemma X19_witness :
  exists st,
    out (selectLoop "t" example_pool (initial 60) [0; 1#3; 2#3]%Q) = Ok st /\
    (length (votedImages st) <= length example_pool)%nat.
Proof.
  refine (proj2 (X19_distinct_identifiers_return "t" example_pool 60)
            _ example_pool_nodup _ [0; 1#3; 2#3]%Q thirds_unit thirds_cover).
  - discriminate.
  - lia.
Defined.

(** ** Monotonicity *)

(** C9, counterexample: an image whose ratio is negative.  The loop is
    entered at 50 and the first iteration leaves the exposure at 45. *)
Lemma C9_counterexample :
  exists st',
    exposure_factor (initial 50) < 100 /\
    after_iteration (initial 50)
      (loop_body [Image "a" (-5); Image "b" 10] (initial 50) 0%Q) = Some st' /\
    exposure_factor st' < exposure_factor (initial 50).
Proof.
  eexists. split; [simpl; lia|]. split; [vm_compute; reflexivity|]. simpl. lia.
Qed.

Lemma loop_body_monotone images st r st' :
  Forall (fun img => 0 <= img_ratio img) images ->
  after_iteration st (loop_body images st r) = Some st' ->
  exposure_factor st <= exposure_factor st'.
Proof.
  intros Hpos H.
  destruct (loop_body images st r) as [| |st1|st1] eqn:Hb; simpl in H; try done.
  - injection H as <-. lia.
  - injection H as <-.
    apply (or_introl (B := loop_body images st r = Exhausted st1)) in Hb.
    apply loop_body_accept in Hb as (img & Hin & _ & ->).
    rewrite Forall_forall in Hpos. specialize (Hpos _ Hin). simpl. lia.
  - injection H as <-.
    apply (or_intror (A := loop_body images st r = Chosen st1)) in Hb.
    apply loop_body_accept in Hb as (img & Hin & _ & ->).
    rewrite Forall_forall in Hpos. specialize (Hpos _ Hin). simpl. lia.
Qed.

(** C9, amended. When no contribution ratio of the pool is negative, every
    iteration of the selection loop leaves the accumulated exposure at
    least as large as it found it, and so does every sequence of
    iterations. *)
Theorem C9_exposure_monotone images :
  Forall (fun img => 0 <= img_ratio img) images ->
  (forall st r st',
     after_iteration st (loop_body images st r) = Some st' ->
     exposure_factor st <= exposure_factor st') /\
  (forall st st', reaches images st st' ->
     exposure_factor st <= exposure_factor st').
Proof.
  intros Hpos. split.
  - intros st r st'. by apply loop_body_monotone.
  - induction 1 as [st|st r st1 st2 _ Hb _ IH|st r st1 _ Hb].
    + lia.
    + etrans; [|exact IH]. apply (loop_body_monotone images st r); [done|].
      by rewrite Hb.
    + apply (loop_body_monotone images st r); [done|]. by rewrite Hb.
Qed.

(** Witness of C9: the example pool. *)
Lemma C9_witness :
  (forall st r st',
     after_iteration st (loop_body example_pool st r) = Some st' ->
     exposure_factor st <= exposure_factor st') /\
  (forall st st', reaches example_pool st st' ->
     exposure_factor st <= exposure_factor st').
Proof.
  apply (C9_exposure_monotone example_pool).
  repeat constructor; simpl; lia.
Defined.

(** * submitVotes *)

Lemma field_values_app k b1 b2 :
  field_values k (b1 ++ b2) = field_values k b1 ++ field_values k b2.
Proof. unfold field_values. by rewrite List.filter_app, map_app. Qed.

Lemma voted_ids_voted ids : voted_ids (map voted_field ids) = ids.
Proof.
  induction ids as [|i ids IH]; [done|].
  change (i :: voted_ids (map voted_field ids) = i :: ids). by rewrite IH.
Qed.

Lemma voted_ids_viewed images : voted_ids (map viewed_field images) = [].
Proof. by induction images. Qed.

Lemma viewed_ids_voted ids : viewed_ids (map voted_field ids) = [].
Proof. by induction ids. Qed.

Lemma viewed_ids_viewed images : viewed_ids (map viewed_field images) = map img_id images.
Proof.
  induction images as [|i images IH]; [done|].
  change (img_id i :: viewed_ids (map viewed_field images) = map img_id (i :: images)).
  by rewrite IH.
Qed.

Lemma voted_ids_submit c ids images :
  voted_ids (submit_data c (map voted_field ids) (map viewed_field images)) = ids.
Proof.
  unfold submit_data, voted_ids. rewrite !field_values_app.
  fold (voted_ids (map voted_field ids)) (voted_ids (map viewed_field images)).
  rewrite voted_ids_voted, voted_ids_viewed. simpl. by rewrite app_nil_r.
Qed.

Lemma viewed_ids_submit c ids images :
  viewed_ids (submit_data c (map voted_field ids) (map viewed_field images)) =
  map img_id images.
Proof.
  unfold submit_data, viewed_ids. rewrite !field_values_app.
  fold (viewed_ids (map voted_field ids)) (viewed_ids (map viewed_field images)).
  by rewrite viewed_ids_voted, viewed_ids_viewed.
Qed.

Lemma chosen_by_fields images e st chosen :
  chosen_by images e st chosen ->
  votedImages st = map voted_field (map img_id chosen).
Proof. intros Hc. by rewrite (cb_voted _ _ _ _ Hc), map_map. Qed.

(** The only line the loop prints is its warning, and only on [break]. *)
Lemma selectLoop_emitted title images rs : forall st,
  emitted (selectLoop title images st rs) = [] \/
  emitted (selectLoop title images st rs) = [Console LWarn (MsgNotEnoughImages title)].
Proof.
  induction rs as [|r rs IH]; intros st; simpl;
    destruct (exposure_factor st <? 100); simpl; auto.
  destruct (loop_body images st r); simpl; auto.
Qed.

(** A request made by [makePostRequest] is the one it was asked for. *)
Lemma makePostRequest_request w url data rs url' data' :
  Request url' data' ∈ emitted (makePostRequest w url data rs) ->
  url' = url /\ data' = data.
Proof.
  unfold makePostRequest. destruct (token_set w).
  - intros H. apply bind_emitted in H as [H|(? & _ & H)].
    + cbn in H. apply elem_of_cons in H as [H|H]; [by inversion H|].
      by apply elem_of_nil in H.
    + destruct (axios w url data); [by apply ret_emitted in H|].
      apply bind_emitted in H as [H|(? & _ & H)];
        [by apply console_emitted in H|by apply ret_emitted in H].
  - intros H. apply bind_emitted in H as [H|(? & _ & H)];
      [by apply console_emitted in H|by apply elem_of_nil in H].
Qed.

(** The request [submitVotes] makes carries the selection of its loop. *)
Lemma submitVotes_request w vi rs url data :
  Request url data ∈ emitted (submitVotes w vi rs) ->
  exists st,
    out (selectLoop (ch_title (vi_challenge vi)) (vi_images vi)
           (initial (vi_exposure_factor vi)) rs) = Ok st /\
    url = SubmitVote /\
    data = submit_data (vi_challenge vi) (votedImages st)
             (map viewed_field (vi_images vi)).
Proof.
  unfold submitVotes. destruct (vi_images vi) as [|img images] eqn:Himgs.
  - intros H. apply bind_emitted in H as [H|(? & _ & H)];
      [by apply console_emitted in H|by apply ret_emitted in H].
  - intros H. apply bind_emitted in H as [H|(st & Hst & H)].
    + destruct (selectLoop_emitted (ch_title (vi_challenge vi)) (img :: images) rs
                  (initial (vi_exposure_factor vi))) as [Hem|Hem];
        rewrite Hem in H.
      * by apply elem_of_nil in H.
      * apply elem_of_cons in H as [H|H]; [done|]. by apply elem_of_nil in H.
    + exists st. split; [done|].
      apply bind_emitted in H as [H|(resp & _ & H)].
      * by apply makePostRequest_request in H as [-> ->].
      * destruct resp; apply bind_emitted in H as [H|(? & _ & H)];
          try (by apply console_emitted in H); by apply ret_emitted in H.
Qed.

Lemma selectLoop_no_duplicates title images e rs st :
  out (selectLoop title images (initial e) rs) = Ok st ->
  NoDup (map snd (votedImages st)) /\
  uniqueImageIds st = list_to_set (map snd (votedImages st)).
Proof.
  intros H.
  destruct (selectLoop_exit _ _ _ _ _ _ _ (chosen_by_initial images e) H)
    as (chosen & Hc & _).
  rewrite (cb_voted _ _ _ _ Hc), map_map. simpl.
  split; [apply (cb_nodup _ _ _ _ Hc)|apply (cb_unique _ _ _ _ Hc)].
Qed.

(** With the credential set, a loop that returns is followed by the
    request. *)
Lemma submitVotes_submits w vi rs st :
  vi_images vi <> [] ->
  token_set w = true ->
  out (selectLoop (ch_title (vi_challenge vi)) (vi_images vi)
         (initial (vi_exposure_factor vi)) rs) = Ok st ->
  Request SubmitVote
    (submit_data (vi_challenge vi) (votedImages st) (map viewed_field (vi_images vi)))
    ∈ emitted (submitVotes w vi rs).
Proof.
  intros Hne Htok Hst. unfold submitVotes.
  destruct (vi_images vi) as [|img images] eqn:Himgs; [done|].
  rewrite (bind_Ok _ _ _ _ Hst). cbn [emitted].
  apply elem_of_app. right.
  unfold makePostRequest. rewrite Htok.
  destruct (axios w SubmitVote _) as [[r|]|e]; cbn; apply list_elem_of_here.
Qed.

(** C3. No duplicates: the identifiers the selection loop returns are
    pairwise distinct, and they are exactly the members of its set; hence
    no request of [submitVotes] votes twice for one identifier. *)
Theorem C3_no_duplicates :
  (forall title images e rs st,
     out (selectLoop title images (initial e) rs) = Ok st ->
     NoDup (map snd (votedImages st)) /\
     uniqueImageIds st = list_to_set (map snd (votedImages st))) /\
  (forall w vi rs data,
     Request SubmitVote data ∈ emitted (submitVotes w vi rs) ->
     NoDup (voted_ids data)).
Proof.
  split; [apply selectLoop_no_duplicates|].
  intros w vi rs data H.
  apply submitVotes_request in H as (st & Hst & _ & ->).
  destruct (selectLoop_exit _ _ _ _ _ _ _ (chosen_by_initial _ _) Hst)
    as (chosen & Hc & _).
  rewrite (chosen_by_fields _ _ _ _ Hc), voted_ids_submit.
  apply (cb_nodup _ _ _ _ Hc).
Qed.

(** Witness of C3: the example pool entered at 60, drawing b then a. *)
Lemma C3_witness :
  NoDup (voted_ids [("c_id", "7"); ("image_ids[]", "b"); ("image_ids[]", "a");
                    ("layout", "scroll"); ("viewed_image_ids[]", "a");
                    ("viewed_image_ids[]", "b"); ("viewed_image_ids[]", "c")]).
Proof.
  apply (proj2 C3_no_duplicates friendly_world (example_vote 60 example_pool)
           [1#3; 0]%Q).
  vm_compute. apply list_elem_of_here.
Defined.

(** C4. Viewed completeness: for a non-empty pool, whatever the draws, a
    request of [submitVotes] is the vote submission and reports as viewed
    the identifiers of the whole pool, in order; and with the credential
    set such a request follows every selection the loop returns. *)
Theorem C4_viewed_completeness w vi rs :
  vi_images vi <> [] ->
  (forall url data,
     Request url data ∈ emitted (submitVotes w vi rs) ->
     url = SubmitVote /\ viewed_ids data = map img_id (vi_images vi)) /\
  (forall st,
     token_set w = true ->
     out (selectLoop (ch_title (vi_challenge vi)) (vi_images vi)
            (initial (vi_exposure_factor vi)) rs) = Ok st ->
     exists data, Request SubmitVote data ∈ emitted (submitVotes w vi rs) /\
       voted_ids data = map snd (votedImages st) /\
       viewed_ids data = map img_id (vi_images vi)).
Proof.
  intros Hne. split.
  - intros url data H.
    apply submitVotes_request in H as (st & Hst & -> & ->). split; [done|].
    destruct (selectLoop_exit _ _ _ _ _ _ _ (chosen_by_initial _ _) Hst)
      as (chosen & Hc & _).
    by rewrite (chosen_by_fields _ _ _ _ Hc), viewed_ids_submit.
  - intros st Htok Hst. eexists. split; [by apply submitVotes_submits|].
    destruct (selectLoop_exit _ _ _ _ _ _ _ (chosen_by_initial _ _) Hst)
      as (chosen & Hc & _).
    rewrite (chosen_by_fields _ _ _ _ Hc), voted_ids_submit, viewed_ids_submit.
    split; [|done]. rewrite map_map. simpl. by rewrite map_id.
Qed.

(** Witness of C4: the example pool entered at 60, drawing b then a. *)
Lemma C4_witness :
  exists data,
    Request SubmitVote data
      ∈ emitted (submitVotes friendly_world (example_vote 60 example_pool) [1#3; 0]%Q) /\
    voted_ids data = ["b"; "a"] /\
    viewed_ids data = ["a"; "b"; "c"].
Proof.
  refine (proj2 (C4_viewed_completeness friendly_world
                   (example_vote 60 example_pool) [1#3; 0]%Q _)
            (accept (accept (initial 60) (Image "b" 30)) (Image "a" 40)) _ _).
  - discriminate.
  - reflexivity.
  - vm_compute. reflexivity.
Defined.



(** The warning is printed when, and only when, the loop leaves by its
    [break]: the Set then holds as many identifiers as the pool has images,
    whatever the total has become. *)
Lemma selectLoop_warning title images rs : forall st,
  Console LWarn (MsgNotEnoughImages title) ∈ emitted (selectLoop title images st rs) ->
  exists st', out (selectLoop title images st rs) = Ok st' /\
    size (uniqueImageIds st') = length images.
Proof.
  induction rs as [|r rs IH]; intros st; simpl;
    destruct (exposure_factor st <? 100); simpl;
    try (intros H; by apply elem_of_nil in H).
  destruct (loop_body images st r) as [| |st1|st1] eqn:Hb; simpl;
    try (intros H; by apply elem_of_nil in H); try apply IH.
  intros _. exists st1. split; [done|]. by eapply loop_body_exhausted.
Qed.

(** C7, the failing input: a pool of one image worth 40 entered at 60.  The
    only draw is accepted and brings the exposure to 100, yet the loop
    prints the warning that the target cannot be reached before the votes
    are submitted. *)
Theorem C7_warning_at_target :
  exists st,
    out (selectLoop "Street" [Image "a" 40] (initial 60) [0%Q]) = Ok st /\
    exposure_factor st = 100 /\
    emitted (submitVotes friendly_world (example_vote 60 [Image "a" 40]) [0%Q]) =
      [Console LWarn (MsgNotEnoughImages "Street");
       Request SubmitVote [("c_id", "7"); ("image_ids[]", "a"); ("layout", "scroll");
                           ("viewed_image_ids[]", "a")];
       Console LLog (MsgVotesSubmitted "Street")].
Proof. eexists. split; [vm_compute; reflexivity|]. split; vm_compute; reflexivity. Qed.

(** * The orchestrator *)

Section Isolation.

Variable applyBoost_ : challenge -> M (option json).
Variable getVoteImages_ : challenge -> M (option voteImages).
Variable submitVotes_ : voteImages -> M (option json).

Local Abbreviation boostStep' := (boostStep applyBoost_).
Local Abbreviation voteStep' := (voteStep getVoteImages_ submitVotes_).
Local Abbreviation processChallenge' := (processChallenge applyBoost_ getVoteImages_ submitVotes_).
Local Abbreviation forOf' := (forOf applyBoost_ getVoteImages_ submitVotes_).

Lemma vote_due_test now c :
  (rk_exposure_factor (mb_ranking (ch_member c)) <? 100) && (ch_start_time c <? now)
    = true <-> vote_due now c.
Proof. unfold vote_due. rewrite andb_true_iff, !Z.ltb_lt. done. Qed.

(** The loop over a list that continues after a challenge whose
    processing ended normally. *)
Lemma forOf_cons_Ok now c cs rs :
  out (processChallenge' now c rs) = Ok tt ->
  forOf' now (c :: cs) rs =
    then_run (processChallenge' now c rs)
             (forOf' now cs (rest (processChallenge' now c rs))).
Proof. intros H. simpl. by rewrite (bind_Ok _ _ _ _ H). Qed.

End Isolation.

(** The two tests of the boost step.  A deadline of zero counts as absent. *)
Lemma boost_tests_spec now b :
  boost_tests now b = true <->
  boost_state b = "AVAILABLE" /\
  exists t, boost_timeout b = Some t /\ t <> 0 /\ 0 < t - now <= 600.
Proof.
  unfold boost_tests, boost_available, boostTimeout.
  rewrite !andb_true_iff, String.eqb_eq, Z.leb_le, Z.gtb_lt.
  destruct (boost_timeout b) as [t|]; simpl.
  - rewrite negb_true_iff, Z.eqb_neq. split.
    + intros [[Hs Ht] [H1 H2]]. split; [done|]. exists t. repeat split; try done; lia.
    + intros [Hs (t' & [= <-] & Ht & H1 & H2)]. repeat split; try done; lia.
  - split; [by intros [[_ ?] _]|]. by intros [_ (t & ? & _)].
Qed.

Lemma boost_tests_due now b :
  0 <= now -> boost_tests now b = true <-> boost_due now b.
Proof.
  intros Hnow. rewrite boost_tests_spec. unfold boost_due. split.
  - intros [Hs (t & Ht & _ & H)]. eauto.
  - intros [Hs (t & Ht & H)]. split; [done|]. exists t. repeat split; try done; lia.
Qed.

Section BoostStep.

Variable applyBoost_ : challenge -> M (option json).

Lemma boostStep_attempt now c rs :
  boost_tests now (mb_boost (ch_member c)) = true ->
  boostStep applyBoost_ now c rs =
    (console LLog (MsgBoostAvailable (ch_title c)) ;;;
     console LLog (MsgExecutingBoost
       ((default 0 (boost_timeout (mb_boost (ch_member c))) - now) / 60)) ;;;
     try_catch (applyBoost_ c ;;; ret tt)
       (fun error => console LError (MsgBoostError error))) rs.
Proof.
  unfold boost_tests. intros [H1 H2]%andb_true_iff. unfold boostStep.
  by rewrite H1, H2.
Qed.

Lemma boostStep_skip now c rs :
  boost_tests now (mb_boost (ch_member c)) = false ->
  out (boostStep applyBoost_ now c rs) = Ok tt /\
  rest (boostStep applyBoost_ now c rs) = rs /\
  (emitted (boostStep applyBoost_ now c rs) = [] \/
   emitted (boostStep applyBoost_ now c rs)
     = [Console LLog (MsgBoostAvailable (ch_title c))]).
Proof.
  unfold boost_tests, boostStep.
  destruct (boost_available _); [|auto]. simpl. intros ->. auto.
Qed.

End BoostStep.


(** * The two conditions of the orchestrator *)

Lemma makePostRequest_quiet w url data rs ev :
  ev ∈ emitted (makePostRequest w url data rs) ->
  ev = Request url data \/ exists m, ev = Console LError m.
Proof.
  unfold makePostRequest. intros H. destruct (token_set w).
  - apply bind_emitted in H as [H|(? & _ & H)].
    + cbn in H. apply elem_of_cons in H as [H|H]; [by left|by apply elem_of_nil in H].
    + emitted_cases H; eauto.
  - emitted_cases H; eauto. by apply elem_of_nil in H.
Qed.

Lemma makePostRequest_ok w url data rs :
  token_set w = true ->
  exists resp tail,
    makePostRequest w url data rs = Run (Ok resp) rs (Request url data :: tail).
Proof.
  intros Htok. unfold makePostRequest. rewrite Htok.
  destruct (axios w url data) as [d|e]; cbn; eauto.
Qed.

Lemma applyBoost_quiet w c rs ev :
  ev ∈ emitted (applyBoost w c rs) ->
  is_announcement ev = false /\ is_vote_request ev = false.
Proof.
  unfold applyBoost. intros H.
  destruct (getFirstNonTurboKey _) as [k|]; [destruct (String.eqb k "")|].
  - emitted_cases H; by subst.
  - apply bind_emitted in H as [H|(resp & _ & H)].
    + apply makePostRequest_quiet in H as [->|[m ->]]; done.
    + emitted_cases H; by subst.
  - emitted_cases H; by subst.
Qed.

Lemma applyBoost_ok w c rs :
  token_set w = true ->
  exists resp, out (applyBoost w c rs) = Ok resp /\ rest (applyBoost w c rs) = rs.
Proof.
  intros Htok. unfold applyBoost.
  destruct (getFirstNonTurboKey _) as [k|]; [destruct (String.eqb k "")|];
    try (cbn; eauto; fail).
  destruct (makePostRequest_ok w BoostPhoto [("c_id", ch_id c); ("image_id", k)] rs Htok)
    as (resp & tail & Hp).
  unfold bind. rewrite Hp. cbn [out rest emitted]. destruct resp; cbn; eauto.
Qed.

Lemma getVoteImages_quiet w c rs ev :
  ev ∈ emitted (getVoteImages w c rs) ->
  is_announcement ev = false /\
  (is_vote_request ev = true -> ev = Request GetVoteImages (fetch_data c)).
Proof.
  unfold getVoteImages. intros H.
  apply bind_emitted in H as [H|(? & _ & H)]; [apply console_emitted in H; by subst|].
  apply bind_emitted in H as [H|(resp & _ & H)].
  - apply makePostRequest_quiet in H as [->|[m ->]]; done.
  - destruct resp as [[cs|v|]|]; [| destruct (vi_images v) | |];
      emitted_cases H; by subst.
Qed.

Lemma makePostRequest_drawless w url data : drawless (makePostRequest w url data).
Proof. unfold makePostRequest. solve_drawless. Qed.

Lemma applyBoost_drawless w c : drawless (applyBoost w c).
Proof. unfold applyBoost. solve_drawless; apply makePostRequest_drawless. Qed.

Lemma getVoteImages_drawless w c : drawless (getVoteImages w c).
Proof. unfold getVoteImages. solve_drawless; apply makePostRequest_drawless. Qed.

Lemma getVoteImages_rest w c rs : rest (getVoteImages w c rs) = rs.
Proof. apply getVoteImages_drawless. Qed.

Lemma boostStep_drawless w now c : drawless (boostStep (applyBoost w) now c).
Proof. unfold boostStep. solve_drawless; apply applyBoost_drawless. Qed.

Lemma getVoteImages_result w c rs v :
  out (getVoteImages w c rs) = Ok (Some v) -> usable_pool w c v.
Proof.
  unfold getVoteImages, usable_pool. rewrite console_bind. cbn [out]. intros H.
  apply bind_out_Ok in H as (resp & Hp & H).
  destruct resp as [[cs|v'|]|]; try (cbn in H; discriminate).
  destruct (vi_images v') eqn:Hi; cbn in H; [discriminate|].
  injection H as <-. rewrite Hi. split; [|done].
  unfold makePostRequest in Hp. destruct (token_set w); [|cbn in Hp; discriminate].
  rewrite (bind_Ok _ _ _ tt) in Hp by done. cbn [out] in Hp.
  fold (fetch_data c) in Hp. destruct (axios w GetVoteImages (fetch_data c)).
  - cbn in Hp. congruence.
  - cbn in Hp. discriminate.
Qed.

Lemma getVoteImages_requests w c rs :
  token_set w = true ->
  exists o tail,
    getVoteImages w c rs =
      Run (Ok o) rs
          (Console LLog (MsgFetchingVoteImages (ch_title c))
             :: Request GetVoteImages (fetch_data c) :: tail).
Proof.
  intros Htok.
  destruct (makePostRequest_ok w GetVoteImages (fetch_data c) rs Htok)
    as (resp & tail & Hp).
  unfold getVoteImages. fold (fetch_data c). rewrite console_bind.
  assert (Ho : out (makePostRequest w GetVoteImages (fetch_data c) rs) = Ok resp)
    by (by rewrite Hp).
  rewrite (bind_Ok _ _ _ _ Ho), Hp. cbn [out rest emitted].
  destruct resp as [[cs|v|]|]; [|destruct (vi_images v)| |];
    cbn; do 2 eexists; reflexivity.
Qed.

Lemma getVoteImages_usable w c rs v :
  token_set w = true ->
  usable_pool w c v ->
  getVoteImages w c rs =
    Run (Ok (Some v)) rs
        [Console LLog (MsgFetchingVoteImages (ch_title c));
         Request GetVoteImages (fetch_data c);
         Console LLog (MsgFetchedImages (length (vi_images v)) (ch_title c))].
Proof.
  intros Htok [Hax Hne]. unfold getVoteImages, makePostRequest.
  rewrite console_bind, Htok. fold (fetch_data c). rewrite Hax.
  destruct (vi_images v) eqn:Hi; [done|]. cbn. rewrite Hi. reflexivity.
Qed.

Lemma submitVotes_quiet w vi rs ev :
  ev ∈ emitted (submitVotes w vi rs) -> is_announcement ev = false.
Proof.
  unfold submitVotes. intros H. destruct (vi_images vi) as [|img images].
  - emitted_cases H; by subst.
  - apply bind_emitted in H as [H|(st & _ & H)].
    + destruct (selectLoop_emitted (ch_title (vi_challenge vi)) (img :: images) rs
                  (initial (vi_exposure_factor vi))) as [Hem|Hem];
        rewrite Hem in H.
      * by apply elem_of_nil in H.
      * apply elem_of_cons in H as [->|H]; [done|]. by apply elem_of_nil in H.
    + apply bind_emitted in H as [H|(resp & _ & H)].
      * apply makePostRequest_quiet in H as [->|[m ->]]; done.
      * destruct resp; emitted_cases H; by subst.
Qed.

Lemma pacing_quiet rs ev :
  ev ∈ emitted ((ms <- getRandomDelay 2000 5000 ;; sleep ms) rs) ->
  exists ms, ev = Sleep ms.
Proof.
  intros H. apply bind_emitted in H as [H|(ms & _ & H)].
  - unfold getRandomDelay in H. apply bind_emitted in H as [H|(? & _ & H)].
    + destruct rs; by apply elem_of_nil in H.
    + by apply ret_emitted in H.
  - cbn in H. apply elem_of_cons in H as [->|H]; [eauto|by apply elem_of_nil in H].
Qed.

(** The voting step of the program, taken apart. *)
Lemma voteStep_emitted w now c rs ev :
  ev ∈ emitted (voteStep (getVoteImages w) (submitVotes w) now c rs) ->
  vote_due now c /\
  (ev ∈ emitted (getVoteImages w c rs) \/
   (exists v, usable_pool w c v /\ ev ∈ emitted (submitVotes w v rs)) \/
   (exists ms, ev = Sleep ms) \/
   (exists m, ev = Console LError m)).
Proof.
  unfold voteStep.
  destruct (_ && _) eqn:Hg; [|intros H; by apply ret_emitted in H].
  apply vote_due_test in Hg. intros H. split; [done|].
  apply try_catch_emitted in H as [H|(e & _ & H)].
  - apply bind_emitted in H as [H|(o & Ho & H)]; [by left|].
    rewrite getVoteImages_rest in H.
    destruct o as [v|]; [|by apply ret_emitted in H].
    apply getVoteImages_result in Ho.
    apply bind_emitted in H as [H|(? & _ & H)]; [right; left; eauto|].
    apply pacing_quiet in H. auto.
  - emitted_cases H; subst; eauto 6.
Qed.

(** ** The boost policy *)


Lemma boostStep_impl_ok w now c rs :
  token_set w = true ->
  out (boostStep (applyBoost w) now c rs) = Ok tt.
Proof.
  intros Htok. unfold boostStep.
  destruct (boost_available _); [|done]. rewrite console_bind. cbn [out].
  destruct (_ && _); [|done]. rewrite console_bind. cbn [out].
  destruct (applyBoost_ok w c rs Htok) as (resp & Ho & _).
  assert (H : out ((applyBoost w c ;;; ret tt) rs) = Ok tt)
    by (by rewrite (bind_Ok _ _ _ _ Ho)).
  by rewrite (try_catch_Ok _ _ _ _ H).
Qed.

Lemma boostStep_impl_quiet w now c rs ev :
  ev ∈ emitted (boostStep (applyBoost w) now c rs) -> is_vote_request ev = false.
Proof.
  unfold boostStep. intros H.
  destruct (boost_available _); [|by apply ret_emitted in H].
  apply bind_emitted in H as [H|(? & _ & H)]; [apply console_emitted in H; by subst|].
  destruct (_ && _); [|by apply ret_emitted in H].
  apply bind_emitted in H as [H|(? & _ & H)]; [apply console_emitted in H; by subst|].
  apply try_catch_emitted in H as [H|(e & _ & H)].
  - apply bind_emitted in H as [H|(? & _ & H)]; [|by apply ret_emitted in H].
    by apply applyBoost_quiet in H as [_ ?].
  - apply console_emitted in H. by subst.
Qed.

Lemma getVoteImages_request w c rs url data :
  Request url data ∈ emitted (getVoteImages w c rs) -> url = GetVoteImages.
Proof.
  unfold getVoteImages. intros H.
  apply bind_emitted in H as [H|(? & _ & H)]; [by apply console_emitted in H|].
  apply bind_emitted in H as [H|(resp & _ & H)].
  - by apply makePostRequest_request in H as [-> _].
  - destruct resp as [[cs|v|]|]; [| destruct (vi_images v) | |];
      emitted_cases H; by subst.
Qed.

(** The voting step asks for nothing but the pool and the submission. *)
Lemma voteStep_request w now c rs url data :
  Request url data ∈ emitted (voteStep (getVoteImages w) (submitVotes w) now c rs) ->
  url = GetVoteImages \/ url = SubmitVote.
Proof.
  intros H. apply voteStep_emitted in H as [_ [H|[(v & _ & H)|[[ms ?]|[m ?]]]]];
    try done.
  - left. by eapply getVoteImages_request.
  - right. by apply submitVotes_request in H as (_ & _ & -> & _).
Qed.

(** With the credential set and an entry that is not boosted yet,
    [applyBoost] sends the boost request for the first such entry. *)
Lemma applyBoost_requests w c rs k :
  token_set w = true ->
  getFirstNonTurboKey (rk_entries (mb_ranking (ch_member c))) = Some k ->
  k <> "" ->
  Request BoostPhoto [("c_id", ch_id c); ("image_id", k)] ∈ emitted (applyBoost w c rs).
Proof.
  intros Htok Hk Hne. unfold applyBoost. rewrite Hk.
  apply String.eqb_neq in Hne. rewrite Hne.
  apply bind_emitted_l.
  destruct (makePostRequest_ok w BoostPhoto [("c_id", ch_id c); ("image_id", k)] rs Htok)
    as (resp & tail & ->).
  apply list_elem_of_here.
Qed.

Lemma voteStep_impl_quiet w now c rs ev :
  ev ∈ emitted (voteStep (getVoteImages w) (submitVotes w) now c rs) ->
  is_announcement ev = false.
Proof.
  intros H. apply voteStep_emitted in H as [_ [H|[(v & _ & H)|[[ms ->]|[m ->]]]]];
    try done.
  - by apply getVoteImages_quiet in H as [? _].
  - by apply submitVotes_quiet in H.
Qed.

(** The attempt is made exactly when both tests of the boost step pass,
    whatever the clock reads. *)
Lemma boost_attempted_tests w now c rs :
  boost_attempted (emitted (processOne w now c rs)) <->
  boost_tests now (mb_boost (ch_member c)) = true.
Proof.
  split.
  - intros [m Hm]. unfold processOne, processChallenge in Hm.
    apply bind_emitted in Hm as [Hm|(? & _ & Hm)].
    + destruct (boost_tests now (mb_boost (ch_member c))) eqn:Ht; [done|].
      destruct (boostStep_skip (applyBoost w) now c rs Ht) as (_ & _ & [He|He]);
        rewrite He in Hm.
      * by apply elem_of_nil in Hm.
      * apply elem_of_cons in Hm as [Hm|Hm]; [done|]. by apply elem_of_nil in Hm.
    + by apply voteStep_impl_quiet in Hm.
  - intros Ht. eexists. unfold processOne, processChallenge.
    apply bind_emitted_l. rewrite (boostStep_attempt _ _ _ _ Ht).
    rewrite console_bind. cbn [emitted]. apply list_elem_of_further.
    rewrite console_bind. cbn [emitted]. apply list_elem_of_here.
Qed.

(** C5. Boost policy.  With the clock at or after the epoch, the
    orchestrator attempts a boost for a challenge exactly when the boost
    state is AVAILABLE, a deadline is present and it lies ahead by at most
    600 seconds; the attempt is announced and [applyBoost] runs next.  No
    boost is attempted in another state, without a deadline, at or past the
    deadline, or more than 600 seconds before it.  A boost request is sent
    only under that condition, and under it the request is sent whenever
    the credential is set and an entry is left to boost. *)
Theorem C5_boost_policy w now c rs :
  0 <= now ->
  let b := mb_boost (ch_member c) in
  let evs := emitted (processOne w now c rs) in
  (boost_attempted evs <-> boost_due now b) /\
  (boost_state b <> "AVAILABLE" -> ~ boost_attempted evs) /\
  (boost_timeout b = None -> ~ boost_attempted evs) /\
  (forall t, boost_timeout b = Some t -> t - now <= 0 -> ~ boost_attempted evs) /\
  (forall t, boost_timeout b = Some t -> 600 < t - now -> ~ boost_attempted evs) /\
  (forall t, boost_state b = "AVAILABLE" -> boost_timeout b = Some t ->
     0 < t - now <= 600 ->
     exists tail,
       evs = Console LLog (MsgBoostAvailable (ch_title c))
             :: Console LLog (MsgExecutingBoost ((t - now) / 60))
             :: emitted (applyBoost w c rs) ++ tail) /\
  (forall data, Request BoostPhoto data ∈ evs -> boost_due now b) /\
  (forall k, boost_due now b -> token_set w = true ->
     getFirstNonTurboKey (rk_entries (mb_ranking (ch_member c))) = Some k -> k <> "" ->
     Request BoostPhoto [("c_id", ch_id c); ("image_id", k)] ∈ evs).
Proof.
  intros Hnow b evs.
  assert (Hiff : boost_attempted evs <-> boost_due now b).
  { rewrite <- (boost_tests_due now b Hnow). apply boost_attempted_tests. }
  split; [done|]. unfold boost_due in Hiff.
  split; [|split; [|split; [|split; [|split; [|split]]]]].
  - intros Hs Ha. apply Hiff in Ha as [? _]. done.
  - intros Hn Ha. apply Hiff in Ha as [_ (t & Ht & _)]. congruence.
  - intros t Ht Hle Ha. apply Hiff in Ha as [_ (t' & Ht' & H)].
    assert (t' = t) by congruence. lia.
  - intros t Ht Hle Ha. apply Hiff in Ha as [_ (t' & Ht' & H)].
    assert (t' = t) by congruence. lia.
  - intros t Hs Ht H.
    assert (Hg : boost_due now b) by (split; eauto).
    apply (boost_tests_due now b Hnow) in Hg.
    unfold evs, processOne, processChallenge.
    destruct (bind_emitted_prefix (boostStep (applyBoost w) now c)
                (fun _ => voteStep (getVoteImages w) (submitVotes w) now c) rs)
      as [tail1 ->].
    rewrite (boostStep_attempt _ _ _ _ Hg).
    rewrite console_bind. cbn [emitted]. rewrite console_bind. cbn [emitted].
    destruct (try_catch_emitted_prefix (applyBoost w c ;;; ret tt)
                (fun error => console LError (MsgBoostError error)) rs) as [tail2 ->].
    destruct (bind_emitted_prefix (applyBoost w c) (fun _ => ret tt) rs) as [tail3 ->].
    fold b. rewrite Ht. simpl. exists ((tail3 ++ tail2) ++ tail1).
    by rewrite !app_assoc.
  - intros data H. apply (boost_tests_due now b Hnow).
    unfold evs, processOne, processChallenge in H.
    apply bind_emitted in H as [H|(? & _ & H)].
    + destruct (boost_tests now b) eqn:Ht; [done|].
      destruct (boostStep_skip (applyBoost w) now c rs Ht) as (_ & _ & [He|He]);
        rewrite He in H.
      * by apply elem_of_nil in H.
      * apply elem_of_cons in H as [H|H]; [done|]. by apply elem_of_nil in H.
    + by apply voteStep_request in H as [|].
  - intros k Hg Htok Hk Hne.
    apply (boost_tests_due now b Hnow) in Hg.
    unfold evs, processOne, processChallenge. apply bind_emitted_l.
    rewrite (boostStep_attempt _ _ _ _ Hg).
    rewrite console_bind. cbn [emitted]. apply list_elem_of_further.
    rewrite console_bind. cbn [emitted]. apply list_elem_of_further.
    destruct (try_catch_emitted_prefix (applyBoost w c ;;; ret tt)
                (fun error => console LError (MsgBoostError error)) rs) as [tail2 ->].
    apply elem_of_app. left. apply bind_emitted_l.
    by apply applyBoost_requests.
Qed.

(** Witness of C5: a deadline five minutes ahead. *)
Lemma C5_witness :
  boost_attempted (emitted (processOne friendly_world 1700000000 boostable_challenge []))
  <-> boost_due 1700000000 (mb_boost (ch_member boostable_challenge)).
Proof.
  refine (proj1 (C5_boost_policy friendly_world 1700000000 boostable_challenge [] _)).
  lia.
Defined.

(** ** The voting condition *)

(** C6, counterexample: a challenge below the target whose start time is
    the current second.  Its start time is <= now, yet nothing is fetched
    and nothing is voted. *)
Lemma C6_counterexample :
  rk_exposure_factor (mb_ranking (ch_member starting_challenge)) < 100 /\
  ch_start_time starting_challenge <= 1700000000 /\
  token_set voting_world = true /\
  emitted (processOne voting_world 1700000000 starting_challenge [0; 1#2]%Q) = [].
Proof.
  split; [simpl; lia|]. split; [simpl; lia|]. split; reflexivity.
Qed.

(** C6, amended. In a cycle (the credential is set), the orchestrator
    requests the candidate pool of a challenge exactly when the exposure
    factor is below 100 and the start time is strictly before the current
    time; a vote submission is requested only then and only for a pool the
    platform returned with images; and whenever such a pool is returned the
    voting step runs on it. *)
Theorem C6_vote_condition w now c rs :
  token_set w = true ->
  let evs := emitted (processOne w now c rs) in
  ((exists data, Request GetVoteImages data ∈ evs) <-> vote_due now c) /\
  (forall data, Request SubmitVote data ∈ evs ->
     vote_due now c /\
     exists v, usable_pool w c v /\ Request SubmitVote data ∈ emitted (submitVotes w v rs)) /\
  (forall v, vote_due now c -> usable_pool w c v ->
     exists before after, evs = before ++ emitted (submitVotes w v rs) ++ after).
Proof.
  intros Htok evs.
  pose proof (boostStep_impl_ok w now c rs Htok) as Hb.
  pose proof (boostStep_drawless w now c rs) as Hr.
  assert (Hvote : forall ev, is_vote_request ev = true -> ev ∈ evs ->
            ev ∈ emitted (voteStep (getVoteImages w) (submitVotes w) now c rs)).
  { intros ev Hk H. unfold evs, processOne, processChallenge in H.
    apply bind_emitted in H as [H|(? & _ & H)].
    - apply boostStep_impl_quiet in H. congruence.
    - by rewrite Hr in H. }
  split; [split|split].
  - intros [data H]. apply Hvote in H; [|done]. by apply voteStep_emitted in H as [? _].
  - intros Hg. exists (fetch_data c). unfold evs, processOne, processChallenge.
    eapply bind_emitted_r; [exact Hb|]. rewrite Hr.
    unfold voteStep. apply vote_due_test in Hg. rewrite Hg.
    destruct (getVoteImages_requests w c rs Htok) as (o & tail & Hgv).
    match goal with |- _ ∈ emitted (try_catch ?m ?h rs) =>
      destruct (try_catch_emitted_prefix m h rs) as [t1 ->] end.
    match goal with |- _ ∈ emitted (bind ?m ?f rs) ++ _ =>
      destruct (bind_emitted_prefix m f rs) as [t2 ->] end.
    rewrite Hgv. cbn [emitted]. apply elem_of_app. left. apply elem_of_app. left.
    apply list_elem_of_further, list_elem_of_here.
  - intros data H. apply Hvote in H; [|done].
    apply voteStep_emitted in H as [Hg [H|[(v & Hv & H)|[[ms Hs]|[m Hm]]]]];
      try discriminate.
    + apply getVoteImages_quiet in H as [_ H]. by specialize (H eq_refl).
    + eauto.
  - intros v Hg Hv. unfold evs, processOne, processChallenge.
    rewrite (bind_Ok _ _ _ _ Hb). cbn [emitted]. rewrite Hr.
    exists (emitted (boostStep (applyBoost w) now c rs) ++
            emitted (getVoteImages w c rs)).
    unfold voteStep. apply vote_due_test in Hg. rewrite Hg.
    match goal with |- context [emitted (try_catch ?m ?h rs)] =>
      destruct (try_catch_emitted_prefix m h rs) as [t1 ->] end.
    pose proof (getVoteImages_usable w c rs v Htok Hv) as Hgv.
    assert (Ho : out (getVoteImages w c rs) = Ok (Some v)) by (by rewrite Hgv).
    rewrite (bind_Ok _ _ _ _ Ho). cbn [emitted]. rewrite getVoteImages_rest.
    match goal with |- context [emitted (bind ?m ?f rs)] =>
      destruct (bind_emitted_prefix m f rs) as [t2 ->] end.
    exists (t2 ++ t1). by rewrite !app_assoc.
Qed.

(** Witness of C6: a started challenge in a world that serves the example
    pool. *)
Lemma C6_witness :
  (exists data, Request GetVoteImages data
     ∈ emitted (processOne voting_world 1700000000 (titled "First") [0; 1#2]%Q))
  <-> vote_due 1700000000 (titled "First").
Proof.
  refine (proj1 (C6_vote_condition voting_world 1700000000 (titled "First")
                   [0; 1#2]%Q _)).
  reflexivity.
Defined.

(** * The cycle *)


(** * The loop on data as received *)

Section ReceivedLoop.

Variable applyBoost_ : Received.challenge -> M (option Received.json).
Variable getVoteImages_ : Received.challenge -> M (option Received.voteImages).
Variable submitVotes_ : Received.voteImages -> M (option Received.json).

Local Abbreviation boostStep' := (Received.boostStep applyBoost_).
Local Abbreviation voteStep' := (Received.voteStep getVoteImages_ submitVotes_).
Local Abbreviation processChallenge' :=
  (Received.processChallenge applyBoost_ getVoteImages_ submitVotes_).
Local Abbreviation forOf' := (Received.forOf applyBoost_ getVoteImages_ submitVotes_).

(** The boost part once [challenge.member.boost] has been read. *)
Lemma received_boostStep_read now c b :
  Received.boost_of c = Some b ->
  boostStep' now c =
    if Received.boost_available b then
      console LLog (MsgBoostAvailable (shown (Received.ch_title c))) ;;;
      if (default 0 (Received.boost_timeout b) - now <=? boostTimeout)
         && (default 0 (Received.boost_timeout b) - now >? 0) then
        console LLog
          (MsgExecutingBoost ((default 0 (Received.boost_timeout b) - now) / 60)) ;;;
        try_catch (applyBoost_ c ;;; ret tt)
                  (fun error => console LError (MsgBoostError error))
      else ret tt
    else ret tt.
Proof.
  unfold Received.boost_of, Received.boostStep.
  destruct (Received.ch_member c) as [m|]; [|done]. by intros ->.
Qed.

(** Without it the part throws at once. *)
Lemma received_boostStep_unread now c rs :
  Received.boost_of c = None ->
  exists e, boostStep' now c rs = Run (Throw e) rs [].
Proof.
  unfold Received.boost_of, Received.boostStep.
  destruct (Received.ch_member c) as [m|]; [intros ->|]; eauto.
Qed.

(** The voting part once [challenge.member.ranking.exposure] has been
    read. *)
Lemma received_voteStep_read now c x :
  Received.exposure_of c = Some x ->
  voteStep' now c =
    if below (Received.ex_exposure_factor x) 100
       && below (Received.ch_start_time c) now then
      try_catch
        (voteImages <- getVoteImages_ c ;;
         match voteImages with
         | Some v =>
             submitVotes_ v ;;;
             ms <- getRandomDelay 2000 5000 ;;
             sleep ms
         | None => ret tt
         end)
        (fun error =>
           console LError (MsgErrorVoting (shown (Received.ch_title c))) ;;;
           console LError (MsgThrown error))
    else ret tt.
Proof.
  unfold Received.exposure_of, Received.voteStep.
  destruct (Received.ch_member c) as [m|]; [|done].
  destruct (Received.mb_ranking m) as [r|]; [|done]. by intros ->.
Qed.


Lemma received_boostStep_no_throw now c rs e :
  is_Some (Received.boost_of c) -> out (boostStep' now c rs) <> Throw e.
Proof.
  intros [b Hb]. rewrite (received_boostStep_read now c b Hb).
  destruct (Received.boost_available b); [|done].
  rewrite console_bind. cbn [out]. destruct (_ && _); [|done].
  rewrite console_bind. cbn [out]. by apply try_catch_no_throw.
Qed.

Lemma received_voteStep_no_throw now c rs e :
  is_Some (Received.exposure_of c) -> out (voteStep' now c rs) <> Throw e.
Proof.
  intros [x Hx]. rewrite (received_voteStep_read now c x Hx).
  destruct (_ && _); [|done]. apply try_catch_no_throw. done.
Qed.

Lemma received_processChallenge_no_throw now c rs e :
  Received.readable c -> out (processChallenge' now c rs) <> Throw e.
Proof.
  intros [Hb Hx]. unfold Received.processChallenge, bind.
  destruct (out (boostStep' now c rs)) eqn:Ho; cbn [out]; try done.
  - by apply received_voteStep_no_throw.
  - by apply received_boostStep_no_throw in Ho.
Qed.



(** A challenge whose processing throws ends the loop: the challenges
    that follow are not looked at. *)
Lemma received_forOf_cons_Throw now c cs rs e :
  out (processChallenge' now c rs) = Throw e ->
  forOf' now (c :: cs) rs =
    Run (Throw e) (rest (processChallenge' now c rs))
        (emitted (processChallenge' now c rs)).
Proof. intros H. simpl. by rewrite (bind_Throw _ _ _ _ H). Qed.






End ReceivedLoop.




(** * Data of the expected shape

    On data that has every part, the program on received data runs as the
    program on the records does. *)

Lemma map_run_bind {A A' B B'} (g : A -> A') (h : B -> B')
    (m : M A) (m' : M A') (f : A -> M B) (f' : A' -> M B') rs :
  m' rs = map_run g (m rs) ->
  (forall a, out (m rs) = Ok a ->
     f' (g a) (rest (m rs)) = map_run h (f a (rest (m rs)))) ->
  bind m' f' rs = map_run h (bind m f rs).
Proof.
  intros Hm Hf. unfold bind. rewrite Hm. unfold map_run. cbn [out rest emitted].
  destruct (out (m rs)) as [a|e|c|]; cbn [out rest emitted]; try done.
  rewrite Hf by done. unfold map_run. cbn [out rest emitted]. done.
Qed.

Lemma map_run_id {A} (r : run A) : map_run (fun a => a) r = r.
Proof. destruct r as [[a|e|c|] rs evs]; done. Qed.

(** Two computations with the same run up to their results, followed by
    computations that do not look at the results. *)
Lemma bind_ignoring {A A' B} (g : A -> A') (m : M A) (m' : M A') (k : M B) rs :
  m' rs = map_run g (m rs) -> (m' ;;; k) rs = (m ;;; k) rs.
Proof.
  intros Hm. rewrite <- (map_run_id ((m ;;; k) rs)).
  by apply (map_run_bind g (fun b => b)); [|intros; rewrite map_run_id].
Qed.

Lemma map_run_console {B B'} (h : B -> B') l msg (k : M B) (k' : M B') rs :
  (forall rs', k' rs' = map_run h (k rs')) ->
  (console l msg ;;; k') rs = map_run h ((console l msg ;;; k) rs).
Proof.
  intros Hk. apply (map_run_bind (fun u => u) h); [by rewrite map_run_id|].
  intros _ _. apply Hk.
Qed.

Lemma try_catch_same {A} (m m' : M A) (h : string -> M A) rs :
  m' rs = m rs -> try_catch m' h rs = try_catch m h rs.
Proof. unfold try_catch. by intros ->. Qed.

Lemma received_token_set w : Received.token_set (received_world w) = token_set w.
Proof. done. Qed.

Lemma received_makePostRequest w url data rs :
  Received.makePostRequest (received_world w) url data rs =
    map_run (option_map received_json) (makePostRequest w url data rs).
Proof.
  unfold Received.makePostRequest, makePostRequest. rewrite received_token_set.
  destruct (token_set w); [|done].
  unfold bind, map_run. cbn [emit out rest emitted Received.axios received_world].
  by destruct (axios w url data) as [d|e].
Qed.

Lemma received_getActiveChallenges w rs :
  Received.getActiveChallenges (received_world w) rs =
    map_run (option_map (map received_challenge)) (getActiveChallenges w rs).
Proof.
  unfold Received.getActiveChallenges, getActiveChallenges.
  apply map_run_console. intros rs'.
  apply (map_run_bind (option_map received_json) (option_map (map received_challenge)));
    [apply received_makePostRequest|].
  by intros [[cs|v|]|] _.
Qed.

Lemma viewable_map_Some images :
  Forall (fun img => lone_surrogate (img_id img) = false) images ->
  viewable (map Some images) = inr images.
Proof. induction 1 as [|img images Himg _ IH]; [done|]. cbn. by rewrite Himg, IH. Qed.

Lemma received_getVoteImages w c rs :
  Received.getVoteImages (received_world w) (received_challenge c) rs =
    map_run (option_map received_voteImages) (getVoteImages w c rs).
Proof.
  unfold Received.getVoteImages, getVoteImages.
  cbn [received_challenge Received.ch_title Received.ch_url shown default].
  apply map_run_console. intros rs'.
  apply (map_run_bind (option_map received_json) (option_map received_voteImages));
    [apply received_makePostRequest|].
  intros [[cs|v|]|] _; try done.
  cbn [option_map received_json received_voteImages Received.vi_images].
  destruct (vi_images v) as [|img images]; [done|].
  cbn [map]. unfold map_run, bind. cbn. by rewrite length_map.
Qed.

Lemma received_selectLoop c images st rs :
  Received.selectLoop (Some (received_challenge c)) images st rs =
    selectLoop (ch_title c) images st rs.
Proof. done. Qed.

Lemma received_submitVotes w v rs :
  Forall (fun img => lone_surrogate (img_id img) = false) (vi_images v) ->
  Received.submitVotes (received_world w) (received_voteImages v) rs =
    map_run (option_map received_json) (submitVotes w v rs).
Proof.
  intros Hids. unfold Received.submitVotes, submitVotes.
  cbn [received_voteImages Received.vi_images Received.vi_challenge Received.vi_voting
       Received.vt_exposure received_exposure Received.ex_exposure_factor].
  destruct (vi_images v) as [|img images] eqn:Himgs; [done|].
  cbn [map]. change (Some img :: map Some images) with (map Some (img :: images)).
  rewrite viewable_map_Some by done.
  apply (map_run_bind (fun st => st) (option_map received_json)).
  - rewrite received_selectLoop. by rewrite map_run_id.
  - intros st _.
    cbn [received_challenge Received.ch_id Received.ch_title shown default].
    apply (map_run_bind (option_map received_json) (option_map received_json)).
    + apply received_makePostRequest.
    + by intros [r|] _.
Qed.

Lemma received_getFirstNonTurboKey entries rs :
  Received.getFirstNonTurboKey (map (fun e => Some (received_entry e)) entries) rs =
    Run (Ok (getFirstNonTurboKey entries)) rs [].
Proof.
  induction entries as [|e entries IH]; [done|].
  cbn [map Received.getFirstNonTurboKey getFirstNonTurboKey received_entry
       Received.entry_turbo Received.entry_id default].
  by destruct (entry_turbo e).
Qed.

Lemma bind_pure {A B} (m : M A) (f : A -> M B) rs a :
  m rs = Run (Ok a) rs [] -> bind m f rs = f a rs.
Proof. intros H. unfold bind. rewrite H. cbn. by destruct (f a rs). Qed.

Lemma received_applyBoost w c rs :
  Received.applyBoost (received_world w) (received_challenge c) rs =
    map_run (option_map received_json) (applyBoost w c rs).
Proof.
  unfold Received.applyBoost, applyBoost.
  cbn [received_challenge Received.ch_member received_member Received.mb_ranking
       received_ranking Received.rk_entries Received.ch_id shown default].
  rewrite (bind_pure _ _ rs _ (received_getFirstNonTurboKey _ rs)).
  destruct (getFirstNonTurboKey _) as [k|]; cbn [default from_option id]; [|done].
  destruct (String.eqb k ""); [done|].
  apply (map_run_bind (option_map received_json) (option_map received_json)).
  - apply received_makePostRequest.
  - by intros [r|] _.
Qed.

Lemma received_boost_available b :
  Received.boost_available (received_boost b) = boost_available b.
Proof. done. Qed.

Lemma received_boostStep w now c rs :
  Received.boostStep (Received.applyBoost (received_world w)) now (received_challenge c) rs =
    boostStep (applyBoost w) now c rs.
Proof.
  rewrite (received_boostStep_read _ now _ (received_boost (mb_boost (ch_member c))))
    by done.
  unfold boostStep. rewrite received_boost_available.
  cbn [received_challenge Received.ch_title shown default received_boost
       Received.boost_timeout].
  assert (Ht : forall rs',
    try_catch (Received.applyBoost (received_world w) (received_challenge c) ;;; ret tt)
      (fun error => console LError (MsgBoostError error)) rs' =
    try_catch (applyBoost w c ;;; ret tt)
      (fun error => console LError (MsgBoostError error)) rs').
  { intros rs'. apply try_catch_same, (bind_ignoring (option_map received_json)),
      received_applyBoost. }
  destruct (boost_available _); [|done]. rewrite !console_bind.
  destruct (_ && _); [|done]. rewrite !console_bind. by rewrite Ht.
Qed.

Lemma received_voteStep w now c rs :
  encodable_pools w ->
  Received.voteStep (Received.getVoteImages (received_world w))
      (Received.submitVotes (received_world w)) now (received_challenge c) rs =
    voteStep (getVoteImages w) (submitVotes w) now c rs.
Proof.
  intros Hw.
  rewrite (received_voteStep_read _ _ now _
             (received_exposure (rk_exposure_factor (mb_ranking (ch_member c)))))
    by done.
  unfold voteStep.
  cbn [received_exposure Received.ex_exposure_factor below received_challenge
       Received.ch_start_time Received.ch_title shown default].
  destruct (_ && _); [|done].
  apply try_catch_same.
  rewrite <- (map_run_id (bind (getVoteImages w c) _ rs)).
  apply (map_run_bind (option_map received_voteImages) (fun u => u)).
  - apply received_getVoteImages.
  - intros [v|] Hv; rewrite map_run_id; [|done].
    cbn [option_map]. apply (bind_ignoring (option_map received_json)).
    apply received_submitVotes.
    apply getVoteImages_result in Hv as [Hax _]. by eapply Hw.
Qed.

Lemma received_forOf w now cs : encodable_pools w -> forall rs,
  Received.forOf (Received.applyBoost (received_world w))
      (Received.getVoteImages (received_world w))
      (Received.submitVotes (received_world w)) now (map received_challenge cs) rs =
    forOf (applyBoost w) (getVoteImages w) (submitVotes w) now cs rs.
Proof.
  intros Hw. induction cs as [|c cs IH]; intros rs; [done|].
  cbn [map Received.forOf forOf].
  assert (Hp : Received.processChallenge (Received.applyBoost (received_world w))
                 (Received.getVoteImages (received_world w))
                 (Received.submitVotes (received_world w)) now (received_challenge c) rs =
               processChallenge (applyBoost w) (getVoteImages w) (submitVotes w) now c rs).
  { unfold Received.processChallenge, processChallenge, bind.
    rewrite received_boostStep.
    destruct (out (boostStep (applyBoost w) now c rs)) as [[]|e|code|]; try done.
    by rewrite received_voteStep. }
  unfold bind. rewrite Hp.
  destruct (out (processChallenge _ _ _ now c rs)) as [[]|e|code|]; try done.
  by rewrite IH.
Qed.

(** The whole cycle. *)
Lemma received_fetchChallengesAndVote w rs :
  encodable_pools w ->
  Received.fetchChallengesAndVote (received_world w) rs = fetchChallengesAndVote w rs.
Proof.
  intros Hw. unfold Received.fetchChallengesAndVote, fetchChallengesAndVote.
  rewrite <- (map_run_id (bind (getActiveChallenges w) _ rs)).
  apply (map_run_bind (option_map (map received_challenge)) (fun u => u)).
  - apply received_getActiveChallenges.
  - intros [cs|] _; rewrite map_run_id; [|done].
    cbn [option_map received_world Received.date_now Received.locale_time].
    unfold bind. by rewrite received_forOf.
Qed.

(** * Rounding to binary64 *)

Lemma nearest_even_upper n d c :
  0 <= n -> 0 < d -> n <= c * d -> nearest_even n d <= c.
Proof.
  intros Hn Hd Hc. unfold nearest_even.
  pose proof (Z.div_mod n d ltac:(lia)) as Hdiv.
  pose proof (Z.mod_pos_bound n d Hd) as Hr.
  assert (Hq : n / d <= c) by (apply Z.div_le_upper_bound; lia).
  assert (Hq' : 0 < n mod d -> n / d + 1 <= c) by nia.
  destruct (2 * (n mod d) <? d) eqn:E1; [done|].
  apply Z.ltb_ge in E1.
  destruct (d <? 2 * (n mod d)) eqn:E2; [apply Hq'; lia|].
  destruct (Z.even (n / d)); [done|apply Hq'; lia].
Qed.

Lemma nearest_even_lower n d c :
  0 <= n -> 0 < d -> c * d <= n -> c <= nearest_even n d.
Proof.
  intros Hn Hd Hc. unfold nearest_even.
  assert (Hq : c <= n / d) by (apply Z.div_le_lower_bound; lia).
  destruct (2 * (n mod d) <? d); [done|].
  destruct (d <? 2 * (n mod d)); [lia|].
  destruct (Z.even (n / d)); lia.
Qed.

Lemma ilog2_lower n d :
  0 < n -> 0 < d -> 0 <= ilog2 n d -> d * 2 ^ ilog2 n d <= n.
Proof.
  intros Hn Hd. unfold ilog2.
  pose proof (Z.log2_spec n Hn) as [Hn1 _].
  pose proof (Z.log2_spec d Hd) as [_ Hd2].
  pose proof (Z.log2_nonneg n). pose proof (Z.log2_nonneg d).
  set (k := Z.log2 n - Z.log2 d) in *.
  destruct (k <? 0) eqn:Ek.
  - apply Z.ltb_lt in Ek. destruct (_ <? _); lia.
  - apply Z.ltb_ge in Ek. destruct (n <? d * 2 ^ k) eqn:E.
    + intros Hk.
      assert (Hpow : 2 ^ Z.log2 n = 2 ^ (k - 1) * 2 ^ Z.succ (Z.log2 d)).
      { rewrite <- Z.pow_add_r by lia. f_equal. lia. }
      assert (0 < 2 ^ (k - 1)) by (apply Z.pow_pos_nonneg; lia).
      nia.
    + intros _. apply Z.ltb_ge in E. lia.
Qed.

Lemma pow2_neg e : e < 0 -> pow2 e = 1 # Z.to_pos (2 ^ (- e)).
Proof. intros H. unfold pow2. by rewrite (proj2 (Z.ltb_lt e 0) H). Qed.

Lemma pow2_nonneg e : 0 <= e -> pow2 e = inject_Z (2 ^ e).
Proof. intros H. unfold pow2. by rewrite (proj2 (Z.ltb_ge e 0) H). Qed.

(** The value of [binary64] on a positive rational. *)
Lemma binary64_positive a b :
  0 < a ->
  let e := Z.max (ilog2 a (Z.pos b) - 52) (-1074) in
  binary64 (a # b) =
    (inject_Z (if e <? 0 then nearest_even (a * 2 ^ (- e)) (Z.pos b)
               else nearest_even a (Z.pos b * 2 ^ e)) * pow2 e)%Q.
Proof.
  intros Ha e. unfold binary64. cbn [Qnum Qden].
  rewrite (Z.abs_eq a) by lia. rewrite (proj2 (Z.eqb_neq a 0)) by lia.
  fold e. rewrite (Z.sgn_pos a) by lia.
  destruct (e <? 0); by rewrite Z.mul_1_l.
Qed.

Lemma binary64_pos_upper x B :
  0 < Qnum x -> (x <= inject_Z B)%Q -> B < 2 ^ 53 -> (binary64 x <= inject_Z B)%Q.
Proof.
  destruct x as [a b]. cbn [Qnum]. intros Ha Hx HB.
  rewrite (binary64_positive a b Ha). cbv zeta.
  unfold Qle in Hx. cbn [Qnum Qden inject_Z] in Hx.
  set (k := ilog2 a (Z.pos b)) in *. set (e := Z.max (k - 52) (-1074)).
  destruct (e <? 0) eqn:Ee.
  - apply Z.ltb_lt in Ee. rewrite (pow2_neg e Ee).
    assert (Hp : 0 < 2 ^ (- e)) by (apply Z.pow_pos_nonneg; lia).
    assert (Hm : nearest_even (a * 2 ^ (- e)) (Z.pos b) <= B * 2 ^ (- e))
      by (apply nearest_even_upper; nia).
    unfold Qle, Qmult. cbn [Qnum Qden inject_Z].
    rewrite Pos.mul_1_l, Z2Pos.id by lia. lia.
  - apply Z.ltb_ge in Ee. rewrite (pow2_nonneg e Ee).
    assert (Hk : 52 <= k) by lia.
    pose proof (ilog2_lower a (Z.pos b) Ha ltac:(lia) ltac:(fold k; lia)) as Hlow.
    fold k in Hlow.
    assert (Hk53 : k < 53).
    { destruct (Z.lt_ge_cases k 53) as [|Hge]; [done|]. exfalso.
      assert (2 ^ 53 <= 2 ^ k) by (apply Z.pow_le_mono_r; lia). nia. }
    assert (He : e = 0) by lia. rewrite He. change (2 ^ 0) with 1.
    assert (Hm : nearest_even a (Z.pos b * 1) <= B)
      by (apply nearest_even_upper; lia).
    unfold Qle, Qmult. cbn [Qnum Qden inject_Z]. lia.
Qed.

Lemma binary64_pos_lower x B :
  0 < Qnum x -> (inject_Z B <= x)%Q -> B < 2 ^ 53 -> (inject_Z B <= binary64 x)%Q.
Proof.
  destruct x as [a b]. cbn [Qnum]. intros Ha Hx HB.
  rewrite (binary64_positive a b Ha). cbv zeta.
  unfold Qle in Hx. cbn [Qnum Qden inject_Z] in Hx.
  set (k := ilog2 a (Z.pos b)) in *. set (e := Z.max (k - 52) (-1074)).
  destruct (e <? 0) eqn:Ee.
  - apply Z.ltb_lt in Ee. rewrite (pow2_neg e Ee).
    assert (Hp : 0 < 2 ^ (- e)) by (apply Z.pow_pos_nonneg; lia).
    assert (Hm : B * 2 ^ (- e) <= nearest_even (a * 2 ^ (- e)) (Z.pos b))
      by (apply nearest_even_lower; nia).
    unfold Qle, Qmult. cbn [Qnum Qden inject_Z].
    rewrite Pos.mul_1_l, Z2Pos.id by lia. lia.
  - apply Z.ltb_ge in Ee. rewrite (pow2_nonneg e Ee).
    assert (Hk : 52 <= k) by lia.
    pose proof (ilog2_lower a (Z.pos b) Ha ltac:(lia) ltac:(fold k; lia)) as Hlow.
    fold k in Hlow.
    assert (Hp : 0 < 2 ^ e) by (apply Z.pow_pos_nonneg; lia).
    assert (Hke : 2 ^ k = 2 ^ 52 * 2 ^ e).
    { rewrite <- Z.pow_add_r by lia. f_equal. lia. }
    assert (Hm52 : 2 ^ 52 <= nearest_even a (Z.pos b * 2 ^ e))
      by (apply nearest_even_lower; nia).
    unfold Qle, Qmult. cbn [Qnum Qden inject_Z]. rewrite !Z.mul_1_r.
    destruct (Z.eq_dec e 0) as [He|He].
    + rewrite He in *. change (2 ^ 0) with 1 in *.
      assert (Hm : B <= nearest_even a (Z.pos b * 1))
        by (apply nearest_even_lower; lia).
      lia.
    + assert (2 <= 2 ^ e).
      { change 2 with (2 ^ 1) at 1. apply Z.pow_le_mono_r; lia. }
      change (2 ^ 53) with (2 ^ 52 * 2) in HB. nia.
Qed.

Lemma binary64_zero x : Qnum x = 0 -> binary64 x = 0%Q.
Proof. intros H. unfold binary64. by rewrite H. Qed.

Lemma binary64_opp x : (binary64 (- x) == - binary64 x)%Q.
Proof.
  destruct x as [a b]. unfold binary64. cbn [Qopp Qnum Qden].
  rewrite Z.abs_opp. destruct (Z.abs a =? 0); [done|].
  rewrite Z.sgn_opp. unfold Qeq, Qmult, Qopp. cbn [Qnum Qden inject_Z]. lia.
Qed.

(** Rounding does not cross an integer below [2 ^ 53] in size. *)
Lemma binary64_upper x B :
  (x <= inject_Z B)%Q -> - 2 ^ 53 < B < 2 ^ 53 -> (binary64 x <= inject_Z B)%Q.
Proof.
  intros Hx HB. destruct (Z.lt_trichotomy (Qnum x) 0) as [Hneg|[Hz|Hpos]].
  - assert (Hopp : (inject_Z (- B) <= binary64 (- x))%Q).
    { apply binary64_pos_lower.
      - destruct x. cbn in *. lia.
      - rewrite inject_Z_opp. by apply Qopp_le_compat.
      - lia. }
    rewrite binary64_opp, inject_Z_opp in Hopp.
    apply Qopp_le_compat in Hopp. by rewrite !Qopp_involutive in Hopp.
  - rewrite (binary64_zero x Hz). destruct x as [a b]. cbn in Hz. subst a.
    unfold Qle in *. cbn in *. lia.
  - apply binary64_pos_upper; [done|done|lia].
Qed.

Lemma binary64_lower x B :
  (inject_Z B <= x)%Q -> - 2 ^ 53 < B < 2 ^ 53 -> (inject_Z B <= binary64 x)%Q.
Proof.
  intros Hx HB. destruct (Z.lt_trichotomy (Qnum x) 0) as [Hneg|[Hz|Hpos]].
  - assert (Hopp : (binary64 (- x) <= inject_Z (- B))%Q).
    { apply binary64_pos_upper.
      - destruct x. cbn in *. lia.
      - rewrite inject_Z_opp. by apply Qopp_le_compat.
      - lia. }
    rewrite binary64_opp, inject_Z_opp in Hopp.
    apply Qopp_le_compat in Hopp. by rewrite !Qopp_involutive in Hopp.
  - rewrite (binary64_zero x Hz). destruct x as [a b]. cbn in Hz. subst a.
    unfold Qle in *. cbn in *. lia.
  - apply binary64_pos_lower; [done|done|lia].
Qed.

(** * Further properties of the program *)

(** ** applyBoost *)

(** X1. [getFirstNonTurboKey] returns the identifier of the first entry
    whose turbo flag is off, in list order, and nothing exactly when every
    entry is boosted (an empty list included). *)
Theorem X1_first_non_turbo entries :
  (forall k, getFirstNonTurboKey entries = Some k <->
     exists pre e post,
       entries = pre ++ e :: post /\
       Forall (fun x => entry_turbo x = true) pre /\
       entry_turbo e = false /\ entry_id e = k) /\
  (getFirstNonTurboKey entries = None <->
     Forall (fun x => entry_turbo x = true) entries).
Proof.
  induction entries as [|x entries [IHs IHn]]; simpl.
  - split; [|by split]. intros k. split; [done|].
    intros (pre & e & post & H & _). by destruct pre.
  - destruct (entry_turbo x) eqn:Hx.
    + split.
      * intros k. rewrite IHs. split.
        -- intros (pre & e & post & -> & Hpre & He & Hk).
           exists (x :: pre), e, post. split; [done|]. split; [by constructor|done].
        -- intros (pre & e & post & H & Hpre & He & Hk).
           destruct pre as [|y pre]; simpl in H.
           ++ injection H as -> ->. congruence.
           ++ injection H as -> ->. inversion Hpre; subst. eauto 8.
      * rewrite IHn. split; [by constructor|]. by inversion 1.
    + split.
      * intros k. split.
        -- intros [= <-]. exists [], x, entries. by repeat split.
        -- intros (pre & e & post & H & Hpre & He & Hk).
           destruct pre as [|y pre]; simpl in H.
           ++ by injection H as -> ->; subst.
           ++ injection H as -> ->. inversion Hpre; subst. congruence.
      * split; [done|]. inversion 1; congruence.
Qed.

Lemma makePostRequest_needs_token w url data rs url' data' :
  Request url' data' ∈ emitted (makePostRequest w url data rs) -> token_set w = true.
Proof.
  unfold makePostRequest. destruct (token_set w); [done|].
  intros H. emitted_cases H; [done|]. by apply elem_of_nil in H.
Qed.

Lemma applyBoost_target w c :
  applyBoost w c =
    match boost_target c with
    | Some k =>
        response <- makePostRequest w BoostPhoto (boost_data c k) ;;
        match response with
        | None => console LError (MsgFailedBoost (ch_id c)) ;;; ret None
        | Some r => console LLog (MsgBoostApplied k) ;;; ret (Some r)
        end
    | None => console LError MsgNoNonTurbo ;;; ret None
    end.
Proof.
  unfold applyBoost, boost_target.
  destruct (getFirstNonTurboKey _) as [k|]; [|done]. by destruct (String.eqb k "").
Qed.

(** X2. [applyBoost] sends a request only to [boost_photo], only with the
    credential set, and only for the first entry that is not boosted yet,
    naming the challenge and that entry.  When every entry is boosted, or
    the first one that is not has an empty identifier, it prints that no
    entry was found and returns null without a request, whatever the
    credential. *)
Theorem X2_applyBoost_request w c rs :
  (forall url data,
     Request url data ∈ emitted (applyBoost w c rs) <->
     token_set w = true /\ url = BoostPhoto /\
     exists k, boost_target c = Some k /\ data = boost_data c k) /\
  (boost_target c = None ->
     applyBoost w c rs = Run (Ok None) rs [Console LError MsgNoNonTurbo]).
Proof.
  rewrite applyBoost_target. split.
  - intros url data. destruct (boost_target c) as [k|].
    + split.
      * intros H. apply bind_emitted in H as [H|(resp & _ & H)].
        -- pose proof (makePostRequest_needs_token _ _ _ _ _ _ H) as Htok.
           apply makePostRequest_request in H as [-> ->]. eauto.
        -- destruct resp; emitted_cases H; by subst.
      * intros (Htok & -> & k' & [= <-] & ->). apply bind_emitted_l.
        destruct (makePostRequest_ok w BoostPhoto (boost_data c k) rs Htok)
          as (resp & tail & ->). apply list_elem_of_here.
    + split.
      * intros H. emitted_cases H. by subst.
      * by intros (_ & _ & k & ? & _).
  - by intros ->.
Qed.

(** Witness of X2: a challenge without entries, so with nothing to boost. *)
Lemma X2_witness :
  applyBoost friendly_world example_challenge [] =
    Run (Ok None) [] [Console LError MsgNoNonTurbo].
Proof.
  refine (proj2 (X2_applyBoost_request friendly_world example_challenge []) _).
  reflexivity.
Defined.

(** ** Pacing *)

Lemma delay_range min max r :
  unit_draw r -> - 2 ^ 51 <= min -> min <= max -> max <= 2 ^ 51 ->
  min <= delay_of min max r <= max + 1.
Proof.
  intros [Hr0 Hr1] Hmin Hle Hmax. unfold delay_of.
  set (s1 := binary64 (inject_Z max - inject_Z min)).
  assert (Hs1 : (inject_Z (max - min) <= s1 /\ s1 <= inject_Z (max - min))%Q).
  { split; [apply binary64_lower|apply binary64_upper]; try lia;
      unfold Z.sub; rewrite inject_Z_plus, inject_Z_opp; lra. }
  set (s2 := binary64 (s1 + 1)).
  assert (Hs2 : (inject_Z (max - min + 1) <= s2 /\ s2 <= inject_Z (max - min + 1))%Q).
  { split; [apply binary64_lower|apply binary64_upper]; try lia;
      rewrite inject_Z_plus; change (inject_Z 1) with 1%Q; lra. }
  assert (Hpos : (0 < s2)%Q).
  { apply Qlt_le_trans with (inject_Z (max - min + 1)); [|tauto].
    change 0%Q with (inject_Z 0). rewrite <- Zlt_Qlt. lia. }
  set (p := binary64 (r * s2)).
  assert (Hp : (inject_Z 0 <= p /\ p <= inject_Z (max - min + 1))%Q).
  { split; [apply binary64_lower|apply binary64_upper]; try lia.
    - change (inject_Z 0) with 0%Q. apply Qmult_le_0_compat; lra.
    - apply Qle_trans with s2; [|tauto].
      rewrite <- (Qmult_1_l s2) at 2. apply Qmult_le_compat_r; lra. }
  set (q := binary64 (p + inject_Z min)).
  assert (Hq : (inject_Z min <= q /\ q <= inject_Z (max + 1))%Q).
  { change (inject_Z 0) with 0%Q in Hp.
    split; [apply binary64_lower|apply binary64_upper]; try lia.
    - lra.
    - replace (max + 1) with ((max - min + 1) + min) by lia.
      rewrite inject_Z_plus. lra. }
  split.
  - rewrite <- (Qfloor_Z min). apply Qfloor_resp_le. tauto.
  - rewrite <- (Qfloor_Z (max + 1)). apply Qfloor_resp_le. tauto.
Qed.

Lemma getRandomDelay_run min max r rs :
  getRandomDelay min max (r :: rs) = Run (Ok (delay_of min max r)) rs [].
Proof. reflexivity. Qed.

Lemma last_draw_unit : unit_draw last_draw.
Proof. split; vm_compute; congruence. Defined.

(** X4. Given a value of [Math.random] (one of the half-open unit
    interval) and integers [min <= max] of size at most [2 ^ 51],
    [getRandomDelay min max] uses that one value, prints nothing and
    returns an integer between [min] and [max + 1], both included.  The
    bound [max] does not hold: the sum is rounded, and for 2000 and 5000
    the value [1 - 2 ^ -52] gives 5001. *)
Theorem X4_getRandomDelay_bounds :
  (forall min max r rs,
     unit_draw r -> - 2 ^ 51 <= min -> min <= max -> max <= 2 ^ 51 ->
     exists ms,
       getRandomDelay min max (r :: rs) = Run (Ok ms) rs [] /\ min <= ms <= max + 1) /\
  unit_draw last_draw /\
  getRandomDelay 2000 5000 [last_draw] = Run (Ok 5001) [] [].
Proof.
  split; [|split; [apply last_draw_unit|by vm_compute]].
  intros min max r rs Hr Hmin Hle Hmax. exists (delay_of min max r).
  split; [apply getRandomDelay_run|by apply delay_range].
Qed.

Lemma half_unit : unit_draw (1#2)%Q.
Proof. split; vm_compute; congruence. Defined.

(** Witness of X4: the pause of the orchestrator for the draw 1/2. *)
Lemma X4_witness :
  exists ms,
    getRandomDelay 2000 5000 [1#2]%Q = Run (Ok ms) [] [] /\ 2000 <= ms <= 5000 + 1.
Proof.
  apply (proj1 X4_getRandomDelay_bounds 2000 5000 (1#2)%Q [] half_unit); lia.
Defined.

(** ** The credential *)

Lemma makePostRequest_locked w url data rs :
  token_set w = false ->
  makePostRequest w url data rs = Run (Exit 1) rs [Console LError MsgTokenMustBeSet].
Proof. intros H. unfold makePostRequest. by rewrite H. Qed.

Lemma selectLoop_no_request title images rs url data : forall st,
  Request url data ∉ emitted (selectLoop title images st rs).
Proof.
  intros st H.
  destruct (selectLoop_emitted title images rs st) as [He|He]; rewrite He in H.
  - by apply elem_of_nil in H.
  - apply elem_of_cons in H as [H|H]; [done|]. by apply elem_of_nil in H.
Qed.

Lemma applyBoost_needs_token w c rs url data :
  Request url data ∈ emitted (applyBoost w c rs) -> token_set w = true.
Proof.
  rewrite applyBoost_target. destruct (boost_target c) as [k|]; intros H.
  - apply bind_emitted in H as [H|(resp & _ & H)].
    + by eapply makePostRequest_needs_token.
    + destruct resp; emitted_cases H; by subst.
  - emitted_cases H. by subst.
Qed.

Lemma getVoteImages_needs_token w c rs url data :
  Request url data ∈ emitted (getVoteImages w c rs) -> token_set w = true.
Proof.
  unfold getVoteImages. intros H.
  apply bind_emitted in H as [H|(? & _ & H)]; [by apply console_emitted in H|].
  apply bind_emitted in H as [H|(resp & _ & H)].
  - by eapply makePostRequest_needs_token.
  - destruct resp as [[cs|v|]|]; [| destruct (vi_images v) | |];
      emitted_cases H; by subst.
Qed.

Lemma submitVotes_needs_token w vi rs url data :
  Request url data ∈ emitted (submitVotes w vi rs) -> token_set w = true.
Proof.
  unfold submitVotes. destruct (vi_images vi) as [|img images]; intros H.
  - emitted_cases H. by subst.
  - apply bind_emitted in H as [H|(st & _ & H)];
      [by apply selectLoop_no_request in H|].
    apply bind_emitted in H as [H|(resp & _ & H)].
    + by eapply makePostRequest_needs_token.
    + destruct resp; emitted_cases H; by subst.
Qed.

(** X5. Without a credential (TOKEN absent or empty) nothing is sent: a
    cycle prints that the TOKEN must be set and stops the process with code
    1 before its first request, and neither [applyBoost] nor
    [getVoteImages] nor [submitVotes] emits a request. *)
Theorem X5_no_request_without_token w rs :
  token_set w = false ->
  fetchChallengesAndVote w rs =
    Run (Exit 1) rs [Console LLog MsgGettingChallenges; Console LError MsgTokenMustBeSet] /\
  (forall c url data, Request url data ∉ emitted (applyBoost w c rs)) /\
  (forall c url data, Request url data ∉ emitted (getVoteImages w c rs)) /\
  (forall v url data, Request url data ∉ emitted (submitVotes w v rs)).
Proof.
  intros Htok. split; [|split; [|split]].
  - unfold fetchChallengesAndVote, getActiveChallenges.
    unfold bind at 1 2 3. cbn [console emit out rest emitted].
    by rewrite makePostRequest_locked.
  - intros c url data H. apply applyBoost_needs_token in H. congruence.
  - intros c url data H. apply getVoteImages_needs_token in H. congruence.
  - intros v url data H. apply submitVotes_needs_token in H. congruence.
Qed.

(** A world without a credential. *)
Lemma X5_witness :
  fetchChallengesAndVote
    {| TOKEN := None; axios := fun _ _ => Responded None;
       date_now := 0; locale_time := "" |} [] =
  Run (Exit 1) [] [Console LLog MsgGettingChallenges; Console LError MsgTokenMustBeSet].
Proof.
  refine (proj1 (X5_no_request_without_token _ [] _)). reflexivity.
Defined.

(** ** The cycle and its first request *)

Lemma getActiveChallenges_run w rs :
  token_set w = true ->
  getActiveChallenges w rs =
    match axios w GetMyActiveChallenges [] with
    | Responded (Some (JChallenges cs)) =>
        Run (Ok (Some cs)) rs
            [Console LLog MsgGettingChallenges; Request GetMyActiveChallenges []]
    | Responded (Some _) =>
        Run (Ok None) rs
            [Console LLog MsgGettingChallenges; Request GetMyActiveChallenges []]
    | Responded None =>
        Run (Ok (Some [])) rs
            [Console LLog MsgGettingChallenges; Request GetMyActiveChallenges [];
             Console LError MsgFailedChallenges]
    | Rejected e =>
        Run (Ok (Some [])) rs
            [Console LLog MsgGettingChallenges; Request GetMyActiveChallenges [];
             Console LError (MsgPostError GetMyActiveChallenges e);
             Console LError MsgFailedChallenges]
    end.
Proof.
  intros Htok. unfold getActiveChallenges, makePostRequest. rewrite Htok.
  by destruct (axios w GetMyActiveChallenges []) as [[[cs|v|]|]|e].
Qed.

Lemma cycle_run w rs cs :
  token_set w = true ->
  out (getActiveChallenges w rs) = Ok (Some cs) ->
  rest (getActiveChallenges w rs) = rs ->
  fetchChallengesAndVote w rs =
    let l := forOf (applyBoost w) (getVoteImages w) (submitVotes w)
               (date_now w / 1000) cs rs in
    match out l with
    | Ok _ => Run (Ok tt) (rest l)
                (emitted (getActiveChallenges w rs) ++ emitted l ++
                 [Console LLog (MsgCompleted (locale_time w))])
    | _ => Run (out l) (rest l) (emitted (getActiveChallenges w rs) ++ emitted l)
    end.
Proof.
  intros Htok Ho Hr. unfold fetchChallengesAndVote.
  rewrite (bind_Ok _ _ _ _ Ho), Hr. cbn zeta.
  unfold bind.
  destruct (forOf _ _ _ _ cs rs) as [[[]|e|code|] rs' evs]; cbn; try done.
Qed.

(** X6. With the credential set, a cycle opens with one request for the
    active challenges.  When it is rejected or answered without data the
    failure is printed, no challenge is processed, no other request is made
    and the cycle completes normally; when it is answered with challenges
    the cycle is the loop over them followed by the line of completion;
    when the answer holds no array of challenges the cycle throws before
    the loop. *)
Theorem X6_cycle_first_request w rs :
  token_set w = true ->
  let opening := [Console LLog MsgGettingChallenges; Request GetMyActiveChallenges []] in
  let completed := Console LLog (MsgCompleted (locale_time w)) in
  (axios w GetMyActiveChallenges [] = Responded None ->
     fetchChallengesAndVote w rs =
       Run (Ok tt) rs (opening ++ [Console LError MsgFailedChallenges; completed])) /\
  (forall e, axios w GetMyActiveChallenges [] = Rejected e ->
     fetchChallengesAndVote w rs =
       Run (Ok tt) rs
           (opening ++ [Console LError (MsgPostError GetMyActiveChallenges e);
                        Console LError MsgFailedChallenges; completed])) /\
  (forall cs, axios w GetMyActiveChallenges [] = Responded (Some (JChallenges cs)) ->
     fetchChallengesAndVote w rs = cycle_over w cs rs) /\
  (forall j, axios w GetMyActiveChallenges [] = Responded (Some j) ->
     (forall cs, j <> JChallenges cs) ->
     fetchChallengesAndVote w rs = Run (Throw not_iterable) rs opening).
Proof.
  intros Htok opening completed.
  pose proof (getActiveChallenges_run w rs Htok) as Hg.
  split; [|split; [|split]].
  - intros Hax. rewrite Hax in Hg.
    rewrite (cycle_run w rs []) by (try done; by rewrite Hg). by rewrite Hg.
  - intros e Hax. rewrite Hax in Hg.
    rewrite (cycle_run w rs []) by (try done; by rewrite Hg). by rewrite Hg.
  - intros cs Hax. rewrite Hax in Hg.
    rewrite (cycle_run w rs cs) by (try done; by rewrite Hg). rewrite Hg.
    unfold cycle_over. cbn zeta.
    by destruct (out (forOf _ _ _ _ cs rs)).
  - intros j Hax Hj. rewrite Hax in Hg. unfold fetchChallengesAndVote.
    destruct j as [cs|v|]; [by destruct (Hj cs)| |];
      unfold bind at 1; by rewrite Hg.
Qed.

(** Witness of X6: a world that acknowledges the request without
    challenges. *)
Lemma X6_witness :
  fetchChallengesAndVote friendly_world [] =
    Run (Throw not_iterable) []
        [Console LLog MsgGettingChallenges; Request GetMyActiveChallenges []].
Proof.
  refine (proj2 (proj2 (proj2 (X6_cycle_first_request friendly_world [] _)))
            JOther _ _); done.
Defined.

(** ** getVoteImages *)

(** Membership in an explicit list of events, decided entry by entry. *)
Ltac listed H :=
  repeat (apply elem_of_cons in H as [H|H]; [by inversion H|]);
  by apply elem_of_nil in H.

Lemma getVoteImages_run w c rs :
  token_set w = true ->
  let opening := [Console LLog (MsgFetchingVoteImages (ch_title c));
                  Request GetVoteImages (fetch_data c)] in
  let skipped := Console LWarn (MsgNoImagesAvailable (ch_title c)) in
  getVoteImages w c rs =
    match axios w GetVoteImages (fetch_data c) with
    | Responded (Some (JVoteImages v)) =>
        match vi_images v with
        | [] => Run (Ok None) rs (opening ++ [skipped])
        | _ :: _ =>
            Run (Ok (Some v)) rs
                (opening ++ [Console LLog (MsgFetchedImages (length (vi_images v))
                                             (ch_title c))])
        end
    | Responded _ => Run (Ok None) rs (opening ++ [skipped])
    | Rejected e =>
        Run (Ok None) rs
            (opening ++ [Console LError (MsgPostError GetVoteImages e); skipped])
    end.
Proof.
  intros Htok. unfold getVoteImages, makePostRequest. rewrite Htok.
  fold (fetch_data c).
  destruct (axios w GetVoteImages (fetch_data c)) as [[[cs|v|]|]|e]; try done.
  cbn. by destruct (vi_images v).
Qed.

(** X8. [getVoteImages] never throws and uses no random value.  With the
    credential set it sends exactly one request, for at most 100 images of
    the challenge's url, and it hands over a pool exactly when the platform
    answered with one that has images; a rejected request, an empty answer,
    an answer of another shape or an empty list of images gives null after
    a warning. *)
Theorem X8_getVoteImages w c rs :
  (forall e, out (getVoteImages w c rs) <> Throw e) /\
  rest (getVoteImages w c rs) = rs /\
  (forall v, out (getVoteImages w c rs) = Ok (Some v) <->
     token_set w = true /\ usable_pool w c v) /\
  (token_set w = true ->
     requests_to GetVoteImages (emitted (getVoteImages w c rs)) = 1%nat /\
     (forall url data, Request url data ∈ emitted (getVoteImages w c rs) ->
        url = GetVoteImages /\ data = fetch_data c) /\
     (out (getVoteImages w c rs) = Ok None ->
        Console LWarn (MsgNoImagesAvailable (ch_title c))
          ∈ emitted (getVoteImages w c rs))).
Proof.
  destruct (token_set w) eqn:Htok.
  - pose proof (getVoteImages_run w c rs Htok) as Hrun. cbn zeta in Hrun.
    unfold usable_pool.
    destruct (axios w GetVoteImages (fetch_data c)) as [[[cs|v|]|]|e] eqn:Hax;
      [|destruct (vi_images v) as [|img imgs] eqn:Himgs| | |];
      rewrite Hrun; cbn [out rest emitted];
      (split; [done|]); (split; [done|]); split.
    + intros v'. split; [done|]. by intros (_ & [=] & _).
    + intros _. split; [reflexivity|]. split; [|intros _; repeat constructor].
      intros url data H. by listed H.
    + intros v'. split; [done|]. intros (_ & [= <-] & Hne). congruence.
    + intros _. split; [reflexivity|]. split; [|intros _; repeat constructor].
      intros url data H. by listed H.
    + intros v'. split.
      * intros [= <-]. split; [done|]. split; [done|]. by rewrite Himgs.
      * by intros (_ & [= <-] & _).
    + intros _. split; [reflexivity|]. split; [|done].
      intros url data H. by listed H.
    + intros v'. split; [done|]. by intros (_ & [=] & _).
    + intros _. split; [reflexivity|]. split; [|intros _; repeat constructor].
      intros url data H. by listed H.
    + intros v'. split; [done|]. by intros (_ & [=] & _).
    + intros _. split; [reflexivity|]. split; [|intros _; repeat constructor].
      intros url data H. by listed H.
    + intros v'. split; [done|]. by intros (_ & [=] & _).
    + intros _. split; [reflexivity|]. split; [|intros _; repeat constructor].
      intros url data H. by listed H.
  - split; [|split; [apply getVoteImages_rest|split; [|done]]].
    + intros e. unfold getVoteImages. rewrite console_bind. cbn [out].
      unfold bind. by rewrite makePostRequest_locked.
    + intros v. split; [|by intros [? _]].
      unfold getVoteImages. rewrite console_bind. cbn [out].
      unfold bind. by rewrite makePostRequest_locked.
Qed.

(** Witness of X8: the one request of a fetch with the credential set. *)
Lemma X8_witness :
  requests_to GetVoteImages
    (emitted (getVoteImages voting_world example_challenge [])) = 1%nat.
Proof.
  refine (proj1 (proj2 (proj2 (proj2
    (X8_getVoteImages voting_world example_challenge []))) _)).
  reflexivity.
Defined.

(** ** The selection loop and submitVotes *)

(** What is left of the supply is an end of what was there. *)
Lemma selectLoop_rest title images rs : forall st,
  exists used, rs = used ++ rest (selectLoop title images st rs).
Proof.
  induction rs as [|r rs IH]; intros st; simpl.
  - destruct (exposure_factor st <? 100); by exists [].
  - destruct (exposure_factor st <? 100); [|by exists []].
    destruct (loop_body images st r) as [| |st1|st1]; cbn [rest].
    + by exists [r].
    + destruct (IH st) as [used Hu]. exists (r :: used). simpl. by f_equal.
    + destruct (IH st1) as [used Hu]. exists (r :: used). simpl. by f_equal.
    + by exists [r].
Qed.

Lemma selectLoop_rest_unit title images rs st :
  Forall unit_draw rs -> Forall unit_draw (rest (selectLoop title images st rs)).
Proof.
  intros H. destruct (selectLoop_rest title images rs st) as [used Hu].
  rewrite Hu in H. by apply Forall_app in H as [_ ?].
Qed.

(** A value of [Math.random] always picks an image of a non-empty pool. *)
Lemma loop_body_defined images st r :
  images <> [] -> unit_draw r -> loop_body images st r <> Undefined.
Proof.
  intros Hne Hr.
  assert (Hrange : 0 <= randomIndex r (length images) < Z.of_nat (length images)).
  { apply randomIndex_range; [done|]. destruct images; [done|simpl; lia]. }
  destruct (js_index_Some images _ Hrange) as (img & Hjs & _).
  rewrite (loop_body_drawn _ _ _ _ Hjs).
  destruct (decide _); [done|]. by destruct (_ =? _)%nat.
Qed.

Lemma selectLoop_no_throw title images rs : forall st e,
  images <> [] -> Forall unit_draw rs ->
  out (selectLoop title images st rs) <> Throw e.
Proof.
  induction rs as [|r rs IH]; intros st e Hne Hrs; simpl;
    destruct (exposure_factor st <? 100); try done.
  inversion Hrs as [|? ? Hr Hrs']; subst.
  pose proof (loop_body_defined images st r Hne Hr).
  destruct (loop_body images st r); try done; by apply IH.
Qed.

Lemma field_values_map_voted k ids :
  String.eqb "image_ids[]" k = false -> field_values k (map voted_field ids) = [].
Proof.
  intros Hk. induction ids as [|i ids IH]; [done|].
  unfold field_values in *. cbn [map List.filter voted_field fst]. by rewrite Hk.
Qed.

Lemma field_values_map_viewed k images :
  String.eqb "viewed_image_ids[]" k = false ->
  field_values k (map viewed_field images) = [].
Proof.
  intros Hk. induction images as [|i images IH]; [done|].
  unfold field_values in *. cbn [map List.filter viewed_field fst]. by rewrite Hk.
Qed.

(** ** The body sent and the body read *)

Lemma occurs_app a s t : occurs a (s +:+ t) = occurs a s || occurs a t.
Proof.
  induction s as [|b s IH]; [done|]. simpl. by rewrite IH, orb_assoc.
Qed.

Lemma split_on_clean sep p : occurs sep p = false -> split_on sep p = [p].
Proof.
  induction p as [|a p IH]; [done|]. cbn [occurs split_on].
  intros [Ha Hp]%orb_false_iff. by rewrite Ha, (IH Hp).
Qed.

Lemma split_on_app sep p s :
  occurs sep p = false ->
  split_on sep (p +:+ String sep s) = p :: split_on sep s.
Proof.
  induction p as [|a p IH]; simpl.
  - intros _. by rewrite Ascii.eqb_refl.
  - intros [Ha Hp]%orb_false_iff. by rewrite Ha, (IH Hp).
Qed.

Lemma form_field_app k v :
  occurs "=" k = false -> form_field (k +:+ "=" +:+ v) = (k, v).
Proof.
  induction k as [|a k IH]; simpl.
  - done.
  - intros [Ha Hk]%orb_false_iff. by rewrite Ha, (IH Hk).
Qed.

(** What [encodeURIComponent] puts out for one byte holds no [&]. *)
Lemma encoded_byte_clean a :
  occurs "&" (if unreserved a then String a EmptyString else percent_encoded a) = false.
Proof. by destruct a as [[] [] [] [] [] [] [] []]; vm_compute. Qed.

Lemma encodeURIComponent_clean s : occurs "&" (encodeURIComponent s) = false.
Proof.
  induction s as [|a s IH]; [done|]. cbn [encodeURIComponent].
  by rewrite occurs_app, encoded_byte_clean, IH.
Qed.

Lemma wire_field_clean f : clean_field f -> occurs "&" (wire_field f) = false.
Proof.
  intros (Hk & _ & Hv). unfold wire_field.
  rewrite !occurs_app, Hv. cbn [sent_field fst]. by rewrite Hk.
Qed.

Lemma wire_field_read f : clean_field f -> form_field (wire_field f) = sent_field f.
Proof.
  intros (_ & Hk & _). unfold wire_field.
  rewrite form_field_app by done. by destruct f.
Qed.

Lemma wire_field_filled f : negb (String.eqb (wire_field f) "") = true.
Proof.
  unfold wire_field. destruct (fst (sent_field f)); [done|done].
Qed.

Lemma wire_pieces b :
  b <> [] -> Forall clean_field b -> split_on "&" (wire b) = map wire_field b.
Proof.
  intros Hne Hb. induction Hb as [|f b Hf Hb IH]; [done|].
  destruct b as [|g b].
  - cbn [wire map]. by apply split_on_clean, wire_field_clean.
  - change (wire (f :: g :: b)) with (wire_field f +:+ String "&" (wire (g :: b))).
    rewrite split_on_app by (by apply wire_field_clean).
    cbn [map]. f_equal. by apply IH.
Qed.

(** The fields read from the string are the fields sent. *)
Lemma form_fields_wire b :
  Forall clean_field b -> form_fields (wire b) = map sent_field b.
Proof.
  intros Hb. destruct b as [|f b]; [done|].
  unfold form_fields. rewrite wire_pieces by done.
  assert (Hall : forall l, Forall clean_field l ->
            map form_field
              (List.filter (fun piece => negb (String.eqb piece "")) (map wire_field l))
            = map sent_field l).
  { induction 1 as [|g l Hg _ IH]; [done|].
    cbn [map List.filter]. rewrite wire_field_filled. cbn [map].
    by rewrite (wire_field_read g Hg), IH. }
  by apply Hall.
Qed.

Lemma submit_data_clean c ids images :
  occurs "&" (ch_id c) = false ->
  Forall clean_field
    (submit_data c (map voted_field ids) (map viewed_field images)).
Proof.
  intros Hid. unfold submit_data. repeat apply Forall_app_2.
  - by repeat constructor.
  - apply Forall_forall. intros f [id [-> _]]%list_elem_of_fmap.
    repeat split; try done. apply encodeURIComponent_clean.
  - by repeat constructor.
  - apply Forall_forall. intros f [img [-> _]]%list_elem_of_fmap.
    repeat split; try done. apply encodeURIComponent_clean.
Qed.

Lemma sent_submit_data c ids images :
  map sent_field (submit_data c (map voted_field ids) (map viewed_field images)) =
    [("c_id", ch_id c)]
    ++ map voted_field (map encodeURIComponent ids)
    ++ [("layout", "scroll")]
    ++ map (fun img => ("viewed_image_ids[]", encodeURIComponent (img_id img))) images.
Proof.
  unfold submit_data. rewrite !map_app, !map_map. done.
Qed.

Lemma field_values_map_sent_viewed k images :
  String.eqb "viewed_image_ids[]" k = false ->
  field_values k
    (map (fun img => ("viewed_image_ids[]", encodeURIComponent (img_id img))) images) = [].
Proof.
  intros Hk. induction images as [|i images IH]; [done|].
  unfold field_values in *. cbn [map List.filter fst]. by rewrite Hk.
Qed.

Lemma field_values_sent_viewed images :
  field_values "viewed_image_ids[]"
    (map (fun img => ("viewed_image_ids[]", encodeURIComponent (img_id img))) images) =
  map (fun img => encodeURIComponent (img_id img)) images.
Proof.
  induction images as [|i images IH]; [done|].
  unfold field_values in *. cbn [map List.filter fst snd String.eqb]. simpl.
  by rewrite IH.
Qed.

Lemma field_values_voted ids :
  field_values "image_ids[]" (map voted_field ids) = ids.
Proof.
  induction ids as [|i ids IH]; [done|].
  unfold field_values in *. cbn [map List.filter voted_field fst snd]. simpl.
  by rewrite IH.
Qed.

(** X10. The body of a vote submission, as the platform reads it off the
    string sent.  When the identifier of the challenge holds no [&], the
    fields read are the fields put together, with the image identifiers
    encoded: the challenge is named once, the layout marker [scroll] is
    there once, there is no field besides these, the votes and the viewed
    images, and every vote is for an image reported as viewed.  The
    identifier of the challenge is not encoded: with [7&layout=grid] the
    platform reads the challenge 7 and two layout fields. *)
Theorem X10_submission_body :
  (forall w vi rs data,
     Request SubmitVote data ∈ emitted (submitVotes w vi rs) ->
     occurs "&" (ch_id (vi_challenge vi)) = false ->
     let read := form_fields (wire data) in
     read = map sent_field data /\
     field_values "c_id" read = [ch_id (vi_challenge vi)] /\
     field_values "layout" read = ["scroll"] /\
     length read = (2 + length (voted_ids read) + length (viewed_ids read))%nat /\
     (forall id, id ∈ voted_ids read -> id ∈ viewed_ids read)) /\
  (exists data,
     Request SubmitVote data ∈ emitted (submitVotes friendly_world forged_vote []) /\
     wire data = "c_id=7&layout=grid&layout=scroll&viewed_image_ids[]=a" /\
     field_values "c_id" (form_fields (wire data)) = ["7"] /\
     field_values "layout" (form_fields (wire data)) = ["grid"; "scroll"]).
Proof.
  split.
  - intros w vi rs data H Hid read.
    apply submitVotes_request in H as (st & Hst & _ & ->).
    destruct (selectLoop_exit _ _ _ _ _ _ _ (chosen_by_initial _ _) Hst)
      as (chosen & Hc & _).
    assert (Hread : read =
              [("c_id", ch_id (vi_challenge vi))]
              ++ map voted_field (map encodeURIComponent (map img_id chosen))
              ++ [("layout", "scroll")]
              ++ map (fun img => ("viewed_image_ids[]", encodeURIComponent (img_id img)))
                   (vi_images vi)).
    { unfold read. rewrite (chosen_by_fields _ _ _ _ Hc).
      rewrite form_fields_wire by (by apply submit_data_clean).
      apply sent_submit_data. }
    split.
    { unfold read. rewrite (chosen_by_fields _ _ _ _ Hc).
      apply form_fields_wire. by apply submit_data_clean. }
    assert (Hvoted : voted_ids read = map encodeURIComponent (map img_id chosen)).
    { rewrite Hread. unfold voted_ids. rewrite !field_values_app.
      rewrite field_values_voted, field_values_map_sent_viewed by done.
      cbn. by rewrite app_nil_r. }
    assert (Hviewed : viewed_ids read =
              map (fun img => encodeURIComponent (img_id img)) (vi_images vi)).
    { rewrite Hread. unfold viewed_ids. rewrite !field_values_app.
      rewrite field_values_map_voted, field_values_sent_viewed by done. done. }
    rewrite Hvoted, Hviewed. rewrite Hread.
    rewrite !field_values_app.
    rewrite !field_values_map_voted, !field_values_map_sent_viewed by done.
    split; [done|]. split; [done|]. split.
    + rewrite !length_app, !length_map. simpl. lia.
    + intros id Hid'. apply list_elem_of_fmap in Hid' as (i & -> & Hi).
      apply list_elem_of_fmap in Hi as (img & -> & Himg).
      apply list_elem_of_fmap. exists img. split; [done|].
      pose proof (cb_pool _ _ _ _ Hc) as Hp. rewrite Forall_forall in Hp. auto.
  - eexists. split; [vm_compute; apply list_elem_of_here|]. by vm_compute.
Qed.

(** Witness of X10: the example pool entered at 60, drawing b then a. *)
Lemma X10_witness :
  field_values "c_id"
    (form_fields (wire (submit_data example_challenge [voted_field "b"; voted_field "a"]
       (map viewed_field example_pool)))) = ["7"].
Proof.
  refine (proj1 (proj2 (proj1 X10_submission_body friendly_world
                          (example_vote 60 example_pool) [1#3; 0]%Q _ _ _))).
  - vm_compute. apply list_elem_of_here.
  - reflexivity.
Defined.

(** Up to its last accepted draw the loop stays below the target. *)
Lemma selectLoop_last title images e rs : forall st chosen st',
  chosen_by images e st chosen ->
  exposure_factor st < 100 ->
  out (selectLoop title images st rs) = Ok st' ->
  exists more last,
    chosen_by images e st' (chosen ++ more ++ [last]) /\
    e + sum_ratios (chosen ++ more) < 100.
Proof.
  induction rs as [|r rs IH]; intros st chosen st' Hc Hlt.
  - by rewrite selectLoop_nil.
  - rewrite selectLoop_cons by done.
    destruct (loop_body images st r) as [| |st1|st1] eqn:Hb; try done.
    + by apply IH.
    + destruct (loop_body_accept _ _ _ _ (or_introl Hb)) as (img & Hin & Hfresh & ->).
      pose proof (chosen_by_accept _ _ _ _ _ Hc Hin Hfresh) as Hc1.
      destruct (Z.lt_ge_cases (exposure_factor (accept st img)) 100) as [Hlt1|Hge].
      * intros H. destruct (IH _ _ _ Hc1 Hlt1 H) as (more & last & Hc' & Hs).
        exists (img :: more), last. rewrite <- app_assoc in Hc', Hs. by split.
      * rewrite selectLoop_done by done. intros [= <-].
        exists [], img. rewrite app_nil_r. split; [done|].
        by rewrite <- (cb_total _ _ _ _ Hc).
    + destruct (loop_body_accept _ _ _ _ (or_intror Hb)) as (img & Hin & Hfresh & ->).
      intros [= <-]. exists [], img. rewrite app_nil_r.
      split; [by apply chosen_by_accept|]. by rewrite <- (cb_total _ _ _ _ Hc).
Qed.

(** X11. The loop stops at the first accepted image that brings the
    exposure to the target: entered below 100, it returns a selection with
    a last image before which the total was still below 100; entered at 100
    or more, it returns the empty selection. *)
Theorem X11_no_vote_beyond_target title images e rs st :
  out (selectLoop title images (initial e) rs) = Ok st ->
  (e < 100 ->
     exists before last,
       chosen_by images e st (before ++ [last]) /\
       e + sum_ratios before < 100 /\
       exposure_factor st = e + sum_ratios before + img_ratio last) /\
  (100 <= e -> st = initial e).
Proof.
  intros H. split.
  - intros Hlt.
    destruct (selectLoop_last title images e rs _ [] st (chosen_by_initial images e)
                Hlt H) as (more & last & Hc & Hs).
    exists more, last. simpl in *. split; [done|]. split; [done|].
    rewrite (cb_total _ _ _ _ Hc), sum_ratios_app. simpl. lia.
  - intros Hge. rewrite selectLoop_done in H by done. by injection H.
Qed.

(** Witness of X11: the example pool entered at 60, drawing b then a. *)
Lemma X11_witness :
  (60 < 100 ->
     exists before last,
       chosen_by example_pool 60
         (accept (accept (initial 60) (Image "b" 30)) (Image "a" 40)) (before ++ [last]) /\
       60 + sum_ratios before < 100 /\
       exposure_factor (accept (accept (initial 60) (Image "b" 30)) (Image "a" 40))
         = 60 + sum_ratios before + img_ratio last) /\
  (100 <= 60 ->
     accept (accept (initial 60) (Image "b" 30)) (Image "a" 40) = initial 60).
Proof.
  apply (X11_no_vote_beyond_target "t" example_pool 60 [1#3; 0]%Q).
  reflexivity.
Defined.

(** ** The loop body for one challenge *)

Section AtRest.

Variable applyBoost_ : challenge -> M (option json).
Variable getVoteImages_ : challenge -> M (option voteImages).
Variable submitVotes_ : voteImages -> M (option json).

Lemma voteStep_skip now c rs :
  ~ vote_due now c ->
  voteStep getVoteImages_ submitVotes_ now c rs = Run (Ok tt) rs [].
Proof.
  intros Hn. unfold voteStep.
  destruct (_ && _) eqn:Hg; [|done]. by apply vote_due_test in Hg.
Qed.

Lemma processChallenge_at_rest now c rs :
  at_rest now c ->
  out (processChallenge applyBoost_ getVoteImages_ submitVotes_ now c rs) = Ok tt /\
  rest (processChallenge applyBoost_ getVoteImages_ submitVotes_ now c rs) = rs /\
  Forall (fun ev => is_boost_available_line ev = true)
    (emitted (processChallenge applyBoost_ getVoteImages_ submitVotes_ now c rs)).
Proof.
  intros [Hb Hv]. unfold processChallenge.
  destruct (boostStep_skip applyBoost_ now c rs Hb) as (Ho & Hr & He).
  rewrite (bind_Ok _ _ _ _ Ho), Hr, (voteStep_skip now c rs Hv).
  cbn [out rest emitted]. rewrite app_nil_r. split; [done|]. split; [done|].
  destruct He as [-> | ->]; repeat constructor.
Qed.

Lemma forOf_at_rest now cs : forall rs,
  Forall (at_rest now) cs ->
  out (forOf applyBoost_ getVoteImages_ submitVotes_ now cs rs) = Ok tt /\
  rest (forOf applyBoost_ getVoteImages_ submitVotes_ now cs rs) = rs /\
  Forall (fun ev => is_boost_available_line ev = true)
    (emitted (forOf applyBoost_ getVoteImages_ submitVotes_ now cs rs)).
Proof.
  induction cs as [|c cs IH]; intros rs Hall; [by repeat split|].
  inversion Hall as [|? ? Hc Hcs]; subst.
  destruct (processChallenge_at_rest now c rs Hc) as (Ho & Hr & He).
  rewrite (forOf_cons_Ok _ _ _ _ _ _ _ Ho). unfold then_run. cbn [out rest emitted].
  rewrite Hr. destruct (IH rs Hcs) as (Ho' & Hr' & He').
  split; [done|]. split; [done|]. by apply Forall_app.
Qed.

End AtRest.

Lemma boostStep_uncalled ab ab' now c rs :
  boost_tests now (mb_boost (ch_member c)) = false ->
  boostStep ab now c rs = boostStep ab' now c rs.
Proof.
  unfold boost_tests, boostStep. destruct (boost_available _); [|done].
  simpl. by intros ->.
Qed.

Lemma processChallenge_uncalled ab gv sv ab' gv' sv' now c rs :
  at_rest now c ->
  processChallenge ab gv sv now c rs = processChallenge ab' gv' sv' now c rs.
Proof.
  intros [Hb Hv]. unfold processChallenge, bind.
  rewrite (boostStep_uncalled ab ab' now c rs Hb).
  destruct (out (boostStep ab' now c rs)); try done.
  by rewrite !voteStep_skip.
Qed.

Lemma forOf_uncalled ab gv sv ab' gv' sv' now cs : forall rs,
  Forall (at_rest now) cs ->
  forOf ab gv sv now cs rs = forOf ab' gv' sv' now cs rs.
Proof.
  induction cs as [|c cs IH]; intros rs Hall; [done|].
  inversion Hall as [|? ? Hc Hcs]; subst. simpl. unfold bind.
  rewrite (processChallenge_uncalled ab gv sv ab' gv' sv' now c rs Hc).
  destruct (out (processChallenge ab' gv' sv' now c rs)); try done.
  by rewrite IH.
Qed.

(** X12. Challenges that need nothing cost nothing: when for every
    challenge of the list the boost tests fail and the exposure is at the
    target or the start time is not yet past, the loop ends normally, uses
    no random value, prints at most that a boost is available, and does
    the same whatever [applyBoost], [getVoteImages] and [submitVotes] are:
    none of them is called. *)
Theorem X12_idle_challenges applyBoost_ getVoteImages_ submitVotes_ now cs rs :
  Forall (at_rest now) cs ->
  out (forOf applyBoost_ getVoteImages_ submitVotes_ now cs rs) = Ok tt /\
  rest (forOf applyBoost_ getVoteImages_ submitVotes_ now cs rs) = rs /\
  Forall (fun ev => is_boost_available_line ev = true)
    (emitted (forOf applyBoost_ getVoteImages_ submitVotes_ now cs rs)) /\
  (forall applyBoost' getVoteImages' submitVotes',
     forOf applyBoost_ getVoteImages_ submitVotes_ now cs rs =
     forOf applyBoost' getVoteImages' submitVotes' now cs rs).
Proof.
  intros Hall.
  destruct (forOf_at_rest applyBoost_ getVoteImages_ submitVotes_ now cs rs Hall)
    as (Ho & Hr & He).
  split; [done|]. split; [done|]. split; [done|].
  intros ab' gv' sv'. by apply forOf_uncalled.
Qed.

(** Witness of X12: a challenge at the target without an available boost. *)
Lemma X12_witness :
  out (forOf (applyBoost friendly_world) (getVoteImages friendly_world)
         (submitVotes friendly_world) 1700000000
         [{| ch_id := "7"; ch_title := "Street"; ch_url := "street";
             ch_start_time := 1600000000; ch_member := quiet_member 100 |}] []) = Ok tt.
Proof.
  refine (proj1 (X12_idle_challenges _ _ _ 1700000000 _ [] _)).
  repeat constructor. unfold vote_due. simpl. lia.
Defined.

Lemma processOne_run w now c rs :
  token_set w = true ->
  processOne w now c rs =
    then_run (boostStep (applyBoost w) now c rs)
             (voteStep (getVoteImages w) (submitVotes w) now c rs).
Proof.
  intros Htok. unfold processOne, processChallenge.
  rewrite (bind_Ok _ _ _ _ (boostStep_impl_ok w now c rs Htok)).
  by rewrite (boostStep_drawless w now c rs).
Qed.

(** ** The pause *)

Lemma makePostRequest_no_sleep w url data rs ms :
  Sleep ms ∉ emitted (makePostRequest w url data rs).
Proof. intros H. by apply makePostRequest_quiet in H as [H|[m H]]. Qed.

Lemma applyBoost_no_sleep w c rs ms : Sleep ms ∉ emitted (applyBoost w c rs).
Proof.
  rewrite applyBoost_target. intros H. destruct (boost_target c) as [k|].
  - apply bind_emitted in H as [H|(resp & _ & H)];
      [by apply makePostRequest_no_sleep in H|].
    destruct resp; emitted_cases H; by subst.
  - emitted_cases H. by subst.
Qed.

Lemma boostStep_no_sleep w now c rs ms :
  Sleep ms ∉ emitted (boostStep (applyBoost w) now c rs).
Proof.
  unfold boostStep. intros H.
  destruct (boost_available _); [|by apply ret_emitted in H].
  apply bind_emitted in H as [H|(? & _ & H)]; [by apply console_emitted in H|].
  destruct (_ && _); [|by apply ret_emitted in H].
  apply bind_emitted in H as [H|(? & _ & H)]; [by apply console_emitted in H|].
  apply try_catch_emitted in H as [H|(e & _ & H)].
  - apply bind_emitted in H as [H|(? & _ & H)]; [|by apply ret_emitted in H].
    by apply applyBoost_no_sleep in H.
  - by apply console_emitted in H.
Qed.

Lemma getVoteImages_no_sleep w c rs ms : Sleep ms ∉ emitted (getVoteImages w c rs).
Proof.
  unfold getVoteImages. intros H.
  apply bind_emitted in H as [H|(? & _ & H)]; [by apply console_emitted in H|].
  apply bind_emitted in H as [H|(resp & _ & H)];
    [by apply makePostRequest_no_sleep in H|].
  destruct resp as [[cs|v|]|]; [| destruct (vi_images v) | |];
    emitted_cases H; by subst.
Qed.

Lemma submitVotes_no_sleep w vi rs ms : Sleep ms ∉ emitted (submitVotes w vi rs).
Proof.
  unfold submitVotes. destruct (vi_images vi) as [|img images]; intros H.
  - emitted_cases H. by subst.
  - apply bind_emitted in H as [H|(st & _ & H)].
    + destruct (selectLoop_emitted (ch_title (vi_challenge vi)) (img :: images) rs
                  (initial (vi_exposure_factor vi))) as [He|He]; rewrite He in H;
        by listed H.
    + apply bind_emitted in H as [H|(resp & _ & H)];
        [by apply makePostRequest_no_sleep in H|].
      destruct resp; emitted_cases H; by subst.
Qed.

Lemma bind_rest_drawless {A B} (m : M A) (f : A -> M B) rs :
  (forall a, drawless (f a)) -> rest (bind m f rs) = rest (m rs).
Proof. intros Hf. unfold bind. destruct (out (m rs)); cbn; try done. apply Hf. Qed.

(** [submitVotes] uses random values in its loop only. *)
Lemma submitVotes_rest w vi rs :
  rest (submitVotes w vi rs) =
    match vi_images vi with
    | [] => rs
    | _ :: _ => rest (selectLoop (ch_title (vi_challenge vi)) (vi_images vi)
                        (initial (vi_exposure_factor vi)) rs)
    end.
Proof.
  unfold submitVotes. destruct (vi_images vi) as [|img images]; [done|].
  apply bind_rest_drawless. intros st.
  solve_drawless; apply makePostRequest_drawless.
Qed.

Lemma submitVotes_rest_unit w vi rs :
  Forall unit_draw rs -> Forall unit_draw (rest (submitVotes w vi rs)).
Proof.
  intros Hrs. rewrite submitVotes_rest. destruct (vi_images vi); [done|].
  by apply selectLoop_rest_unit.
Qed.

(** X14. The pause between challenges is taken only after the voting step
    has run to its end, that is after a usable pool was fetched and
    [submitVotes] returned; fed with values of [Math.random] it lasts
    between 2000 and 5001 milliseconds, the number [getRandomDelay]
    computes from the next value.  And it is taken whenever
    [submitVotes] returned, with the platform's answer or with null after a
    failed submission, and a random value is left for it. *)
Theorem X14_pause w now c rs :
  (forall ms,
     Forall unit_draw rs ->
     Sleep ms ∈ emitted (processOne w now c rs) ->
     vote_due now c /\
     (exists v res r,
        usable_pool w c v /\ out (submitVotes w v rs) = Ok res /\
        head (rest (submitVotes w v rs)) = Some r /\ ms = delay_of 2000 5000 r) /\
     2000 <= ms <= 5001) /\
  (forall v res r rs',
     token_set w = true -> vote_due now c -> usable_pool w c v ->
     out (submitVotes w v rs) = Ok res ->
     rest (submitVotes w v rs) = r :: rs' ->
     exists ms, Sleep ms ∈ emitted (processOne w now c rs)).
Proof.
  split.
  - intros ms Hrs H. unfold processOne, processChallenge in H.
    apply bind_emitted in H as [H|([] & _ & H)]; [by apply boostStep_no_sleep in H|].
    rewrite boostStep_drawless in H. unfold voteStep in H.
    destruct (_ && _) eqn:Hg; [|by apply ret_emitted in H].
    apply vote_due_test in Hg. split; [done|].
    apply try_catch_emitted in H as [H|(e & _ & H)]; [|emitted_cases H; by subst].
    apply bind_emitted in H as [H|(o & Ho & H)]; [by apply getVoteImages_no_sleep in H|].
    rewrite getVoteImages_rest in H.
    destruct o as [v|]; [|by apply ret_emitted in H].
    apply getVoteImages_result in Ho.
    apply bind_emitted in H as [H|(res & Hres & H)]; [by apply submitVotes_no_sleep in H|].
    pose proof (submitVotes_rest_unit w v rs Hrs) as Hu.
    destruct (rest (submitVotes w v rs)) as [|r rs'] eqn:Hrest.
    + by listed H.
    + inversion Hu as [|? ? Hr _]; subst.
      pose proof (delay_range 2000 5000 r Hr ltac:(lia) ltac:(lia) ltac:(lia)) as Hd.
      rewrite bind_Ok with (a := delay_of 2000 5000 r) in H
        by (by rewrite getRandomDelay_run).
      rewrite getRandomDelay_run in H. cbn [emitted rest app sleep emit] in H.
      apply elem_of_cons in H as [[= ->]|H]; [|by apply elem_of_nil in H].
      split; [|lia]. exists v, res, r. by rewrite Hrest.
  - intros v res r rs' Htok Hg Hv Hres Hrest.
    exists (delay_of 2000 5000 r).
    rewrite (processOne_run w now c rs Htok). unfold then_run. cbn [emitted].
    apply elem_of_app. right.
    unfold voteStep. apply vote_due_test in Hg. rewrite Hg.
    match goal with |- _ ∈ emitted (try_catch ?m ?h rs) =>
      destruct (try_catch_emitted_prefix m h rs) as [t1 ->] end.
    apply elem_of_app. left.
    pose proof (getVoteImages_usable w c rs v Htok Hv) as Hgv.
    eapply bind_emitted_r; [by rewrite Hgv|]. rewrite getVoteImages_rest.
    eapply bind_emitted_r; [exact Hres|]. rewrite Hrest.
    cbn. apply list_elem_of_here.
Qed.

(** Witness of X14: a started challenge in a world that serves the example
    pool, drawing a and then the pause. *)
Lemma X14_witness :
  vote_due 1700000000 (titled "First") /\
  (exists v res r,
     usable_pool voting_world (titled "First") v /\
     out (submitVotes voting_world v [0; 1#2]%Q) = Ok res /\
     head (rest (submitVotes voting_world v [0; 1#2]%Q)) = Some r /\
     3500 = delay_of 2000 5000 r) /\
  2000 <= 3500 <= 5001.
Proof.
  apply (proj1 (X14_pause voting_world 1700000000 (titled "First") [0; 1#2]%Q) 3500).
  - repeat constructor; vm_compute; congruence.
  - vm_compute. repeat constructor.
Defined.

(** ** Counting requests *)

Lemma requests_to_app u evs1 evs2 :
  requests_to u (evs1 ++ evs2) = (requests_to u evs1 + requests_to u evs2)%nat.
Proof. unfold requests_to. by rewrite List.filter_app, length_app. Qed.

Lemma sends_weaken {A} u n n' (m : M A) : sends u n m -> (n <= n')%nat -> sends u n' m.
Proof. intros H Hn rs. specialize (H rs). lia. Qed.

Lemma sends_ret {A} u (a : A) : sends u 0 (ret a).
Proof. by intros rs. Qed.

Lemma sends_console u l m : sends u 0 (console l m).
Proof. by intros rs. Qed.

Lemma sends_exit {A} u c : sends u 0 (process_exit (A := A) c).
Proof. by intros rs. Qed.

Lemma sends_bind {A B} u n k (m : M A) (f : A -> M B) :
  sends u n m -> (forall a, sends u k (f a)) -> sends u (n + k) (bind m f).
Proof.
  intros Hm Hf rs. unfold bind. specialize (Hm rs).
  destruct (out (m rs)) as [a| | |]; cbn [emitted]; try lia.
  rewrite requests_to_app. specialize (Hf a (rest (m rs))). lia.
Qed.

Lemma sends_try_catch {A} u n k (m : M A) (h : string -> M A) :
  sends u n m -> (forall e, sends u k (h e)) -> sends u (n + k) (try_catch m h).
Proof.
  intros Hm Hh rs. unfold try_catch. specialize (Hm rs).
  destruct (out (m rs)) as [a|e| |]; cbn [emitted]; try lia.
  rewrite requests_to_app. specialize (Hh e (rest (m rs))). lia.
Qed.

Lemma sends_makePostRequest w u url data : sends u (cap u url) (makePostRequest w url data).
Proof.
  intros rs. unfold makePostRequest. destruct (token_set w); [|by cbn; lia].
  destruct (axios w url data) as [d|e]; cbn; unfold cap;
    destruct (endpoint_eqb u url); simpl; lia.
Qed.

Lemma sends_selectLoop u title images st :
  sends u 0 (selectLoop title images st).
Proof.
  intros rs.
  destruct (selectLoop_emitted title images rs st) as [-> | ->]; by cbn.
Qed.

Lemma sends_applyBoost w u c : sends u (cap u BoostPhoto) (applyBoost w c).
Proof.
  rewrite applyBoost_target. destruct (boost_target c) as [k|].
  - apply (sends_weaken u (cap u BoostPhoto + (0 + 0))); [|lia].
    apply sends_bind; [apply sends_makePostRequest|].
    intros [r|]; apply sends_bind; auto using sends_console, sends_ret.
  - apply (sends_weaken u (0 + 0)); [|lia].
    apply sends_bind; auto using sends_console, sends_ret.
Qed.

Lemma sends_getVoteImages w u c : sends u (cap u GetVoteImages) (getVoteImages w c).
Proof.
  unfold getVoteImages.
  apply (sends_weaken u (0 + (cap u GetVoteImages + (0 + 0)))); [|lia].
  apply sends_bind; [apply sends_console|]. intros _.
  apply sends_bind; [apply sends_makePostRequest|].
  intros [[cs|v|]|]; [|destruct (vi_images v)| |];
    apply sends_bind; auto using sends_console, sends_ret.
Qed.

Lemma sends_submitVotes w u vi : sends u (cap u SubmitVote) (submitVotes w vi).
Proof.
  unfold submitVotes. destruct (vi_images vi) as [|img images].
  - apply (sends_weaken u (0 + 0)); [|lia].
    apply sends_bind; auto using sends_console, sends_ret.
  - apply (sends_weaken u (0 + (cap u SubmitVote + (0 + 0)))); [|lia].
    apply sends_bind; [apply sends_selectLoop|]. intros st.
    apply sends_bind; [apply sends_makePostRequest|].
    intros [r|]; apply sends_bind; auto using sends_console, sends_ret.
Qed.

Lemma sends_pacing u : sends u 0 (ms <- getRandomDelay 2000 5000 ;; sleep ms).
Proof. intros [|r rs]; by cbn. Qed.

Lemma sends_boostStep w u now c :
  sends u (cap u BoostPhoto) (boostStep (applyBoost w) now c).
Proof.
  unfold boostStep. destruct (boost_available _); [|eapply sends_weaken;
    [apply sends_ret|lia]].
  apply (sends_weaken u (0 + (0 + (cap u BoostPhoto + 0 + 0)))); [|lia].
  apply sends_bind; [apply sends_console|]. intros _.
  destruct (_ && _);
    [|apply (sends_weaken u 0); [apply sends_ret|apply Nat.le_0_l]].
  apply sends_bind; [apply sends_console|]. intros _.
  apply sends_try_catch; [|intros e; apply sends_console].
  apply sends_bind; [apply sends_applyBoost|intros _; apply sends_ret].
Qed.

Lemma sends_voteStep w u now c :
  sends u (cap u GetVoteImages + cap u SubmitVote)
    (voteStep (getVoteImages w) (submitVotes w) now c).
Proof.
  unfold voteStep. destruct (_ && _); [|eapply sends_weaken;
    [apply sends_ret|lia]].
  apply (sends_weaken u (cap u GetVoteImages + (cap u SubmitVote + 0) + (0 + 0)));
    [|lia].
  apply sends_try_catch.
  - apply sends_bind; [apply sends_getVoteImages|].
    intros [v|].
    + apply sends_bind; [apply sends_submitVotes|intros _; apply sends_pacing].
    + eapply sends_weaken; [apply sends_ret|apply Nat.le_0_l].
  - intros e. apply sends_bind; intros; apply sends_console.
Qed.

Lemma sends_processOne w u now c : sends u (per_challenge u) (processOne w now c).
Proof.
  apply (sends_weaken u (cap u BoostPhoto + (cap u GetVoteImages + cap u SubmitVote))).
  - apply sends_bind; [apply sends_boostStep|]. intros _. apply sends_voteStep.
  - destruct u; vm_compute; lia.
Qed.

Lemma sends_forOf w u now cs :
  sends u (length cs * per_challenge u)
    (forOf (applyBoost w) (getVoteImages w) (submitVotes w) now cs).
Proof.
  induction cs as [|c cs IH]; [apply sends_ret|].
  simpl. apply sends_bind; [apply (sends_processOne w u now c)|]. by intros _.
Qed.

Lemma cycle_no_array w rs :
  out (getActiveChallenges w rs) = Ok None ->
  fetchChallengesAndVote w rs =
    Run (Throw not_iterable) (rest (getActiveChallenges w rs))
        (emitted (getActiveChallenges w rs)).
Proof.
  intros Ho. unfold fetchChallengesAndVote. rewrite (bind_Ok _ _ _ _ Ho).
  cbn. by rewrite app_nil_r.
Qed.

(** X15. Requests are bounded: for one challenge the loop sends at most one
    boost request, one request for the pool and one vote submission, and
    never asks for the list of challenges; a cycle asks for that list at
    most once and sends at most one request of each other kind per
    challenge the platform answered with, whatever the answers and the
    random values. *)
Theorem X15_request_bounds w u rs :
  (forall now c, (requests_to u (emitted (processOne w now c rs)) <= per_challenge u)%nat) /\
  (requests_to u (emitted (fetchChallengesAndVote w rs))
     <= cap u GetMyActiveChallenges
        + length (answered_challenges w) * per_challenge u)%nat.
Proof.
  split; [intros now c; apply sends_processOne|].
  unfold answered_challenges.
  destruct (token_set w) eqn:Htok.
  - pose proof (getActiveChallenges_run w rs Htok) as Hg.
    assert (Hopen : requests_to u
              [Console LLog MsgGettingChallenges; Request GetMyActiveChallenges []]
            = cap u GetMyActiveChallenges).
    { unfold cap. cbn. by destruct (endpoint_eqb u GetMyActiveChallenges). }
    destruct (axios w GetMyActiveChallenges []) as [[[cs|v|]|]|e] eqn:Hax.
    + rewrite (cycle_run w rs cs) by (try done; by rewrite Hg). cbn zeta. rewrite Hg.
      cbn [emitted].
      pose proof (sends_forOf w u (date_now w / 1000) cs rs) as Hl.
      destruct (out (forOf _ _ _ _ cs rs)); cbn [emitted];
        rewrite !requests_to_app, Hopen; cbn; lia.
    + rewrite (cycle_no_array w rs) by (by rewrite Hg). rewrite Hg. cbn [emitted].
      rewrite Hopen. lia.
    + rewrite (cycle_no_array w rs) by (by rewrite Hg). rewrite Hg. cbn [emitted].
      rewrite Hopen. lia.
    + rewrite (cycle_run w rs []) by (try done; by rewrite Hg). cbn zeta. rewrite Hg.
      cbn [forOf ret out emitted app].
      change (requests_to u
                ([Console LLog MsgGettingChallenges; Request GetMyActiveChallenges []] ++
                 [Console LError MsgFailedChallenges;
                  Console LLog (MsgCompleted (locale_time w))])
              <= cap u GetMyActiveChallenges + 0)%nat.
      rewrite requests_to_app, Hopen. cbn. lia.
    + rewrite (cycle_run w rs []) by (try done; by rewrite Hg). cbn zeta. rewrite Hg.
      cbn [forOf ret out emitted app].
      change (requests_to u
                ([Console LLog MsgGettingChallenges; Request GetMyActiveChallenges []] ++
                 [Console LError (MsgPostError GetMyActiveChallenges e);
                  Console LError MsgFailedChallenges;
                  Console LLog (MsgCompleted (locale_time w))])
              <= cap u GetMyActiveChallenges + 0)%nat.
      rewrite requests_to_app, Hopen. cbn. lia.
  - unfold fetchChallengesAndVote, getActiveChallenges.
    unfold bind at 1 2 3. cbn [console emit out rest emitted].
    rewrite makePostRequest_locked by done. cbn. lia.
Qed.

(** * The functions on data as received *)

Lemma received_makePostRequest_locked w url data rs :
  Received.token_set w = false ->
  Received.makePostRequest w url data rs =
    Run (Exit 1) rs [Console LError MsgTokenMustBeSet].
Proof. intros H. unfold Received.makePostRequest. by rewrite H. Qed.

Lemma received_makePostRequest_run w url data rs :
  Received.token_set w = true ->
  Received.makePostRequest w url data rs =
    match Received.axios w url data with
    | Received.Responded d => Run (Ok d) rs [Request url data]
    | Received.Rejected e =>
        Run (Ok None) rs [Request url data; Console LError (MsgPostError url e)]
    end.
Proof.
  intros H. unfold Received.makePostRequest. rewrite H.
  by destruct (Received.axios w url data).
Qed.

Lemma received_makePostRequest_drawless w url data :
  drawless (Received.makePostRequest w url data).
Proof.
  intros rs. unfold Received.makePostRequest.
  destruct (Received.token_set w); [|done].
  unfold bind. cbn. by destruct (Received.axios w url data).
Qed.

(** ** applyBoost *)

Lemma received_getFirstNonTurboKey_run entries rs :
  Received.getFirstNonTurboKey entries rs =
    if Received.searchable entries then Run (Ok (Received.first_key entries)) rs []
    else Run (Throw (cannot_read "turbo")) rs [].
Proof.
  induction entries as [|[e|] entries IH]; [done| |done].
  cbn [Received.getFirstNonTurboKey Received.searchable Received.first_key].
  by destruct (default false (Received.entry_turbo e)).
Qed.

Lemma received_boostable_dec c : Received.boostable c \/ ~ Received.boostable c.
Proof.
  unfold Received.boostable.
  destruct (Received.entries_of c) as [entries|]; [|right; by intros (? & ? & _)].
  destruct (Received.searchable entries) eqn:Hs; [left; eauto|].
  right. intros (entries' & [= <-] & H). congruence.
Qed.

(** Entries that cannot be read or searched make [applyBoost] throw
    before it does anything. *)
Lemma received_applyBoost_unread w c rs :
  ~ Received.boostable c ->
  exists e, Received.applyBoost w c rs = Run (Throw e) rs [].
Proof.
  unfold Received.boostable, Received.entries_of, Received.applyBoost. intros Hn.
  destruct (Received.ch_member c) as [m|]; [|eauto].
  destruct (Received.mb_ranking m) as [r|]; [|eauto].
  destruct (Received.rk_entries r) as [entries|]; [|eauto].
  destruct (Received.searchable entries) eqn:Hs; [destruct Hn; eauto|].
  eexists. rewrite (bind_Throw _ _ _ (cannot_read "turbo"));
    by rewrite received_getFirstNonTurboKey_run, Hs.
Qed.

Lemma received_applyBoost_target w c rs :
  Received.boostable c ->
  Received.applyBoost w c rs =
    match Received.boost_target c with
    | Some k =>
        (response <- Received.makePostRequest w BoostPhoto (Received.boost_data c k) ;;
         match response with
         | None => console LError (MsgFailedBoost (shown (Received.ch_id c))) ;;; ret None
         | Some r => console LLog (MsgBoostApplied k) ;;; ret (Some r)
         end) rs
    | None => Run (Ok None) rs [Console LError MsgNoNonTurbo]
    end.
Proof.
  unfold Received.boostable, Received.boost_target, Received.entries_of,
    Received.applyBoost.
  intros (entries & He & Hs).
  destruct (Received.ch_member c) as [m|]; [|done].
  destruct (Received.mb_ranking m) as [r|]; [|done].
  rewrite He, Hs.
  rewrite (bind_pure _ _ rs (Received.first_key entries))
    by (by rewrite received_getFirstNonTurboKey_run, Hs).
  destruct (Received.first_key entries) as [k|]; cbn [default from_option id]; [|done].
  by destruct (String.eqb k "").
Qed.

Lemma received_applyBoost_sent w c rs k :
  Received.boostable c -> Received.boost_target c = Some k ->
  Received.applyBoost w c rs =
    if Received.token_set w then
      match Received.axios w BoostPhoto (Received.boost_data c k) with
      | Received.Responded (Some r) =>
          Run (Ok (Some r)) rs
              [Request BoostPhoto (Received.boost_data c k);
               Console LLog (MsgBoostApplied k)]
      | Received.Responded None =>
          Run (Ok None) rs
              [Request BoostPhoto (Received.boost_data c k);
               Console LError (MsgFailedBoost (shown (Received.ch_id c)))]
      | Received.Rejected e =>
          Run (Ok None) rs
              [Request BoostPhoto (Received.boost_data c k);
               Console LError (MsgPostError BoostPhoto e);
               Console LError (MsgFailedBoost (shown (Received.ch_id c)))]
      end
    else Run (Exit 1) rs [Console LError MsgTokenMustBeSet].
Proof.
  intros Hb Hk. rewrite (received_applyBoost_target w c rs Hb), Hk.
  unfold bind at 1. destruct (Received.token_set w) eqn:Htok.
  - rewrite (received_makePostRequest_run _ _ _ _ Htok).
    by destruct (Received.axios w BoostPhoto _) as [[r|]|e].
  - by rewrite (received_makePostRequest_locked _ _ _ _ Htok).
Qed.

Lemma received_applyBoost_drawless w c : drawless (Received.applyBoost w c).
Proof.
  intros rs. destruct (received_boostable_dec c) as [Hb|Hn].
  - rewrite (received_applyBoost_target w c rs Hb).
    destruct (Received.boost_target c) as [k|]; [|done].
    apply drawless_bind; [apply received_makePostRequest_drawless|].
    intros [r|]; solve_drawless.
  - by destruct (received_applyBoost_unread w c rs Hn) as [e ->].
Qed.

(** With the credential set [applyBoost] returns or throws. *)
Lemma received_applyBoost_ends w c rs :
  Received.token_set w = true ->
  (exists resp, out (Received.applyBoost w c rs) = Ok resp) \/
  (exists e, out (Received.applyBoost w c rs) = Throw e).
Proof.
  intros Htok. destruct (received_boostable_dec c) as [Hb|Hn].
  - left. rewrite (received_applyBoost_target w c rs Hb).
    destruct (Received.boost_target c) as [k|]; [|by eexists].
    unfold bind at 1. rewrite (received_makePostRequest_run _ _ _ _ Htok).
    destruct (Received.axios w BoostPhoto _) as [[r|]|e]; by eexists.
  - right. destruct (received_applyBoost_unread w c rs Hn) as [e ->]. by eexists.
Qed.

(** X3. [applyBoost] on a challenge as received uses no random value.  It
    throws exactly when it cannot read [member.ranking.entries] or meets
    an absent entry before one that is not boosted, and then nothing was
    printed or sent.  It returns a response exactly when the credential is
    set, an entry is left to boost and the platform answered the boost
    request with data; it stops the process only when the credential is
    missing. *)
Theorem X3_applyBoost_result w c rs :
  ((exists e, out (Received.applyBoost w c rs) = Throw e) <-> ~ Received.boostable c) /\
  (forall e, out (Received.applyBoost w c rs) = Throw e ->
     Received.applyBoost w c rs = Run (Throw e) rs []) /\
  rest (Received.applyBoost w c rs) = rs /\
  (forall r, out (Received.applyBoost w c rs) = Ok (Some r) <->
     Received.token_set w = true /\
     exists k, Received.boost_target c = Some k /\
       Received.axios w BoostPhoto (Received.boost_data c k)
         = Received.Responded (Some r)) /\
  (forall code, out (Received.applyBoost w c rs) = Exit code ->
     Received.token_set w = false /\ code = 1).
Proof.
  split; [|split; [|split; [apply received_applyBoost_drawless|]]].
  - split.
    + intros [e He] Hb. rewrite (received_applyBoost_target w c rs Hb) in He.
      destruct (Received.boost_target c) as [k|]; [|done].
      unfold bind, Received.makePostRequest in He.
      destruct (Received.token_set w); [|done].
      cbn in He. by destruct (Received.axios w BoostPhoto _) as [[r|]|e'].
    + intros Hn. destruct (received_applyBoost_unread w c rs Hn) as [e ->]. by exists e.
  - intros e He. destruct (received_boostable_dec c) as [Hb|Hn].
    + exfalso. rewrite (received_applyBoost_target w c rs Hb) in He.
      destruct (Received.boost_target c) as [k|]; [|done].
      unfold bind, Received.makePostRequest in He.
      destruct (Received.token_set w); [|done].
      cbn in He. by destruct (Received.axios w BoostPhoto _) as [[r|]|e'].
    + destruct (received_applyBoost_unread w c rs Hn) as [e' He'].
      rewrite He' in He |- *. cbn in He. congruence.
  - destruct (received_boostable_dec c) as [Hb|Hn].
    + destruct (Received.boost_target c) as [k|] eqn:Hk.
      * rewrite (received_applyBoost_sent w c rs k Hb Hk).
        destruct (Received.token_set w) eqn:Htok.
        -- destruct (Received.axios w BoostPhoto (Received.boost_data c k))
             as [[r|]|e'] eqn:Hax; cbn; (split; [|done]); intros r'.
           ++ split.
              ** intros [= <-]. split; [done|]. eauto.
              ** intros (_ & k' & [= <-] & H). congruence.
           ++ split; [done|]. intros (_ & k' & [= <-] & H). congruence.
           ++ split; [done|]. intros (_ & k' & [= <-] & H). congruence.
        -- cbn. split.
           ++ intros r. split; [done|]. by intros [? _].
           ++ by intros code [= <-].
      * rewrite (received_applyBoost_target w c rs Hb), Hk.
        cbn. split; [|done]. intros r. split; [done|]. by intros (_ & k & ? & _).
    + assert (Ht : Received.boost_target c = None).
      { unfold Received.boost_target, Received.boostable in *.
        destruct (Received.entries_of c) as [entries|]; [|done].
        destruct (Received.searchable entries) eqn:Hs; [destruct Hn; eauto|done]. }
      destruct (received_applyBoost_unread w c rs Hn) as [e ->]. cbn. split; [|done].
      intros r. split; [done|]. rewrite Ht. by intros (_ & k & ? & _).
Qed.

(** Witness of X3: the challenge received without a ranking. *)
Lemma X3_witness :
  Received.applyBoost (received_world friendly_world) unranked [] =
    Run (Throw (cannot_read "entries")) [] [].
Proof.
  apply (proj1 (proj2 (X3_applyBoost_result (received_world friendly_world) unranked []))).
  reflexivity.
Defined.

(** ** The boost part and the voting part *)

Lemma received_boostStep_ok w now c rs :
  Received.token_set w = true ->
  is_Some (Received.boost_of c) ->
  out (Received.boostStep (Received.applyBoost w) now c rs) = Ok tt /\
  rest (Received.boostStep (Received.applyBoost w) now c rs) = rs.
Proof.
  intros Htok [b Hb]. rewrite (received_boostStep_read _ now c b Hb).
  destruct (Received.boost_available b); [|done]. rewrite console_bind. cbn [out rest].
  destruct (_ && _); [|done]. rewrite console_bind. cbn [out rest].
  pose proof (received_applyBoost_drawless w c rs) as Hd.
  destruct (received_applyBoost_ends w c rs Htok) as [[resp Ho]|[e He]].
  - assert (H : (Received.applyBoost w c ;;; ret tt) rs =
              Run (Ok tt) rs (emitted (Received.applyBoost w c rs) ++ []))
      by (by rewrite (bind_Ok _ _ _ _ Ho), Hd).
    rewrite (try_catch_Ok _ _ _ tt) by (by rewrite H). by rewrite H.
  - assert (H : (Received.applyBoost w c ;;; ret tt) rs =
              Run (Throw e) rs (emitted (Received.applyBoost w c rs)))
      by (by rewrite (bind_Throw _ _ _ _ He), Hd).
    rewrite (try_catch_Throw _ _ _ e) by (by rewrite H). by rewrite H.
Qed.

(** X13. A boost never stands in the way of the vote.  With the
    credential set and [member.boost] there, the boost part of a challenge
    ends normally and uses no random value, whether the boost request was
    answered, rejected or not made, and also when [applyBoost] throws on
    the entries; the run for the challenge is then the boost part followed
    by the voting part exactly as that runs on its own.  Without
    [member.boost] the challenge throws before anything is done. *)
Theorem X13_boost_then_vote w now c rs :
  (Received.token_set w = true ->
   is_Some (Received.boost_of c) ->
   out (Received.boostStep (Received.applyBoost w) now c rs) = Ok tt /\
   rest (Received.boostStep (Received.applyBoost w) now c rs) = rs /\
   Received.processOne w now c rs =
     then_run (Received.boostStep (Received.applyBoost w) now c rs)
       (Received.voteStep (Received.getVoteImages w) (Received.submitVotes w) now c rs)) /\
  (Received.boost_of c = None ->
   exists e, Received.processOne w now c rs = Run (Throw e) rs []).
Proof.
  split.
  - intros Htok Hb. destruct (received_boostStep_ok w now c rs Htok Hb) as [Ho Hr].
    split; [done|]. split; [done|].
    unfold Received.processOne, Received.processChallenge.
    by rewrite (bind_Ok _ _ _ _ Ho), Hr.
  - intros Hb.
    destruct (received_boostStep_unread (Received.applyBoost w) now c rs Hb) as [e He].
    exists e. unfold Received.processOne, Received.processChallenge.
    rewrite (bind_Throw _ _ _ e); by rewrite He.
Qed.

(** Witness of X13: the boost of a challenge received without a ranking is
    attempted, [applyBoost] throws, and the boost part ends normally. *)
Lemma X13_witness :
  out (Received.boostStep (Received.applyBoost (received_world friendly_world))
         1700000000 unranked []) = Ok tt.
Proof.
  refine (proj1 (proj1 (X13_boost_then_vote (received_world friendly_world)
                          1700000000 unranked []) _ _)).
  - reflexivity.
  - by eexists.
Defined.

(** ** The cycle *)

Lemma received_getActiveChallenges_run w rs :
  Received.token_set w = true ->
  Received.getActiveChallenges w rs =
    match Received.axios w GetMyActiveChallenges [] with
    | Received.Responded (Some (Received.JChallenges cs)) =>
        Run (Ok (Some cs)) rs
            [Console LLog MsgGettingChallenges; Request GetMyActiveChallenges []]
    | Received.Responded (Some _) =>
        Run (Ok None) rs
            [Console LLog MsgGettingChallenges; Request GetMyActiveChallenges []]
    | Received.Responded None =>
        Run (Ok (Some [])) rs
            [Console LLog MsgGettingChallenges; Request GetMyActiveChallenges [];
             Console LError MsgFailedChallenges]
    | Received.Rejected e =>
        Run (Ok (Some [])) rs
            [Console LLog MsgGettingChallenges; Request GetMyActiveChallenges [];
             Console LError (MsgPostError GetMyActiveChallenges e);
             Console LError MsgFailedChallenges]
    end.
Proof.
  intros Htok. unfold Received.getActiveChallenges, Received.makePostRequest.
  rewrite Htok.
  by destruct (Received.axios w GetMyActiveChallenges []) as [[[cs|v|]|]|e].
Qed.

(** The outcome of a cycle whose first request gave the challenges [cs]
    is that of the loop over them. *)
Lemma received_cycle_out w rs cs evs :
  Received.getActiveChallenges w rs = Run (Ok (Some cs)) rs evs ->
  out (Received.fetchChallengesAndVote w rs) =
    out (Received.forOf (Received.applyBoost w) (Received.getVoteImages w)
           (Received.submitVotes w) (Received.date_now w / 1000) cs rs).
Proof.
  intros Hg. unfold Received.fetchChallengesAndVote.
  rewrite (bind_Ok _ _ _ (Some cs)) by (by rewrite Hg). rewrite Hg. cbn [out rest].
  unfold bind. by destruct (out (Received.forOf _ _ _ _ cs rs)) as [[]| | |].
Qed.

Section ReceivedThrows.

Variable applyBoost_ : Received.challenge -> M (option Received.json).
Variable getVoteImages_ : Received.challenge -> M (option Received.voteImages).
Variable submitVotes_ : Received.voteImages -> M (option Received.json).

(** The loop throws only for a challenge it cannot read. *)
Lemma received_forOf_throws now cs : forall rs e,
  out (Received.forOf applyBoost_ getVoteImages_ submitVotes_ now cs rs) = Throw e ->
  Exists (fun c => ~ Received.readable c) cs.
Proof.
  induction cs as [|c cs IH]; intros rs e H; [done|].
  simpl in H. unfold bind at 1 in H.
  destruct (out (Received.processChallenge _ _ _ now c rs)) as [[]|e'|code|] eqn:Hp;
    cbn [out] in H; try done.
  - apply Exists_cons_tl. by eapply IH.
  - apply Exists_cons_hd. intros Hr.
    by apply (received_processChallenge_no_throw _ _ _ now c rs e') in Hp.
Qed.

End ReceivedThrows.

(** X7. An error leaves a cycle only when the credential is set and the
    first request is answered with data: data that holds no array of
    challenges, or challenges of which one lacks [member.boost] or
    [member.ranking.exposure].  The first case always throws, and so does
    a first challenge without [member.boost]; a cycle over challenges that
    all have both parts does not throw, whatever happens while they are
    processed. *)
Theorem X7_cycle_throws w rs :
  (forall e,
     out (Received.fetchChallengesAndVote w rs) = Throw e ->
     Received.token_set w = true /\
     exists j,
       Received.axios w GetMyActiveChallenges [] = Received.Responded (Some j) /\
       match j with
       | Received.JChallenges cs => Exists (fun c => ~ Received.readable c) cs
       | _ => e = not_iterable
       end) /\
  (forall j,
     Received.token_set w = true ->
     Received.axios w GetMyActiveChallenges [] = Received.Responded (Some j) ->
     (forall cs, j <> Received.JChallenges cs) ->
     out (Received.fetchChallengesAndVote w rs) = Throw not_iterable) /\
  (forall c cs,
     Received.token_set w = true ->
     Received.axios w GetMyActiveChallenges []
       = Received.Responded (Some (Received.JChallenges (c :: cs))) ->
     Received.boost_of c = None ->
     exists e, out (Received.fetchChallengesAndVote w rs) = Throw e) /\
  (forall cs e,
     Received.axios w GetMyActiveChallenges []
       = Received.Responded (Some (Received.JChallenges cs)) ->
     Forall Received.readable cs ->
     out (Received.fetchChallengesAndVote w rs) <> Throw e).
Proof.
  assert (Hcases : forall e,
     out (Received.fetchChallengesAndVote w rs) = Throw e ->
     Received.token_set w = true /\
     exists j,
       Received.axios w GetMyActiveChallenges [] = Received.Responded (Some j) /\
       match j with
       | Received.JChallenges cs => Exists (fun c => ~ Received.readable c) cs
       | _ => e = not_iterable
       end).
  { intros e H. destruct (Received.token_set w) eqn:Htok.
    - split; [done|].
      pose proof (received_getActiveChallenges_run w rs Htok) as Hg.
      destruct (Received.axios w GetMyActiveChallenges []) as [[[cs|v|]|]|e'] eqn:Hax.
      + exists (Received.JChallenges cs). split; [done|].
        rewrite (received_cycle_out w rs cs _ Hg) in H.
        by apply received_forOf_throws in H.
      + exists (Received.JVoteImages v). split; [done|].
        unfold Received.fetchChallengesAndVote, bind in H. rewrite Hg in H.
        cbn in H. congruence.
      + exists Received.JOther. split; [done|].
        unfold Received.fetchChallengesAndVote, bind in H. rewrite Hg in H.
        cbn in H. congruence.
      + exfalso. by rewrite (received_cycle_out w rs [] _ Hg) in H.
      + exfalso. by rewrite (received_cycle_out w rs [] _ Hg) in H.
    - exfalso. unfold Received.fetchChallengesAndVote, Received.getActiveChallenges in H.
      unfold bind at 1 2 3 in H. cbn [console emit out rest emitted] in H.
      by rewrite received_makePostRequest_locked in H. }
  split; [exact Hcases|]. split; [|split].
  - intros j Htok Hax Hj.
    pose proof (received_getActiveChallenges_run w rs Htok) as Hg. rewrite Hax in Hg.
    unfold Received.fetchChallengesAndVote, bind. rewrite Hg.
    destruct j as [cs|v|]; [by destruct (Hj cs)|done|done].
  - intros c cs Htok Hax Hb.
    pose proof (received_getActiveChallenges_run w rs Htok) as Hg. rewrite Hax in Hg.
    rewrite (received_cycle_out w rs (c :: cs) _ Hg).
    destruct (received_boostStep_unread (Received.applyBoost w)
                (Received.date_now w / 1000) c rs Hb) as [e He].
    exists e. rewrite (received_forOf_cons_Throw _ _ _ _ c cs rs e); [done|].
    unfold Received.processChallenge. rewrite (bind_Throw _ _ _ e); by rewrite He.
  - intros cs e Hax Hcs H. destruct (Hcases e H) as (_ & j & Hj & Hbad).
    rewrite Hax in Hj. injection Hj as <-.
    apply Exists_exists in Hbad as (c & Hc & Hn).
    rewrite Forall_forall in Hcs. by apply Hn, Hcs.
Qed.

(** Witness of X7: the platform answers with a challenge that has no
    [member]. *)
Lemma X7_witness :
  exists e, out (Received.fetchChallengesAndVote headless_world []) = Throw e.
Proof.
  refine (proj1 (proj2 (proj2 (X7_cycle_throws headless_world []))) headless [] _ _ _);
    reflexivity.
Defined.

(** ** submitVotes *)

Lemma viewable_nil l : viewable l = inr [] -> l = [].
Proof.
  destruct l as [|[img|] l]; [done| |done]. cbn.
  destruct (lone_surrogate (img_id img)); [done|]. by destruct (viewable l).
Qed.

(** [submitVotes] once a pool with images has been read. *)
Lemma received_submitVotes_read w v rs imgs :
  Received.pool_of v = Some imgs -> imgs <> [] ->
  Received.submitVotes w v rs =
    match Received.start_of v with
    | None =>
        Run (Throw (match Received.vi_voting v with
                    | None => cannot_read "exposure"
                    | Some _ => cannot_destructure "exposure_factor" "voting.exposure"
                    end)) rs []
    | Some x =>
        (st <- Received.selection_of (Received.vi_challenge v) imgs x ;;
         match Received.vi_challenge v with
         | None => throw (cannot_read "id")
         | Some c =>
             response <- Received.makePostRequest w SubmitVote
                           (Received.submit_data c (votedImages st)
                              (map viewed_field imgs)) ;;
             match response with
             | None =>
                 console LError (MsgFailedSubmit (shown (Received.ch_title c))) ;;;
                 ret None
             | Some r =>
                 console LLog (MsgVotesSubmitted (shown (Received.ch_title c))) ;;;
                 ret (Some r)
             end
         end) rs
    end.
Proof.
  unfold Received.pool_of, Received.start_of, Received.submitVotes,
    Received.selection_of.
  destruct (Received.vi_images v) as [l|]; [|done]. intros Hp Hne.
  destruct l as [|i l]; [cbn in Hp; congruence|].
  destruct (viewable (i :: l)) as [e|imgs']; [done|]. injection Hp as ->.
  destruct (Received.vi_voting v) as [vt|]; [|done].
  by destruct (Received.vt_exposure vt) as [x|].
Qed.

(** Without images the warning is all there is. *)
Lemma received_submitVotes_empty w v rs c :
  Received.vi_images v = None \/ Received.vi_images v = Some [] ->
  Received.vi_challenge v = Some c ->
  Received.submitVotes w v rs =
    Run (Ok None) rs [Console LWarn (MsgNoImagesToVote (shown (Received.ch_title c)))].
Proof. unfold Received.submitVotes. by intros [-> | ->] ->. Qed.

Lemma received_selection_no_throw c imgs x rs e :
  imgs <> [] -> Forall unit_draw rs ->
  out (Received.selection_of (Some c) imgs x rs) <> Throw e.
Proof.
  intros Hne Hrs. unfold Received.selection_of.
  destruct (Received.ex_exposure_factor x) as [f|]; [|done].
  by apply selectLoop_no_throw.
Qed.

Lemma received_submit_no_throw w c data rs e :
  out ((response <- Received.makePostRequest w SubmitVote data ;;
        match response with
        | None =>
            console LError (MsgFailedSubmit (shown (Received.ch_title c))) ;;; ret None
        | Some r =>
            console LLog (MsgVotesSubmitted (shown (Received.ch_title c))) ;;;
            ret (Some r)
        end) rs) <> Throw e.
Proof.
  unfold bind at 1. destruct (Received.token_set w) eqn:Htok.
  - rewrite (received_makePostRequest_run _ _ _ _ Htok).
    by destruct (Received.axios w SubmitVote data) as [[r|]|e'].
  - by rewrite (received_makePostRequest_locked _ _ _ _ Htok).
Qed.

(** X9. [submitVotes] on an answer as received.  Without images it warns
    and returns, with no request and no random value used.  An answer
    whose images can all be read (none is absent, every identifier can be
    encoded) and that has [voting.exposure] and [challenge] does not make
    it throw, fed with values of [Math.random]; one that has images and no
    [voting.exposure] makes it throw before anything is sent.  It returns
    the platform's answer exactly when the credential is set, these parts
    are there, the loop returned a selection and the submission of that
    selection was answered with data. *)
Theorem X9_submitVotes_result w v rs :
  (forall c,
     Received.vi_images v = None \/ Received.vi_images v = Some [] ->
     Received.vi_challenge v = Some c ->
     Received.submitVotes w v rs =
       Run (Ok None) rs
           [Console LWarn (MsgNoImagesToVote (shown (Received.ch_title c)))]) /\
  (forall imgs x c,
     Received.pool_of v = Some imgs ->
     Received.start_of v = Some x ->
     Received.vi_challenge v = Some c ->
     Forall unit_draw rs ->
     forall e, out (Received.submitVotes w v rs) <> Throw e) /\
  (forall imgs,
     Received.pool_of v = Some imgs -> imgs <> [] ->
     Received.start_of v = None ->
     exists e, Received.submitVotes w v rs = Run (Throw e) rs []) /\
  (forall r,
     out (Received.submitVotes w v rs) = Ok (Some r) <->
     Received.token_set w = true /\
     exists imgs x c st,
       Received.pool_of v = Some imgs /\ imgs <> [] /\
       Received.start_of v = Some x /\
       Received.vi_challenge v = Some c /\
       out (Received.selection_of (Some c) imgs x rs) = Ok st /\
       Received.axios w SubmitVote
         (Received.submit_data c (votedImages st) (map viewed_field imgs))
         = Received.Responded (Some r)).
Proof.
  split; [|split; [|split]].
  - intros c. apply received_submitVotes_empty.
  - intros imgs x c Hp Hx Hc Hrs e.
    destruct imgs as [|i imgs].
    { unfold Received.pool_of in Hp.
      destruct (Received.vi_images v) as [l|] eqn:Hl; [|done].
      destruct (viewable l) as [e'|imgs'] eqn:Hv; [done|]. injection Hp as ->.
      apply viewable_nil in Hv as ->.
      by rewrite (received_submitVotes_empty w v rs c) by auto. }
    rewrite (received_submitVotes_read w v rs (i :: imgs) Hp) by done.
    rewrite Hx, Hc. unfold bind at 1.
    destruct (out (Received.selection_of (Some c) (i :: imgs) x rs)) as [st|e'|code|]
      eqn:Hl; cbn [out]; try done.
    + apply received_submit_no_throw.
    + by apply received_selection_no_throw in Hl.
  - intros imgs Hp Hne Hx. rewrite (received_submitVotes_read w v rs imgs Hp Hne), Hx.
    by eexists.
  - intros r. split.
    + intros H. unfold Received.pool_of.
      destruct (Received.vi_images v) as [[|i l]|] eqn:Hl;
        [exfalso| |exfalso].
      * unfold Received.submitVotes in H. rewrite Hl in H.
        unfold Received.title_of in H.
        by destruct (Received.vi_challenge v).
      * destruct (viewable (i :: l)) as [e'|imgs] eqn:Hp.
        { exfalso. unfold Received.submitVotes in H. by rewrite Hl, Hp in H. }
        assert (Hpool : Received.pool_of v = Some imgs)
          by (unfold Received.pool_of; by rewrite Hl, Hp).
        assert (Hne : imgs <> []).
        { intros ->. by apply viewable_nil in Hp. }
        rewrite (received_submitVotes_read w v rs imgs Hpool Hne) in H.
        destruct (Received.start_of v) as [x|]; [|done].
        apply bind_out_Ok in H as (st & Hst & H).
        destruct (Received.vi_challenge v) as [c|]; [|done].
        apply bind_out_Ok in H as (resp & Hresp & H).
        destruct resp as [r'|]; [|done]. cbn in H. injection H as ->.
        unfold Received.makePostRequest in Hresp.
        destruct (Received.token_set w); [|done]. split; [done|].
        exists imgs, x, c, st. repeat split; try done.
        unfold bind in Hresp. cbn in Hresp.
        destruct (Received.axios w SubmitVote _) as [[r''|]|e']; cbn in Hresp;
          congruence.
      * unfold Received.submitVotes in H. rewrite Hl in H.
        unfold Received.title_of in H.
        by destruct (Received.vi_challenge v).
    + intros (Htok & imgs & x & c & st & Hp & Hne & Hx & Hc & Hst & Hax).
      rewrite (received_submitVotes_read w v rs imgs Hp Hne), Hx, Hc.
      rewrite (bind_Ok _ _ _ _ Hst). cbn [out]. unfold bind at 1.
      rewrite (received_makePostRequest_run _ _ _ _ Htok), Hax. done.
Qed.

(** Witness of X9: an answer whose pool is empty, and the example pool
    received without [voting]. *)
Lemma X9_witness :
  Received.submitVotes (received_world friendly_world)
      (received_voteImages (example_vote 60 [])) [] =
    Run (Ok None) [] [Console LWarn (MsgNoImagesToVote "Street")] /\
  exists e,
    Received.submitVotes (received_world friendly_world) unrated [] =
      Run (Throw e) [] [].
Proof.
  split.
  - refine (proj1 (X9_submitVotes_result (received_world friendly_world)
                     (received_voteImages (example_vote 60 [])) [])
              (received_challenge example_challenge) _ _); [by right|reflexivity].
  - refine (proj1 (proj2 (proj2 (X9_submitVotes_result (received_world friendly_world)
                                   unrated []))) example_pool _ _ _);
      [reflexivity|discriminate|reflexivity].
Defined.

(** * login: saving the token *)

Lemma starts_with_app p s x : starts_with p s = true -> starts_with p (s ++ x) = true.
Proof.
  revert s. induction p as [|a p IH]; intros [|b s]; simpl; try done.
  intros [H1 H2]%andb_true_iff. rewrite H1. simpl. by apply IH.
Qed.

Lemma starts_with_self p x : starts_with p (p ++ x) = true.
Proof. induction p as [|a p IH]; simpl; [done|]. by rewrite Ascii.eqb_refl. Qed.

Lemma includes_app_r p pre x : starts_with p x = true -> includes p (pre ++ x) = true.
Proof.
  intros H. induction pre as [|c pre IH]; simpl.
  - destruct x; simpl; by rewrite H.
  - rewrite IH. by rewrite orb_true_r.
Qed.

Ltac key_simpl :=
  unfold TOKEN_key in *; cbn [list_ascii_of_string starts_with app] in *.

Ltac key_chars H :=
  repeat (apply andb_true_iff in H as [? H]);
  repeat match goal with
         | E : Ascii.eqb _ _ = true |- _ => apply Ascii.eqb_eq in E
         end.

(** A match of the key that starts in [s] and ends in what follows needs
    that to begin with a later character of the key. *)
Lemma straddle a s x :
  starts_with TOKEN_key (a :: s) = false ->
  starts_with TOKEN_key (a :: s ++ x) = true ->
  closes_key x.
Proof.
  intros Hs Hsx. unfold closes_key.
  destruct s as [|b [|c [|d [|e [|f s]]]]]; key_simpl.
  - destruct x as [|h t]; key_simpl; [by rewrite ?andb_false_r in Hsx|].
    exists h, t. split; [done|]. key_chars Hsx. subst. simpl. tauto.
  - destruct x as [|h t]; key_simpl; [by rewrite ?andb_false_r in Hsx|].
    exists h, t. split; [done|]. key_chars Hsx. subst. simpl. tauto.
  - destruct x as [|h t]; key_simpl; [by rewrite ?andb_false_r in Hsx|].
    exists h, t. split; [done|]. key_chars Hsx. subst. simpl. tauto.
  - destruct x as [|h t]; key_simpl; [by rewrite ?andb_false_r in Hsx|].
    exists h, t. split; [done|]. key_chars Hsx. subst. simpl. tauto.
  - destruct x as [|h t]; key_simpl; [by rewrite ?andb_false_r in Hsx|].
    exists h, t. split; [done|]. key_chars Hsx. subst. simpl. tauto.
  - congruence.
Qed.

Lemma clean_of_includes pre x :
  includes TOKEN_key pre = false -> ~ closes_key x -> clean pre x.
Proof.
  intros Hinc Hx. induction pre as [|c pre IH]; [done|].
  cbn [includes] in Hinc. apply orb_false_iff in Hinc as [Hs Hinc].
  split; [|by apply IH].
  destruct (starts_with TOKEN_key (c :: pre ++ x)) eqn:E; [|done].
  destruct Hx. by eapply straddle.
Qed.

Ltac not_in_key Hin :=
  unfold LF, CR in Hin; cbn [list_ascii_of_string In] in Hin;
  repeat (destruct Hin as [Hin|Hin]; [discriminate|]); done.

Lemma key_not_closing x : ~ closes_key (TOKEN_key ++ x).
Proof. intros (h & t & [= <- _] & Hin). not_in_key Hin. Qed.

Lemma nil_not_closing : ~ closes_key [].
Proof. by intros (h & t & ? & _). Qed.

Lemma LF_not_closing x : ~ closes_key (LF :: x).
Proof. intros (h & t & [= <- _] & Hin). not_in_key Hin. Qed.

Lemma CR_not_closing x : ~ closes_key (CR :: x).
Proof. intros (h & t & [= <- _] & Hin). not_in_key Hin. Qed.

Lemma includes_app_false pre x :
  includes TOKEN_key pre = false -> includes TOKEN_key x = false ->
  ~ closes_key x -> includes TOKEN_key (pre ++ x) = false.
Proof.
  intros Hp Hx Hc. pose proof (clean_of_includes pre x Hp Hc) as Hcl.
  clear Hp. induction pre as [|c pre IH]; [done|].
  destruct Hcl as [Hs Hcl]. cbn [app includes]. rewrite Hs. simpl. by apply IH.
Qed.

(** ** The pieces of the pattern *)

Lemma dot_star_line v after :
  one_line v ->
  match after with [] => True | c :: _ => dot c = false end ->
  dot_star (v ++ after) = (v, after).
Proof.
  intros Hv Ha. induction Hv as [|c v Hc Hv IH]; cbn [app dot_star].
  - destruct after as [|c after]; [done|]. cbn [dot_star]. by rewrite Ha.
  - by rewrite Hc, IH.
Qed.

Lemma match_here_line v eol after :
  one_line v -> line_break eol after ->
  match_here (TOKEN_key ++ v ++ eol ++ after) = Some (TOKEN_key ++ v ++ eol, eol).
Proof.
  intros Hv Hb. unfold match_here. rewrite starts_with_self.
  rewrite drop_app_length.
  destruct Hb as [-> | [-> | [-> ->]]].
  - rewrite (dot_star_line v ([LF] ++ after)) by done. done.
  - rewrite (dot_star_line v ([CR; LF] ++ after)) by done. done.
  - rewrite (dot_star_line v ([] ++ [])) by done. done.
Qed.

Lemma substitution_plain matched before after group t rest :
  no_dollar t ->
  substitution matched before after group (t ++ rest) =
    t ++ substitution matched before after group rest.
Proof.
  induction 1 as [|c t Hc _ IH]; [done|].
  cbn [app substitution]. apply Ascii.eqb_neq in Hc. by rewrite Hc, IH.
Qed.

Lemma substitution_template matched before after group token :
  no_dollar token ->
  substitution matched before after group
    (TOKEN_key ++ token ++ list_ascii_of_string "$1") =
  TOKEN_key ++ token ++ group.
Proof.
  intros Ht. rewrite substitution_plain by (by repeat constructor).
  rewrite substitution_plain by done. f_equal. f_equal.
  cbn. by rewrite app_nil_r.
Qed.

(** ** The scan *)

Lemma replace_from_skip template m : forall before_rev s,
  replace_from template before_rev (length m) (m ++ s) =
  replace_from template (rev m ++ before_rev) 0 s.
Proof.
  induction m as [|c m IH]; intros before_rev s; [done|].
  cbn [length app replace_from]. rewrite IH. cbn [rev]. by rewrite <- app_assoc.
Qed.

Lemma replace_from_clean template pre : forall before_rev x,
  clean pre x ->
  replace_from template before_rev 0 (pre ++ x) =
  pre ++ replace_from template (rev pre ++ before_rev) 0 x.
Proof.
  induction pre as [|c pre IH]; intros before_rev x Hcl; [done|].
  destruct Hcl as [Hs Hcl]. cbn [app replace_from].
  unfold match_here. cbn [app] in Hs. rewrite Hs. rewrite (IH _ _ Hcl).
  cbn [rev]. by rewrite <- app_assoc.
Qed.

Lemma replace_from_nil template before_rev : replace_from template before_rev 0 [] = [].
Proof. done. Qed.

Lemma replace_from_absent template before_rev s :
  includes TOKEN_key s = false -> replace_from template before_rev 0 s = s.
Proof.
  intros H. rewrite <- (app_nil_r s) at 1.
  rewrite replace_from_clean by (by apply clean_of_includes, nil_not_closing).
  by rewrite replace_from_nil, app_nil_r.
Qed.

Lemma replace_from_match template before_rev s c s' matched group :
  s = c :: s' ->
  match_here s = Some (matched, group) ->
  replace_from template before_rev 0 s =
    substitution matched (rev before_rev) (drop (length matched) s) group template
    ++ replace_from template (c :: before_rev) (length matched - 1) s'.
Proof. intros -> Hm. cbn [replace_from]. by rewrite Hm. Qed.

(** One line is rewritten, and the scan goes on behind it. *)
Lemma replace_from_line token before_rev v eol after :
  no_dollar token -> one_line v -> line_break eol after ->
  exists before_rev',
    replace_from (TOKEN_key ++ token ++ list_ascii_of_string "$1") before_rev 0
      (TOKEN_key ++ v ++ eol ++ after) =
    TOKEN_key ++ token ++ eol ++
    replace_from (TOKEN_key ++ token ++ list_ascii_of_string "$1") before_rev' 0 after.
Proof.
  intros Ht Hv Hb.
  pose proof (match_here_line v eol after Hv Hb) as Hm.
  assert (Hs : TOKEN_key ++ v ++ eol ++ after =
               "T"%char :: (list_ascii_of_string "OKEN=" ++ v ++ eol) ++ after).
  { unfold TOKEN_key. cbn. by rewrite <- !app_assoc. }
  rewrite (replace_from_match _ _ _ _ _ _ _ Hs Hm).
  rewrite substitution_template by done.
  replace (length (TOKEN_key ++ v ++ eol) - 1)%nat
    with (length (list_ascii_of_string "OKEN=" ++ v ++ eol))
    by (unfold TOKEN_key; cbn; rewrite !length_app; cbn; lia).
  rewrite replace_from_skip. eexists. by rewrite <- !app_assoc.
Qed.

(** Without a dollar in the token, what was read before does not matter. *)
Lemma replace_from_before token s : forall b1 b2 skip,
  no_dollar token ->
  replace_from (TOKEN_key ++ token ++ list_ascii_of_string "$1") b1 skip s =
  replace_from (TOKEN_key ++ token ++ list_ascii_of_string "$1") b2 skip s.
Proof.
  induction s as [|c s IH]; intros b1 b2 skip Ht; [done|].
  cbn [replace_from]. destruct skip as [|k]; [|by apply IH].
  destruct (match_here (c :: s)) as [[matched group]|].
  - rewrite !substitution_template by done. f_equal. by apply IH.
  - f_equal. by apply IH.
Qed.

Lemma envContent_line pre v eol after token :
  includes TOKEN_key pre = false ->
  one_line v ->
  line_break eol after ->
  no_dollar token ->
  envContent (Some (pre ++ TOKEN_key ++ v ++ eol ++ after)) token =
    pre ++ TOKEN_key ++ token ++ eol ++
    (if includes TOKEN_key after then envContent (Some after) token else after).
Proof.
  intros Hpre Hv Hb Ht. unfold envContent at 1.
  rewrite includes_app_r by apply starts_with_self.
  unfold replace_token_lines.
  rewrite replace_from_clean by (apply clean_of_includes, key_not_closing; done).
  destruct (replace_from_line token (rev pre ++ []) v eol after Ht Hv Hb) as [b' ->].
  do 4 f_equal.
  destruct (includes TOKEN_key after) eqn:Hafter.
  - unfold envContent. rewrite Hafter. unfold replace_token_lines.
    by apply replace_from_before.
  - by apply replace_from_absent.
Qed.

(** X16. Saving a token to a file that holds a TOKEN= line rewrites the
    value of that line and keeps the rest: for a token without a dollar
    sign, everything before the first [TOKEN=] is kept (a longer name
    ending in TOKEN included), the value up to the end of the line gives
    way to the token, the line break is kept, and what follows is treated
    in the same way, or kept as it is when it holds no [TOKEN=]. *)
Theorem X16_token_line_rewritten pre v eol after token :
  includes TOKEN_key pre = false ->
  one_line v ->
  line_break eol after ->
  no_dollar token ->
  envContent (Some (pre ++ TOKEN_key ++ v ++ eol ++ after)) token =
    pre ++ TOKEN_key ++ token ++ eol ++
    (if includes TOKEN_key after then envContent (Some after) token else after).
Proof. apply envContent_line. Qed.

Lemma plain_text (s : string) :
  forallb (fun c => negb (Ascii.eqb c "$") && dot c) (list_ascii_of_string s) = true ->
  no_dollar (list_ascii_of_string s) /\ one_line (list_ascii_of_string s).
Proof.
  intros H. rewrite forallb_forall in H. split; apply Forall_forall; intros c Hc;
    apply list_elem_of_In in Hc;
    specialize (H c Hc); apply andb_true_iff in H as [H1 H2]; [|done].
  apply negb_true_iff in H1. by apply Ascii.eqb_neq.
Defined.

(** Witness of X16: a file with a port, another key ending in TOKEN and a
    last line. *)
Lemma X16_witness :
  envContent
    (Some ((list_ascii_of_string "PORT=1" ++ [LF] ++ list_ascii_of_string "API_")
           ++ TOKEN_key ++ list_ascii_of_string "old" ++ [LF]
           ++ list_ascii_of_string "MODE=x"))
    (list_ascii_of_string "new") =
  (list_ascii_of_string "PORT=1" ++ [LF] ++ list_ascii_of_string "API_")
  ++ TOKEN_key ++ list_ascii_of_string "new" ++ [LF] ++ list_ascii_of_string "MODE=x".
Proof.
  apply (X16_token_line_rewritten
           (list_ascii_of_string "PORT=1" ++ [LF] ++ list_ascii_of_string "API_")
           (list_ascii_of_string "old") [LF] (list_ascii_of_string "MODE=x")
           (list_ascii_of_string "new")).
  - reflexivity.
  - apply (plain_text "old"). reflexivity.
  - by left.
  - apply (plain_text "new"). reflexivity.
Defined.

(** ** A second login *)

(** X17. A second login overwrites the token of the first and leaves one
    TOKEN= line: when the first login found no file, or a file without
    [TOKEN=], saving a token without a line break and then a token without
    a dollar sign gives the content that saving the second token alone
    would have given. *)
Theorem X17_second_login existing t1 t2 :
  fresh existing -> one_line t1 -> no_dollar t2 ->
  envContent (Some (envContent existing t1)) t2 = envContent existing t2.
Proof.
  intros Hf Ht1 Ht2. destruct existing as [old|]; cbn [fresh] in Hf.
  - unfold envContent at 2 3. rewrite Hf.
    replace (old ++ [LF] ++ TOKEN_key ++ t1)
      with ((old ++ [LF]) ++ TOKEN_key ++ t1 ++ [] ++ [])
      by (by rewrite <- !app_assoc, !app_nil_r).
    rewrite envContent_line; try done.
    + cbn [includes starts_with]. key_simpl.
      by rewrite <- !app_assoc, !app_nil_r.
    + apply includes_app_false; [done|done|apply LF_not_closing].
    + by right; right.
  - unfold envContent at 2 3.
    replace (TOKEN_key ++ t1 ++ [LF]) with ([] ++ TOKEN_key ++ t1 ++ [LF] ++ [])
      by (by rewrite !app_nil_r).
    rewrite envContent_line; try done. by left.
Qed.

(** Witness of X17: two logins with a file that holds a port. *)
Lemma X17_witness :
  envContent
    (Some (envContent (Some (list_ascii_of_string "PORT=1"))
             (list_ascii_of_string "first")))
    (list_ascii_of_string "second") =
  envContent (Some (list_ascii_of_string "PORT=1")) (list_ascii_of_string "second").
Proof.
  apply (X17_second_login (Some (list_ascii_of_string "PORT=1"))
           (list_ascii_of_string "first") (list_ascii_of_string "second")).
  - reflexivity.
  - apply (plain_text "first"). reflexivity.
  - apply (plain_text "second"). reflexivity.
Defined.

(** ** A carriage return alone *)

Lemma starts_with_inv p : forall s,
  starts_with p s = true -> s = p ++ drop (length p) s.
Proof.
  induction p as [|a p IH]; intros s H; [by rewrite drop_0|].
  destruct s as [|b s]; [done|]. cbn [starts_with] in H.
  apply andb_true_iff in H as [Hab H]. apply Ascii.eqb_eq in Hab as ->.
  cbn [length drop app]. f_equal. by apply IH.
Qed.

Lemma dot_star_app k r :
  one_line k -> dot_star (k ++ r) = (k ++ (dot_star r).1, (dot_star r).2).
Proof.
  induction 1 as [|c k Hc _ IH]; cbn [app dot_star].
  - by destruct (dot_star r).
  - rewrite Hc, IH. done.
Qed.

Lemma one_line_key : one_line TOKEN_key.
Proof. by repeat constructor. Qed.

(** On a line that a carriage return alone ends, no match starts. *)
Lemma match_here_bare w after :
  one_line w -> starts_with [LF] after = false ->
  match_here (w ++ CR :: after) = None.
Proof.
  intros Hw Ha. unfold match_here.
  destruct (starts_with TOKEN_key (w ++ CR :: after)) eqn:Hs; [|done].
  apply starts_with_inv in Hs.
  pose proof (dot_star_line w (CR :: after) Hw eq_refl) as Hd.
  rewrite Hs, (dot_star_app _ _ one_line_key) in Hd.
  destruct (dot_star (drop (length TOKEN_key) (w ++ CR :: after))) as [run rest'].
  injection Hd as _ ->. cbn [line_end].
  destruct after as [|d after]; [done|].
  cbn [starts_with] in Ha. rewrite andb_true_r, Ascii.eqb_sym in Ha.
  replace (Ascii.eqb CR LF) with false by done. by rewrite Ha.
Qed.

Lemma replace_from_bare template w after :
  one_line w -> starts_with [LF] after = false ->
  forall before_rev,
    replace_from template before_rev 0 (w ++ CR :: after) =
    w ++ replace_from template (rev w ++ before_rev) 0 (CR :: after).
Proof.
  intros Hw Ha. induction Hw as [|c w Hc Hw IH]; intros before_rev; [done|].
  cbn [app replace_from].
  assert (Hm : match_here (c :: w ++ CR :: after) = None)
    by (by apply (match_here_bare (c :: w) after); [constructor|]).
  rewrite Hm.
  rewrite IH. cbn [rev]. by rewrite <- app_assoc.
Qed.

(** X18. A TOKEN= line that ends with a carriage return alone, as in a
    file with the line ends of the classic Mac OS, is not rewritten: when
    it is the only [TOKEN=] of the file, the content saved is the content
    read, and the new token is not in it, whatever the token. *)
Theorem X18_bare_return pre v after token :
  includes TOKEN_key pre = false ->
  one_line v ->
  starts_with [LF] after = false ->
  includes TOKEN_key after = false ->
  envContent (Some (pre ++ TOKEN_key ++ v ++ CR :: after)) token =
  pre ++ TOKEN_key ++ v ++ CR :: after.
Proof.
  intros Hpre Hv Ha Hafter. unfold envContent.
  rewrite includes_app_r by apply starts_with_self.
  unfold replace_token_lines.
  rewrite replace_from_clean by (apply clean_of_includes, key_not_closing; done).
  f_equal. rewrite (app_assoc TOKEN_key v).
  rewrite replace_from_bare;
    [|by apply Forall_app; split; [apply one_line_key|]|done].
  f_equal. cbn [replace_from]. replace (match_here (CR :: after)) with
    (@None (text * text)) by done.
  f_equal. by apply replace_from_absent.
Qed.

(** Witness of X18: the token line between two other lines. *)
Lemma X18_witness :
  envContent
    (Some ((list_ascii_of_string "PORT=1" ++ [CR]) ++ TOKEN_key
           ++ list_ascii_of_string "old" ++ CR :: list_ascii_of_string "MODE=x"))
    (list_ascii_of_string "new") =
  (list_ascii_of_string "PORT=1" ++ [CR]) ++ TOKEN_key
  ++ list_ascii_of_string "old" ++ CR :: list_ascii_of_string "MODE=x".
Proof.
  apply (X18_bare_return (list_ascii_of_string "PORT=1" ++ [CR])
           (list_ascii_of_string "old") (list_ascii_of_string "MODE=x")
           (list_ascii_of_string "new")).
  - reflexivity.
  - apply (plain_text "old"). reflexivity.
  - reflexivity.
  - reflexivity.
Defined.
